(** * Mosaic Weaver: the tile weave engine and the parameter interpolator

    A shallow embedding of [utils/imageProcessing.ts] (the engine:
    [pseudoRandom], [getShiftFactors], [renderWeave] with its local
    [drawWrapped]) and of the render loop of [components/PreviewArea.tsx]
    (the interpolator: [lerp] and the six assignments to [current]).

    Conventions.
    - A JavaScript [number] is a rational ([Q]), and the arithmetic of the
      source is kept operator by operator.  The engine is kept on the
      rationals, without rounding.  The interpolator, whose values feed
      one another frame after frame, rounds the result of every operation
      to binary64 ([Binary64.round64]: to the nearest value, halves to the
      even one, 53 bits, subnormal values included); overflow, [NaN] and
      the infinities are not modelled.  Loop counters and pixel coordinates
      are integers ([Z]).
    - [%] is the JavaScript remainder (sign of the dividend), written
      [js_rem] on [Q] and [Z.rem] on [Z].
    - [Math.sin] is a parameter of the engine: every theorem holds whatever
      rational-valued function stands for it.
    - A canvas is a width, a height and a pixel function.  [drawImage]
      composites source-over.  The blend of a partly transparent pixel
      over a pixel that is not transparent, and a draw at fractional
      coordinates, are left to the browser: they are the two fields of the
      parameter [Browser], and every theorem holds whatever they are. *)

From Stdlib Require Import ZArith QArith Qround Qabs Qminmax Qpower Lia Lqa List Bool.
From Stdlib Require Import Permutation FinFun.
Import ListNotations.

Local Open Scope Q_scope.

(** ** JavaScript numbers *)

Module JsNum.

(** Truncation toward zero, the integer part used by the [%] operator. *)
Definition Qtrunc (q : Q) : Z := Z.quot (Qnum q) (Zpos (Qden q)).

(** [a % b] on numbers: [a - b * trunc (a / b)].  The engine takes
    remainders by 2 and, inside the tile loop, by the width and the height
    of a raster that has at least one tile; a zero divisor ([NaN] in the
    source) does not occur and is not modelled. *)
Definition js_rem (a b : Q) : Q := a - b * inject_Z (Qtrunc (a / b)).

Definition Math_floor (q : Q) : Z := Qfloor q.
Definition Math_ceil (q : Q) : Z := Qceiling q.
Definition Math_abs (q : Q) : Q := Qabs q.
Definition Math_max (a b : Q) : Q := Qmax a b.
Definition Math_min (a b : Q) : Q := Qmin a b.

(** [a < b] and [a <= b] as the booleans the source branches on. *)
Definition Qltb (a b : Q) : bool := negb (Qle_bool b a).
Definition Qleb (a b : Q) : bool := Qle_bool a b.

End JsNum.
Export JsNum.

(** ** Binary64

    The rounding of IEEE 754 binary64 on rationals.  [exponent x] is the
    integer [e] with [2 ^ e <= |x| < 2 ^ (e + 1)]; the values of binary64
    near [x] are the multiples of [2 ^ quantum x], where the quantum is 52
    binary places below the exponent and never below [-1074], the exponent
    of the smallest subnormal value.  [round64] takes the nearest multiple,
    and of two that are equally near the even one.  A result beyond the
    largest finite value, [Infinity] in the source, is not modelled: the
    interpolator stays between the values it is given, which the sliders
    keep below 201. *)
Module Binary64.

Definition pow2 (k : Z) : Q := 2 ^ k.

Definition exponent (x : Q) : Z :=
  let e := (Z.log2 (Z.abs (Qnum x)) - Z.log2 (Zpos (Qden x)))%Z in
  if Qle_bool (pow2 e) (Qabs x) then e else (e - 1)%Z.

(** To the nearest integer, a half to the even side. *)
Definition roundEven (y : Q) : Z :=
  let f := Qfloor y in
  match Qcompare (y - inject_Z f) (1 # 2) with
  | Lt => f
  | Gt => (f + 1)%Z
  | Eq => if Z.even f then f else (f + 1)%Z
  end.

Definition quantum (x : Q) : Z := Z.max (exponent x - 52) (-1074).

Definition round64 (x : Q) : Q :=
  Qred (inject_Z (roundEven (x / pow2 (quantum x))) * pow2 (quantum x)).

(** [a + b], [a - b] and [a * b] on numbers. *)
Definition fadd (a b : Q) : Q := round64 (a + b).
Definition fsub (a b : Q) : Q := round64 (a - b).
Definition fmul (a b : Q) : Q := round64 (a * b).

(** The rationals that rounding leaves as they are: the finite values of
    binary64, and the values binary64 would have beyond them, since the
    exponent is not bounded from above here. *)
Definition double (x : Q) : Prop := round64 x == x.

(** The integral multiples of [u]. *)
Definition multiple (u x : Q) : Prop := exists j : Z, x == inject_Z j * u.

End Binary64.

(** ** types.ts *)

Module Types.

Inductive WeavePattern : Type := plain | twill | satin | basket.

Record ProcessorSettings : Type := mkSettings {
  tileSize : Q;
  horizontalShift : Q;
  verticalShift : Q;
  scatterIntensity : Q;
  pattern : WeavePattern;
  opacity : Q;
  seed : Q
}.

End Types.
Export Types.

(** ** imageProcessing.ts: the shift factors *)

Record ShiftFactors : Type := mkFactors { xFactor : Q; yFactor : Q }.

(** [getShiftFactors (xIndex, yIndex, pattern)].  The indices are the loop
    counters of [renderWeave]. *)
Definition getShiftFactors (xIndex yIndex : Z) (p : WeavePattern) : ShiftFactors :=
  match p with
  | plain =>
      mkFactors (if (Z.rem yIndex 2 =? 0)%Z then 1 else -1)
                (if (Z.rem xIndex 2 =? 0)%Z then 1 else -1)
  | twill =>
      mkFactors ((inject_Z (Z.rem yIndex 4) - 1.5) * 1.5)
                ((inject_Z (Z.rem xIndex 4) - 1.5) * 1.5)
  | satin =>
      mkFactors (inject_Z (Z.rem (yIndex * 3) 5) - 2)
                (inject_Z (Z.rem (xIndex * 3) 5) - 2)
  | basket =>
      mkFactors (if (Z.rem (yIndex / 2) 2 =? 0)%Z then 1 else -1)
                (if (Z.rem (xIndex / 2) 2 =? 0)%Z then 1 else -1)
  end.

(** The table of the specification, read with the mathematical [mod] and
    [floor] on the tile index [(col, row)]. *)
Module SpecTable.

Definition sign_of_even (n : Z) : Q := if (n mod 2 =? 0)%Z then 1 else -1.

Definition xFactor_spec (p : WeavePattern) (col row : Z) : Q :=
  match p with
  | plain => sign_of_even row
  | twill => (inject_Z (row mod 4) - 1.5) * 1.5
  | satin => inject_Z ((row * 3) mod 5) - 2
  | basket => sign_of_even (row / 2)
  end.

Definition yFactor_spec (p : WeavePattern) (col row : Z) : Q :=
  match p with
  | plain => sign_of_even col
  | twill => (inject_Z (col mod 4) - 1.5) * 1.5
  | satin => inject_Z ((col * 3) mod 5) - 2
  | basket => sign_of_even (col / 2)
  end.

End SpecTable.

(** The wrap-around of the specification, read with the mathematical [mod]
    (the least non-negative residue). *)
Module SpecWrap.

Definition Qmod (v m : Q) : Q := v - m * inject_Z (Qfloor (v / m)).

Definition wrap (v m : Q) : Q := Qmod (Qmod v m + m) m.

End SpecWrap.

(** ** The canvas

    What the engine uses of the 2D canvas API: assigning [width] and
    [height], [clearRect], and the two forms of [drawImage]. *)

Record Pixel : Type := rgba { red : Z; green : Z; blue : Z; alpha : Z }.

(** The value of a cleared pixel: transparent black. *)
Definition blank : Pixel := rgba 0 0 0 0.

Record Raster : Type := mkRaster {
  rwidth : Z;
  rheight : Z;
  rpix : Z -> Z -> Pixel
}.

Definition inBounds (r : Raster) (px py : Z) : bool :=
  ((0 <=? px) && (px <? rwidth r) && (0 <=? py) && (py <? rheight r))%Z.

(** Reading a pixel; there is nothing outside the bitmap. *)
Definition getPixel (r : Raster) (px py : Z) : Pixel :=
  if inBounds r px py then rpix r px py else blank.

(** All pixels of a raster, row by row. *)
Definition range (n : Z) : list Z := map Z.of_nat (seq 0 (Z.to_nat n)).

Definition coords (width height : Z) : list (Z * Z) :=
  flat_map (fun y => map (fun x => (x, y)) (range width)) (range height).

Definition pixels (r : Raster) : list Pixel :=
  map (fun p => getPixel r (fst p) (snd p)) (coords (rwidth r) (rheight r)).

Definition channelSum (channel : Pixel -> Z) (r : Raster) : Z :=
  fold_right Z.add 0%Z (map channel (pixels r)).

(** [if (c.width !== width) c.width = width]: assigning a dimension resets
    the bitmap. *)
Definition setWidth (c : Raster) (width : Z) : Raster :=
  if (rwidth c =? width)%Z then c
  else mkRaster width (rheight c) (fun _ _ => blank).

Definition setHeight (c : Raster) (height : Z) : Raster :=
  if (rheight c =? height)%Z then c
  else mkRaster (rwidth c) height (fun _ _ => blank).

(** [c.clearRect (x, y, w, h)]. *)
Definition clearRect (c : Raster) (x y w h : Z) : Raster :=
  mkRaster (rwidth c) (rheight c)
    (fun px py =>
       if ((x <=? px) && (px <? x + w) && (y <=? py) && (py <? y + h))%Z
       then blank else rpix c px py).

(** What the source leaves to the browser.

    [blend src dst] is the result of compositing a partly transparent pixel
    over a pixel that is not transparent; it depends on how the browser
    stores and rounds colours.

    [smooth] is a draw at fractional coordinates, which the browser
    resamples and anti-aliases.  From the width, the height and the pixels
    of the source, the six numbers of the call, the position of a pixel and
    the value it had, it gives the value the pixel gets. *)
Record Browser : Type := mkBrowser {
  blend : Pixel -> Pixel -> Pixel;
  smooth : Z -> Z -> list Pixel -> Q -> Q -> Q -> Q -> Q -> Q ->
           Z -> Z -> Pixel -> Pixel
}.

(** Source-over, the default [globalCompositeOperation], which the
    engine never changes.  Onto a transparent pixel the source pixel is
    stored; an opaque source pixel replaces what was there; a transparent
    source pixel leaves it. *)
Definition sourceOver (browser : Browser) (src dst : Pixel) : Pixel :=
  if (alpha dst =? 0)%Z then src
  else if (alpha src =? 255)%Z then src
  else if (alpha src =? 0)%Z then dst
  else blend browser src dst.

(** [c.drawImage (img, dx, dy)]: the whole image, clipped to the canvas. *)
Definition drawImage3 (browser : Browser) (c img : Raster) (dx dy : Z) : Raster :=
  mkRaster (rwidth c) (rheight c)
    (fun px py =>
       if inBounds c px py && inBounds img (px - dx) (py - dy)
       then sourceOver browser (rpix img (px - dx)%Z (py - dy)%Z) (rpix c px py)
       else rpix c px py).

Definition isInteger (q : Q) : bool := Qeq_bool (inject_Z (Qfloor q)) q.

(** Are the six numbers of a call integers?  Then every pixel of the source
    rectangle lands on one pixel of the canvas. *)
Definition aligned (sx sy w h dx dy : Q) : bool :=
  isInteger sx && isInteger sy && isInteger w && isInteger h &&
  isInteger dx && isInteger dy.

(** Does the square of the pixel [(px, py)] meet the rectangle from
    [(x0, y0)] to [(x1, y1)]? *)
Definition touches (x0 y0 x1 y1 : Q) (px py : Z) : bool :=
  Qltb x0 (inject_Z px + 1) && Qltb (inject_Z px) x1 &&
  Qltb y0 (inject_Z py + 1) && Qltb (inject_Z py) y1.

(** [c.drawImage (src, sx, sy, w, h, dx, dy, w, h)]: the engine always
    passes the same size for the source and the destination rectangle, so
    nothing is scaled.

    [copies] says whether the call draws on the pixel [(px, py)]: the pixel
    is on the canvas and its square meets the destination rectangle,
    clipped to where the source rectangle has pixels of [src].  When the
    six numbers are integers a pixel drawn on is the composite of one pixel
    of the source, [srcPixel], over the value it had; otherwise it is what
    the browser's smoothing makes of it. *)
Definition srcPixel (sx sy dx dy : Q) (px py : Z) : Z * Z :=
  (Math_floor (sx + (inject_Z px - dx)), Math_floor (sy + (inject_Z py - dy))).

Definition copies (c src : Raster) (sx sy w h dx dy : Q) (px py : Z) : bool :=
  inBounds c px py &&
  touches (Qmax dx (dx - sx)) (Qmax dy (dy - sy))
          (Qmin (dx + w) (dx - sx + inject_Z (rwidth src)))
          (Qmin (dy + h) (dy - sy + inject_Z (rheight src))) px py.

Definition drawImage9 (browser : Browser) (c src : Raster)
    (sx sy w h dx dy : Q) : Raster :=
  mkRaster (rwidth c) (rheight c)
    (fun px py =>
       if copies c src sx sy w h dx dy px py then
         if aligned sx sy w h dx dy
         then sourceOver browser
                (rpix src (fst (srcPixel sx sy dx dy px py))
                          (snd (srcPixel sx sy dx dy px py)))
                (rpix c px py)
         else smooth browser (rwidth src) (rheight src) (pixels src)
                sx sy w h dx dy px py (rpix c px py)
       else rpix c px py).

(** The draw test on integral rectangles: [in1] on one axis, [inRectZ] on
    both. *)
Definition in1 (a len p : Z) : bool := ((a <=? p) && (p <? a + len))%Z.

Definition inRectZ (a b wz hz px py : Z) : bool :=
  in1 a wz px && in1 b hz py.

(** Two rasters of the same size with the same pixels. *)
Definition sameRaster (r r' : Raster) : Prop :=
  rwidth r = rwidth r' /\ rheight r = rheight r' /\
  forall px py, inBounds r px py = true -> rpix r px py = rpix r' px py.

(** An [HTMLCanvasElement]: its bitmap, and whether [getContext ('2d')]
    yields a context. *)
Record HTMLCanvasElement : Type := mkCanvas {
  bitmap : Raster;
  has2d : bool
}.

(** ** imageProcessing.ts: the engine *)

Inductive SwapDirection : Type := right | down.

(** [pseudoRandom (x, y, seed)], with [Math.sin] as its first argument. *)
Definition pseudoRandom (Math_sin : Q -> Q) (x y seed : Q) : Q :=
  let v := Math_sin (x * 12.9898 + y * 78.233 + seed) * 43758.5453 in
  v - inject_Z (Math_floor v).

(** The body of [renderWeave], one definition for each local of the source.
    [width] and [height] are the dimensions of the image, [x] and [y] the
    loop counters. *)
Module RenderWeave.

Section Locals.

Variable Math_sin : Q -> Q.
Variable browser : Browser.
Variable settings : ProcessorSettings.
Variables width height : Z.

Definition fastPath : bool :=
  Qltb (Math_abs (horizontalShift settings)) 0.5 &&
  Qltb (Math_abs (verticalShift settings)) 0.5 &&
  Qltb (scatterIntensity settings) 0.5.

Definition tileSize : Q := Math_max 2 (Types.tileSize settings).
Definition rows : Z := Math_ceil (inject_Z height / tileSize).
Definition cols : Z := Math_ceil (inject_Z width / tileSize).

Section Tile.

Variables x y : Z.

Definition sx : Q := inject_Z x * tileSize.
Definition sy : Q := inject_Z y * tileSize.
Definition w : Q := Math_min tileSize (inject_Z width - sx).
Definition h : Q := Math_min tileSize (inject_Z height - sy).

Definition factors : ShiftFactors := getShiftFactors x y (pattern settings).
Definition shiftX : Q := horizontalShift settings * xFactor factors.
Definition shiftY : Q := verticalShift settings * yFactor factors.

(** [destX] and [destY] after the toroidal wrap. *)
Definition destX : Q :=
  js_rem (js_rem (sx + shiftX) (inject_Z width) + inject_Z width) (inject_Z width).
Definition destY : Q :=
  js_rem (js_rem (sy + shiftY) (inject_Z height) + inject_Z height) (inject_Z height).

Definition hash : Q := pseudoRandom Math_sin (inject_Z x) (inject_Z y) (seed settings).
Definition threshold : Q := scatterIntensity settings / 100.

Definition swapDirection : SwapDirection :=
  if Qltb (js_rem (hash * 10) 2) 1 then right else down.

Definition finalDestX : Q :=
  if Qltb hash threshold then
    match swapDirection with
    | right => js_rem (destX + tileSize) (inject_Z width)
    | down => destX
    end
  else destX.

Definition finalDestY : Q :=
  if Qltb hash threshold then
    match swapDirection with
    | right => destY
    | down => js_rem (destY + tileSize) (inject_Z height)
    end
  else destY.

(** [drawWrapped (dx, dy)]: first where the tile is drawn, then the drawing. *)
Definition fits (dx dy : Q) : bool :=
  Qleb (dx + w) (inject_Z width) && Qleb (dy + h) (inject_Z height).

Definition positions (dx dy : Q) : list (Q * Q) :=
  [ (dx, dy);
    (dx - inject_Z width, dy);
    (dx, dy - inject_Z height);
    (dx - inject_Z width, dy - inject_Z height) ].

Definition visible (pos : Q * Q) : bool :=
  Qltb 0 (fst pos + w) && Qltb (fst pos) (inject_Z width) &&
  Qltb 0 (snd pos + h) && Qltb (snd pos) (inject_Z height).

Definition drawnAt (dx dy : Q) : list (Q * Q) :=
  if fits dx dy then [ (dx, dy) ] else filter visible (positions dx dy).

Definition drawWrapped (ctx tempCanvas : Raster) (dx dy : Q) : Raster :=
  fold_left
    (fun c pos => drawImage9 browser c tempCanvas sx sy w h (fst pos) (snd pos))
    (drawnAt dx dy) ctx.

(** One turn of the inner loop. *)
Definition drawTile (ctx tempCanvas : Raster) : Raster :=
  drawWrapped ctx tempCanvas finalDestX finalDestY.

(** Does this turn of the loop draw on the pixel [(px, py)]? *)
Definition tileWrites (ctx tempCanvas : Raster) (px py : Z) : bool :=
  existsb
    (fun pos => copies ctx tempCanvas sx sy w h (fst pos) (snd pos) px py)
    (drawnAt finalDestX finalDestY).

End Tile.

(** The tiles in the order of the two nested loops. *)
Definition tiles : list (Z * Z) :=
  flat_map (fun y => map (fun x => (x, y)) (range cols)) (range rows).

Definition weave (ctx tempCanvas : Raster) : Raster :=
  fold_left (fun c t => drawTile (fst t) (snd t) c tempCanvas) tiles ctx.

End Locals.

End RenderWeave.

(** [renderWeave (ctx, img, settings, tempCanvas)]: the bitmap of
    [ctx.canvas] and the temporary canvas after the call. *)
Definition renderWeave (Math_sin : Q -> Q) (browser : Browser) (ctx img : Raster)
    (settings : ProcessorSettings) (tempCanvas : HTMLCanvasElement)
    : Raster * HTMLCanvasElement :=
  let width := rwidth img in
  let height := rheight img in
  let ctx1 := setHeight (setWidth ctx width) height in
  let temp1 := setHeight (setWidth (bitmap tempCanvas) width) height in
  if negb (has2d tempCanvas) then (ctx1, mkCanvas temp1 false)
  else
    let temp2 := drawImage3 browser (clearRect temp1 0 0 width height) img 0 0 in
    let ctx2 := clearRect ctx1 0 0 width height in
    if RenderWeave.fastPath settings then
      (drawImage3 browser ctx2 img 0 0, mkCanvas temp2 true)
    else
      (RenderWeave.weave Math_sin browser settings width height ctx2 temp2,
       mkCanvas temp2 true).

(** The engine reads six fields of the configuration. *)
Definition sameInputs (s1 s2 : ProcessorSettings) : Prop :=
  Types.tileSize s1 = Types.tileSize s2 /\
  horizontalShift s1 = horizontalShift s2 /\
  verticalShift s1 = verticalShift s2 /\
  scatterIntensity s1 = scatterIntensity s2 /\
  pattern s1 = pattern s2 /\
  seed s1 = seed s2.

(** ** PreviewArea.tsx: the interpolator *)

Module PreviewArea.

(** Interpolation factor (speed): the number that the literal [0.1]
    denotes. *)
Definition t : Q := Binary64.round64 0.1.

(** [a + (b - a) * t], each operation rounded. *)
Definition lerp (a b : Q) : Q :=
  Binary64.fadd a (Binary64.fmul (Binary64.fsub b a) t).

(** The six assignments to [current] in the render loop.  [current] is
    always a copy ([{ ...settings }]), never the target object itself, so
    the step is a function of two records; it returns [current] as the loop
    leaves it. *)
Definition interpolate (current target : ProcessorSettings) : ProcessorSettings :=
  {| Types.tileSize := lerp (Types.tileSize current) (Types.tileSize target);
     horizontalShift := lerp (horizontalShift current) (horizontalShift target);
     verticalShift := lerp (verticalShift current) (verticalShift target);
     scatterIntensity := lerp (scatterIntensity current) (scatterIntensity target);
     pattern := pattern target;
     opacity := opacity current;
     seed := seed target |}.

(** The fields the loop interpolates. *)
Definition numericFields : list (ProcessorSettings -> Q) :=
  [ horizontalShift; verticalShift; scatterIntensity; Types.tileSize ].

(** How far a field of [current] is from its value in [target]. *)
Definition distance (field : ProcessorSettings -> Q)
    (current target : ProcessorSettings) : Q :=
  Qabs (field current - field target).

(** [n] frames with the same [target]. *)
Fixpoint frames (n : nat) (current target : ProcessorSettings) : ProcessorSettings :=
  match n with
  | O => current
  | S k => frames k (interpolate current target) target
  end.

End PreviewArea.

(** ** The plain weave on integers

    [paritySign] is the plain factor as an integer; [plainSource] is the
    source pixel that the plain weave, without scatter and with one shifted
    axis, brings to a pixel of the destination. *)
Definition paritySign (n : Z) : Z := if (Z.rem n 2 =? 0)%Z then 1 else -1.

Definition plainSource (T hs vs width height : Z) (p : Z * Z) : Z * Z :=
  (((fst p - hs * paritySign (snd p / T)) mod width)%Z,
   ((snd p - vs * paritySign (fst p / T)) mod height)%Z).

(** ** PreviewArea.tsx: the render loop *)

Module PreviewLoop.

(** [img.onload]: the animation restarts from the "zero" effect, a copy of
    the settings with both shifts and the scatter at 0.  The settings are
    the ones the effect captured when [originalSrc] changed; the loop
    interpolates toward the settings of the current render. *)
Definition onload (settings : ProcessorSettings) : ProcessorSettings :=
  {| Types.tileSize := Types.tileSize settings;
     horizontalShift := 0;
     verticalShift := 0;
     scatterIntensity := 0;
     pattern := pattern settings;
     opacity := opacity settings;
     seed := seed settings |}.

(** What the loop keeps between two frames: [currentSettingsRef], the
    bitmap of the visible canvas and the temporary canvas. *)
Record LoopState : Type := mkLoop {
  current : ProcessorSettings;
  canvas : Raster;
  tempCanvas : HTMLCanvasElement
}.

(** [render]: one frame.  Without an image ([imageRef.current] is [null])
    the frame does nothing; with one it interpolates [current] toward the
    target and draws with the interpolated settings. *)
Definition render (Math_sin : Q -> Q) (browser : Browser) (img : option Raster)
    (target : ProcessorSettings) (st : LoopState) : LoopState :=
  match img with
  | None => st
  | Some image =>
      let next := PreviewArea.interpolate (current st) target in
      let drawn := renderWeave Math_sin browser (canvas st) image next (tempCanvas st) in
      mkLoop next (fst drawn) (snd drawn)
  end.

(** [n] frames in a row, as [requestAnimationFrame] schedules them. *)
Fixpoint renderFrames (Math_sin : Q -> Q) (browser : Browser) (img : option Raster)
    (target : ProcessorSettings) (n : nat) (st : LoopState) : LoopState :=
  match n with
  | O => st
  | S k =>
      renderFrames Math_sin browser img target k (render Math_sin browser img target st)
  end.

End PreviewLoop.

(** ** ControlPanel.tsx *)

Module ControlPanel.

(** [ImageDimensions] of types.ts. *)
Record ImageDimensions : Type := mkDimensions { imageWidth : Z; imageHeight : Z }.

(** [Math.round]: to the nearest integer, halves upward. *)
Definition Math_round (q : Q) : Z := Qfloor (q + 0.5).

(** [handleChange ('tileSize', value)]: [{ ...prev, tileSize: value }]. *)
Definition handleChange_tileSize (value : Q) (prev : ProcessorSettings)
    : ProcessorSettings :=
  {| Types.tileSize := value;
     horizontalShift := horizontalShift prev;
     verticalShift := verticalShift prev;
     scatterIntensity := scatterIntensity prev;
     pattern := pattern prev;
     opacity := opacity prev;
     seed := seed prev |}.

(** [handleGridPreset (division)]. *)
Definition handleGridPreset (imageDimensions : option ImageDimensions)
    (division : Z) (prev : ProcessorSettings) : ProcessorSettings :=
  match imageDimensions with
  | None => prev
  | Some d =>
      let size :=
        Math_floor (Math_min (inject_Z (imageWidth d)) (inject_Z (imageHeight d))
                    / inject_Z division) in
      handleChange_tileSize (Math_max 2 (inject_Z size)) prev
  end.

(** The grid shown beside "Grid Division":
    [Math.round (width / tileSize)] by [Math.round (height / tileSize)]. *)
Definition gridLabel (d : ImageDimensions) (settings : ProcessorSettings) : Z * Z :=
  (Math_round (inject_Z (imageWidth d) / Types.tileSize settings),
   Math_round (inject_Z (imageHeight d) / Types.tileSize settings)).

End ControlPanel.

(** ** App.tsx *)

Module App.

Definition DEFAULT_SETTINGS : ProcessorSettings :=
  {| Types.tileSize := 40;
     horizontalShift := 20;
     verticalShift := 20;
     scatterIntensity := 0;
     pattern := plain;
     opacity := 100;
     seed := 123 |}.

(** The settings [handleImageSelect] installs once the image is decoded:
    the defaults with a tile size and shifts derived from its size. *)
Definition handleImageSelect (width height : Z) : ProcessorSettings :=
  {| Types.tileSize :=
       inject_Z (Math_floor (Math_min (inject_Z width) (inject_Z height) / 10));
     horizontalShift := inject_Z (Math_floor (inject_Z width / 20));
     verticalShift := inject_Z (Math_floor (inject_Z height / 20));
     scatterIntensity := scatterIntensity DEFAULT_SETTINGS;
     pattern := pattern DEFAULT_SETTINGS;
     opacity := opacity DEFAULT_SETTINGS;
     seed := seed DEFAULT_SETTINGS |}.

End App.

(** ** The repeat of a pattern

    The number of tiles after which the factors of a pattern repeat, read
    off the moduli of [getShiftFactors]. *)
Definition patternPeriod (p : WeavePattern) : Z :=
  match p with
  | plain => 2
  | twill => 4
  | satin => 5
  | basket => 4
  end.

(** ** Sample inputs *)

(** A 4 by 4 image whose pixels are all different, and a canvas that has
    not been sized yet. *)
Definition img4 : Raster := mkRaster 4 4 (fun x y => rgba x y (x + y) 255).

Definition emptyCanvas : Raster := mkRaster 0 0 (fun _ _ => blank).

(** The same image with a hole: its pixel [(2, 2)] is transparent. *)
Definition img4hole : Raster :=
  mkRaster 4 4 (fun x y => if ((x =? 2) && (y =? 2))%Z then blank else rgba x y (x + y) 255).

(** A browser for the examples: it blends by keeping the source pixel, and
    a draw at fractional coordinates leaves a pixel as it was. *)
Definition sampleBrowser : Browser :=
  mkBrowser (fun src _ => src) (fun _ _ _ _ _ _ _ _ _ _ _ old => old).

(** * Properties *)

(** ** The remainder and the wrap-around *)

Lemma Qtrunc_nonneg (q : Q) : 0 <= q -> Qtrunc q = Qfloor q.
Proof.
  destruct q as [n d]. unfold Qle, Qtrunc, Qfloor. simpl. intros Hn.
  apply Z.quot_div_nonneg; lia.
Qed.

Lemma Qtrunc_nonpos (q : Q) : q <= 0 -> Qtrunc q = Qceiling q.
Proof.
  destruct q as [n d]. unfold Qle, Qtrunc, Qceiling, Qfloor. simpl. intros Hn.
  replace n with (- (- n))%Z at 1 by lia.
  rewrite Z.quot_opp_l by lia.
  f_equal. apply Z.quot_div_nonneg; lia.
Qed.

Lemma Qtrunc_comp (p q : Q) : p == q -> Qtrunc p = Qtrunc q.
Proof.
  intros E. destruct (Qlt_le_dec p 0) as [Hp | Hp].
  - rewrite !Qtrunc_nonpos; try (rewrite <- ?E; lra). now rewrite E.
  - rewrite !Qtrunc_nonneg; try (rewrite <- ?E; lra). now rewrite E.
Qed.

#[global] Instance js_rem_comp : Proper (Qeq ==> Qeq ==> Qeq) js_rem.
Proof.
  intros a a' Ea b b' Eb. unfold js_rem.
  rewrite (Qtrunc_comp (a / b) (a' / b')) by (now rewrite Ea, Eb).
  now rewrite Ea, Eb.
Qed.

Lemma Qtrunc_bounds_nonneg (q : Q) :
  0 <= q -> 0 <= q - inject_Z (Qtrunc q) < 1.
Proof.
  intros H. rewrite (Qtrunc_nonneg q H).
  pose proof (Qfloor_le q) as L. pose proof (Qlt_floor q) as U.
  rewrite inject_Z_plus in U. change (inject_Z 1) with 1 in U. lra.
Qed.

Lemma Qtrunc_bounds_nonpos (q : Q) :
  q <= 0 -> -1 < q - inject_Z (Qtrunc q) <= 0.
Proof.
  intros H. rewrite (Qtrunc_nonpos q H).
  pose proof (Qle_ceiling q) as U. pose proof (Qceiling_lt q) as L.
  unfold Z.sub in L. rewrite inject_Z_plus, inject_Z_opp in L.
  change (inject_Z 1) with 1 in L. lra.
Qed.

Lemma js_rem_factor (a b : Q) :
  ~ b == 0 -> js_rem a b == b * (a / b - inject_Z (Qtrunc (a / b))).
Proof. intros Hb. unfold js_rem. field. exact Hb. Qed.

Lemma js_rem_nonneg (a b : Q) : 0 < b -> 0 <= a -> 0 <= js_rem a b < b.
Proof.
  intros Hb Ha. rewrite js_rem_factor by lra.
  assert (Hq : 0 <= a / b) by (apply Qle_shift_div_l; lra).
  destruct (Qtrunc_bounds_nonneg _ Hq) as [L U].
  set (f := a / b - inject_Z (Qtrunc (a / b))) in *. split.
  - apply Qmult_le_0_compat; lra.
  - setoid_replace b with (b * 1) at 2 by ring. apply Qmult_lt_l; lra.
Qed.

Lemma js_rem_nonpos (a b : Q) : 0 < b -> a <= 0 -> - b < js_rem a b <= 0.
Proof.
  intros Hb Ha. rewrite js_rem_factor by lra.
  assert (Hq : a / b <= 0).
  { apply Qle_shift_div_r; lra. }
  destruct (Qtrunc_bounds_nonpos _ Hq) as [L U].
  set (f := a / b - inject_Z (Qtrunc (a / b))) in *. split.
  - setoid_replace (- b) with (b * -1) by ring. apply Qmult_lt_l; lra.
  - setoid_replace 0 with (b * 0) by ring. apply Qmult_le_l; lra.
Qed.

Import SpecWrap.

Lemma Qmod_range (v m : Q) : 0 < m -> 0 <= Qmod v m < m.
Proof.
  intros Hm. unfold Qmod.
  assert (E : v - m * inject_Z (Qfloor (v / m))
              == m * (v / m - inject_Z (Qfloor (v / m)))) by (field; lra).
  rewrite E. pose proof (Qfloor_le (v / m)) as L. pose proof (Qlt_floor (v / m)) as U.
  rewrite inject_Z_plus in U. change (inject_Z 1) with 1 in U.
  assert (B : 0 <= v / m - inject_Z (Qfloor (v / m)) < 1) by lra.
  clear L U. destruct B as [L U].
  set (f := v / m - inject_Z (Qfloor (v / m))) in *. split.
  - apply Qmult_le_0_compat; lra.
  - setoid_replace m with (m * 1) at 2 by ring. apply Qmult_lt_l; lra.
Qed.

(** Two residues in [[0, m)] that differ by a multiple of [m] are equal. *)
Lemma residue_unique (m r r' : Q) (k : Z) :
  0 < m -> 0 <= r < m -> 0 <= r' < m -> r == r' + m * inject_Z k -> r == r'.
Proof.
  intros Hm Hr Hr' E.
  destruct (Z_lt_le_dec k 1) as [Hk1 | Hk1].
  - destruct (Z_lt_le_dec (-1) k) as [Hk2 | Hk2].
    + assert (k = 0%Z) by lia. subst k. rewrite E. ring.
    + exfalso. assert (Hq : inject_Z k <= -1).
      { change (-1) with (inject_Z (-1)). rewrite <- Zle_Qle. exact Hk2. }
      assert (m * inject_Z k <= m * -1) by (apply Qmult_le_l; lra). lra.
  - exfalso. assert (Hq : 1 <= inject_Z k).
    { change 1 with (inject_Z 1). rewrite <- Zle_Qle. exact Hk1. }
    assert (m * 1 <= m * inject_Z k) by (apply Qmult_le_l; lra). lra.
Qed.

Lemma js_wrap_range (v m : Q) :
  0 < m -> 0 <= js_rem (js_rem v m + m) m < m.
Proof.
  intros Hm. apply js_rem_nonneg; [exact Hm|].
  destruct (Qlt_le_dec v 0) as [Hv | Hv].
  - pose proof (js_rem_nonpos v m Hm) as B. lra.
  - pose proof (js_rem_nonneg v m Hm Hv) as B. lra.
Qed.

Lemma js_wrap_Qmod (v m : Q) :
  0 < m -> js_rem (js_rem v m + m) m == Qmod v m.
Proof.
  intros Hm.
  apply (residue_unique m _ _
           (Qfloor (v / m) + 1 - Qtrunc (v / m) - Qtrunc ((js_rem v m + m) / m)));
    [ exact Hm | now apply js_wrap_range | now apply Qmod_range | ].
  unfold Z.sub. rewrite !inject_Z_plus, !inject_Z_opp.
  change (inject_Z 1) with 1. unfold js_rem at 1, Qmod.
  set (t2 := inject_Z (Qtrunc ((js_rem v m + m) / m))).
  unfold js_rem. ring.
Qed.

Lemma Qmod_small (v m : Q) : 0 < m -> 0 <= v < m -> Qmod v m == v.
Proof.
  intros Hm Hv. symmetry.
  apply (residue_unique m _ _ (Qfloor (v / m))); auto using Qmod_range.
  unfold Qmod. ring.
Qed.

Lemma Qmod_add_period (v m : Q) : 0 < m -> Qmod (v + m) m == Qmod v m.
Proof.
  intros Hm.
  apply (residue_unique m _ _ (1 + Qfloor (v / m) - Qfloor ((v + m) / m)));
    auto using Qmod_range.
  unfold Z.sub. rewrite !inject_Z_plus, !inject_Z_opp. change (inject_Z 1) with 1.
  unfold Qmod. ring.
Qed.

Lemma wrap_Qmod (v m : Q) : 0 < m -> wrap v m == Qmod v m.
Proof.
  intros Hm. unfold wrap. rewrite Qmod_add_period by exact Hm.
  apply Qmod_small; auto using Qmod_range.
Qed.

(** ** Shift factors *)

Lemma sign_rem_mod (n : Z) :
  (0 <= n)%Z -> (Z.rem n 2 =? 0)%Z = (n mod 2 =? 0)%Z.
Proof. intros H. now rewrite Z.rem_mod_nonneg by lia. Qed.

(** C1.  On every tile index [(col, row)] and for every pattern, the factors
    the engine computes are those of the table of the specification: [plain]
    gives the sign of the parity of [row] and of [col], [twill] gives
    [((row mod 4) - 1.5) * 1.5] and [((col mod 4) - 1.5) * 1.5], [satin]
    gives [((row * 3) mod 5) - 2] and [((col * 3) mod 5) - 2], [basket] the
    sign of the parity of [floor (row / 2)] and of [floor (col / 2)]; and two
    configurations with the same pattern give the same factors, whatever
    their shifts. *)
Theorem shift_factors_table (settings : ProcessorSettings) (col row : Z) :
  (0 <= col)%Z -> (0 <= row)%Z ->
  xFactor (RenderWeave.factors settings col row)
    = SpecTable.xFactor_spec (pattern settings) col row /\
  yFactor (RenderWeave.factors settings col row)
    = SpecTable.yFactor_spec (pattern settings) col row /\
  (forall settings', pattern settings' = pattern settings ->
     RenderWeave.factors settings' col row = RenderWeave.factors settings col row).
Proof.
  intros Hc Hr. unfold RenderWeave.factors, getShiftFactors.
  repeat split.
  - destruct (pattern settings); simpl; unfold SpecTable.sign_of_even.
    + now rewrite sign_rem_mod.
    + now rewrite Z.rem_mod_nonneg by lia.
    + now rewrite Z.rem_mod_nonneg by lia.
    + rewrite sign_rem_mod; [reflexivity | apply Z.div_pos; lia].
  - destruct (pattern settings); simpl; unfold SpecTable.sign_of_even.
    + now rewrite sign_rem_mod.
    + now rewrite Z.rem_mod_nonneg by lia.
    + now rewrite Z.rem_mod_nonneg by lia.
    + rewrite sign_rem_mod; [reflexivity | apply Z.div_pos; lia].
  - intros settings' E. now rewrite E.
Qed.

Lemma shift_factors_table_witness :
  xFactor (RenderWeave.factors (mkSettings 50 50 0 0 satin 100 0) 3 7)
    = SpecTable.xFactor_spec satin 3 7 /\
  yFactor (RenderWeave.factors (mkSettings 50 50 0 0 satin 100 0) 3 7)
    = SpecTable.yFactor_spec satin 3 7 /\
  (forall settings', pattern settings' = satin ->
     RenderWeave.factors settings' 3 7
     = RenderWeave.factors (mkSettings 50 50 0 0 satin 100 0) 3 7).
Proof.
  apply (shift_factors_table (mkSettings 50 50 0 0 satin 100 0) 3 7); lia.
Defined.

(** ** Displacement *)

(** C2.  The origin of a tile before the scatter is
    [((srcX + horizontalShift * xFactor) % width + width) % width], and the
    same on the other axis; it is the least non-negative residue of the
    shifted origin, so it lies in [[0, width)] (and [[0, height)]) for every
    shift, negative ones included. *)
Theorem displacement_wraps (settings : ProcessorSettings) (width height x y : Z) :
  (0 < width)%Z -> (0 < height)%Z ->
  let srcX := RenderWeave.sx settings x in
  let srcY := RenderWeave.sy settings y in
  let f := getShiftFactors x y (pattern settings) in
  let W := inject_Z width in
  let H := inject_Z height in
  let dX := RenderWeave.destX settings width x y in
  let dY := RenderWeave.destY settings height x y in
  dX = js_rem (js_rem (srcX + horizontalShift settings * xFactor f) W + W) W /\
  dY = js_rem (js_rem (srcY + verticalShift settings * yFactor f) H + H) H /\
  dX == wrap (srcX + horizontalShift settings * xFactor f) W /\
  dY == wrap (srcY + verticalShift settings * yFactor f) H /\
  0 <= dX < W /\ 0 <= dY < H.
Proof.
  intros Hw Hh srcX srcY f W H dX dY.
  assert (HW : 0 < W) by (change 0 with (inject_Z 0); unfold W; now rewrite <- Zlt_Qlt).
  assert (HH : 0 < H) by (change 0 with (inject_Z 0); unfold H; now rewrite <- Zlt_Qlt).
  split; [reflexivity|]. split; [reflexivity|].
  unfold dX, dY, RenderWeave.destX, RenderWeave.destY, RenderWeave.shiftX,
    RenderWeave.shiftY, RenderWeave.factors.
  fold srcX srcY f W H.
  split; [rewrite wrap_Qmod by exact HW; now apply js_wrap_Qmod|].
  split; [rewrite wrap_Qmod by exact HH; now apply js_wrap_Qmod|].
  split; now apply js_wrap_range.
Qed.

Lemma displacement_wraps_witness :
  let s := mkSettings 50 (-70) 30.5 0 twill 100 0 in
  0 <= RenderWeave.destX s 100 1 0 < 100 /\ 0 <= RenderWeave.destY s 100 1 0 < 100.
Proof.
  intros s.
  pose proof (displacement_wraps s 100 100 1 0 eq_refl eq_refl) as P.
  simpl in P. destruct P as (_ & _ & _ & _ & PX & PY). split; assumption.
Defined.

(** ** Scatter *)

Lemma Qltb_lt (a b : Q) : Qltb a b = true <-> a < b.
Proof.
  unfold Qltb. rewrite negb_true_iff, <- not_true_iff_false, Qle_bool_iff.
  split; [apply Qnot_le_lt | apply Qlt_not_le].
Qed.

Lemma Qltb_ge (a b : Q) : Qltb a b = false <-> b <= a.
Proof.
  unfold Qltb. rewrite negb_false_iff. apply Qle_bool_iff.
Qed.

Lemma Qleb_le (a b : Q) : Qleb a b = true <-> a <= b.
Proof. apply Qle_bool_iff. Qed.

Lemma Qleb_gt (a b : Q) : Qleb a b = false <-> b < a.
Proof.
  unfold Qleb. rewrite <- not_true_iff_false, Qle_bool_iff.
  split; [apply Qnot_le_lt | apply Qlt_not_le].
Qed.

Lemma pseudoRandom_range (Math_sin : Q -> Q) (x y seed : Q) :
  0 <= pseudoRandom Math_sin x y seed < 1.
Proof.
  unfold pseudoRandom, Math_floor.
  set (v := Math_sin _ * _).
  pose proof (Qfloor_le v) as L. pose proof (Qlt_floor v) as U.
  rewrite inject_Z_plus in U. change (inject_Z 1) with 1 in U. lra.
Qed.

Lemma tileSize_ge_2 (settings : ProcessorSettings) : 2 <= RenderWeave.tileSize settings.
Proof.
  unfold RenderWeave.tileSize, Math_max. apply Q.le_max_l.
Qed.

Lemma tileSize_as_supplied (settings : ProcessorSettings) :
  2 <= Types.tileSize settings ->
  RenderWeave.tileSize settings == Types.tileSize settings.
Proof.
  intros H. unfold RenderWeave.tileSize, Math_max. now apply Q.max_r.
Qed.

(** A jump by one tile moves the origin when the raster is wider than a tile. *)
Lemma jump_moves (d T m : Q) :
  0 < T -> T < m -> 0 <= d -> ~ js_rem (d + T) m == d.
Proof.
  intros HT Hm Hd E. unfold js_rem in E.
  set (k := Qtrunc ((d + T) / m)) in *.
  assert (ET : T == m * inject_Z k) by lra.
  destruct (Z_lt_le_dec k 1) as [Hk | Hk].
  - assert (Hq : inject_Z k <= 0).
    { change 0 with (inject_Z 0). rewrite <- Zle_Qle. lia. }
    assert (m * inject_Z k <= m * 0) by (apply Qmult_le_l; lra). lra.
  - assert (Hq : 1 <= inject_Z k).
    { change 1 with (inject_Z 1). rewrite <- Zle_Qle. exact Hk. }
    assert (m * 1 <= m * inject_Z k) by (apply Qmult_le_l; lra). lra.
Qed.

(** C3.  The hash of a tile is [frac (sin (col * 12.9898 + row * 78.233 + seed)
    * 43758.5453)] and lies in [[0, 1)].  The tile gets one more jump exactly
    when [hash < scatterIntensity / 100]: to the right when
    [(hash * 10) % 2 < 1], which replaces [destX] by [(destX + tileSize) %
    width] and keeps [destY], down otherwise, which replaces [destY] by
    [(destY + tileSize) % height] and keeps [destX]; never both.  With
    [scatterIntensity = 100] every tile jumps, and the jump moves the origin
    whenever the raster is larger than a tile on that axis.  [tileSize] is
    the tile size the engine works with, the configured one when that is at
    least 2. *)
Theorem scatter_rule (Math_sin : Q -> Q) (settings : ProcessorSettings)
    (width height x y : Z) :
  let hash := RenderWeave.hash Math_sin settings x y in
  let threshold := scatterIntensity settings / 100 in
  let T := RenderWeave.tileSize settings in
  let W := inject_Z width in
  let H := inject_Z height in
  let dX := RenderWeave.destX settings width x y in
  let dY := RenderWeave.destY settings height x y in
  let fX := RenderWeave.finalDestX Math_sin settings width x y in
  let fY := RenderWeave.finalDestY Math_sin settings height x y in
  hash = (let v := Math_sin (inject_Z x * 12.9898 + inject_Z y * 78.233
                             + seed settings) * 43758.5453 in
          v - inject_Z (Qfloor v)) /\
  0 <= hash < 1 /\
  ((hash < threshold /\ js_rem (hash * 10) 2 < 1 /\
    fX = js_rem (dX + T) W /\ fY = dY) \/
   (hash < threshold /\ ~ js_rem (hash * 10) 2 < 1 /\
    fX = dX /\ fY = js_rem (dY + T) H) \/
   (~ hash < threshold /\ fX = dX /\ fY = dY)) /\
  (scatterIntensity settings == 100 ->
   (fX = js_rem (dX + T) W /\ fY = dY) \/
   (fX = dX /\ fY = js_rem (dY + T) H)) /\
  (0 < W -> T < W -> ~ js_rem (dX + T) W == dX) /\
  (0 < H -> T < H -> ~ js_rem (dY + T) H == dY) /\
  (2 <= Types.tileSize settings -> T == Types.tileSize settings).
Proof.
  intros hash threshold T W H dX dY fX fY.
  assert (R : 0 <= hash < 1) by apply pseudoRandom_range.
  assert (Cases :
    (hash < threshold /\ js_rem (hash * 10) 2 < 1 /\
     fX = js_rem (dX + T) W /\ fY = dY) \/
    (hash < threshold /\ ~ js_rem (hash * 10) 2 < 1 /\
     fX = dX /\ fY = js_rem (dY + T) H) \/
    (~ hash < threshold /\ fX = dX /\ fY = dY)).
  { unfold fX, fY, RenderWeave.finalDestX, RenderWeave.finalDestY,
      RenderWeave.swapDirection, RenderWeave.threshold.
    fold hash threshold T W H dX dY.
    destruct (Qltb hash threshold) eqn:Eh.
    - apply Qltb_lt in Eh.
      destruct (Qltb (js_rem (hash * 10) 2) 1) eqn:Ed.
      + apply Qltb_lt in Ed. left. repeat split; assumption.
      + apply Qltb_ge in Ed. right; left. repeat split; try assumption.
        now apply Qle_not_lt.
    - apply Qltb_ge in Eh. right; right. repeat split. now apply Qle_not_lt. }
  split; [reflexivity|]. split; [exact R|]. split; [exact Cases|].
  assert (HT : 2 <= T) by apply tileSize_ge_2.
  split; [|split; [|split]].
  - intros E100.
    assert (Hlt : hash < threshold).
    { unfold threshold. rewrite E100. setoid_replace (100 / 100) with 1 by reflexivity. apply R. }
    destruct Cases as [(_ & _ & C) | [(_ & _ & C) | (N & _)]];
      [left; exact C | right; exact C | contradiction].
  - intros HW HTW. apply jump_moves; try lra.
    pose proof (js_wrap_range (RenderWeave.sx settings x + RenderWeave.shiftX settings x y) W HW) as B.
    apply B.
  - intros HH HTH. apply jump_moves; try lra.
    pose proof (js_wrap_range (RenderWeave.sy settings y + RenderWeave.shiftY settings x y) H HH) as B.
    apply B.
  - apply tileSize_as_supplied.
Qed.

Lemma scatter_rule_witness :
  let sin := fun _ : Q => 0.5 in
  let s := mkSettings 50 50 0 100 plain 100 7 in
  (RenderWeave.finalDestX sin s 100 1 1
   = js_rem (RenderWeave.destX s 100 1 1 + RenderWeave.tileSize s) 100 /\
   RenderWeave.finalDestY sin s 100 1 1 = RenderWeave.destY s 100 1 1) \/
  (RenderWeave.finalDestX sin s 100 1 1 = RenderWeave.destX s 100 1 1 /\
   RenderWeave.finalDestY sin s 100 1 1
   = js_rem (RenderWeave.destY s 100 1 1 + RenderWeave.tileSize s) 100).
Proof.
  intros sin s.
  destruct (scatter_rule sin s 100 100 1 1) as (_ & _ & _ & P & _).
  apply P. reflexivity.
Defined.

(** X5.  After the wrap and the scatter the origin at which a tile is drawn
    is still inside the image, on both axes, for every tile index and every
    configuration. *)
Lemma finalDest_range (Math_sin : Q -> Q) (settings : ProcessorSettings)
    (width height x y : Z) :
  (0 < width)%Z -> (0 < height)%Z ->
  0 <= RenderWeave.finalDestX Math_sin settings width x y < inject_Z width /\
  0 <= RenderWeave.finalDestY Math_sin settings height x y < inject_Z height.
Proof.
  intros Hw Hh.
  assert (HW : 0 < inject_Z width) by (change 0 with (inject_Z 0); now rewrite <- Zlt_Qlt).
  assert (HH : 0 < inject_Z height) by (change 0 with (inject_Z 0); now rewrite <- Zlt_Qlt).
  pose proof (js_wrap_range (RenderWeave.sx settings x + RenderWeave.shiftX settings x y)
                (inject_Z width) HW) as BX.
  pose proof (js_wrap_range (RenderWeave.sy settings y + RenderWeave.shiftY settings x y)
                (inject_Z height) HH) as BY.
  fold (RenderWeave.destX settings width x y) in BX.
  fold (RenderWeave.destY settings height x y) in BY.
  pose proof (tileSize_ge_2 settings) as HT.
  unfold RenderWeave.finalDestX, RenderWeave.finalDestY.
  destruct (Qltb _ _); [destruct (RenderWeave.swapDirection _ _ _ _)|];
    split; try assumption; apply js_rem_nonneg; lra.
Qed.

Lemma finalDest_range_witness :
  let s := mkSettings 50 80 (-30) 100 twill 100 7 in
  0 <= RenderWeave.finalDestX (fun _ => 0.25) s 100 1 1 < 100 /\
  0 <= RenderWeave.finalDestY (fun _ => 0.25) s 60 1 1 < 60.
Proof.
  intros s.
  apply (finalDest_range (fun _ => 0.25) s 100 60 1 1); lia.
Defined.

(** The scenario of the specification: a 100 by 100 raster, tiles of 50,
    the plain pattern, a horizontal shift of 50 and nothing else.  The two
    tiles of each row change places. *)
Example scenario_tiles :
  RenderWeave.tiles (mkSettings 50 50 0 0 plain 100 0) 100 100
  = [ (0, 0); (1, 0); (0, 1); (1, 1) ]%Z.
Proof. reflexivity. Qed.

Example scenario_destinations :
  let s := mkSettings 50 50 0 0 plain 100 0 in
  (RenderWeave.destX s 100 0 0 == 50 /\ RenderWeave.destY s 100 0 0 == 0) /\
  (RenderWeave.destX s 100 1 0 == 0 /\ RenderWeave.destY s 100 1 0 == 0) /\
  (RenderWeave.destX s 100 0 1 == 50 /\ RenderWeave.destY s 100 0 1 == 50) /\
  (RenderWeave.destX s 100 1 1 == 0 /\ RenderWeave.destY s 100 1 1 == 50).
Proof. repeat split; reflexivity. Qed.

Example js_rem_signs :
  js_rem (-1) 4 == -1 /\ js_rem 5.5 4 == 1.5 /\ js_rem (-5.5) 4 == -1.5 /\
  js_rem (js_rem (-5.5) 4 + 4) 4 == 2.5.
Proof. repeat split; reflexivity. Qed.

(** ** Binary64 *)

Import Binary64.

(** Case analysis on an absolute value, for [lra]. *)
Ltac qabs t :=
  let Hs := fresh "Hs" in let Ha := fresh "Ha" in let v := fresh "v" in
  destruct (Qlt_le_dec t 0) as [Hs | Hs];
  [ pose proof (Qabs_neg t (Qlt_le_weak _ _ Hs)) as Ha
  | pose proof (Qabs_pos t Hs) as Ha ];
  set (v := Qabs t) in *; clearbody v.

Lemma pow2_pos (k : Z) : 0 < pow2 k.
Proof. apply Qpower_0_lt. reflexivity. Qed.

Lemma pow2_add (a b : Z) : pow2 (a + b) == pow2 a * pow2 b.
Proof. apply Qpower_plus. discriminate. Qed.

Lemma pow2_Z (k : Z) : (0 <= k)%Z -> pow2 k == inject_Z (2 ^ k).
Proof. intros H. unfold pow2. now rewrite Zpower_Qpower. Qed.

Lemma pow2_ge_1 (k : Z) : (0 <= k)%Z -> 1 <= pow2 k.
Proof.
  intros H. rewrite pow2_Z by assumption. change 1 with (inject_Z 1).
  rewrite <- Zle_Qle. pose proof (Z.pow_pos_nonneg 2 k). lia.
Qed.

Lemma pow2_le (a b : Z) : (a <= b)%Z -> pow2 a <= pow2 b.
Proof.
  intros H. replace b with (a + (b - a))%Z by lia. rewrite pow2_add.
  pose proof (pow2_pos a). pose proof (pow2_ge_1 (b - a) ltac:(lia)).
  set (p := pow2 a) in *. set (r := pow2 (b - a)) in *. clearbody p r. nra.
Qed.

Lemma pow2_succ (a : Z) : pow2 (a + 1) == 2 * pow2 a.
Proof. rewrite pow2_add. change (pow2 1) with 2. ring. Qed.

Lemma pow2_lt (a b : Z) : (a < b)%Z -> pow2 a < pow2 b.
Proof.
  intros H. apply Qlt_le_trans with (pow2 (a + 1)).
  - rewrite pow2_succ. pose proof (pow2_pos a). lra.
  - apply pow2_le. lia.
Qed.

Lemma pow2_lt_inv (a b : Z) : pow2 a < pow2 b -> (a < b)%Z.
Proof.
  intros H. destruct (Z_lt_le_dec a b) as [L | L]; [exact L|].
  apply pow2_le in L. lra.
Qed.

Lemma pow2_le_inv (a b : Z) : pow2 a <= pow2 b -> (a <= b)%Z.
Proof.
  intros H. destruct (Z_le_gt_dec a b) as [L | L]; [exact L|].
  apply Z.gt_lt, pow2_lt in L. lra.
Qed.

(** The exponent. *)

Lemma Qabs_frac (x : Q) : Qabs x == inject_Z (Z.abs (Qnum x)) / inject_Z (Zpos (Qden x)).
Proof.
  destruct x as [n d]. unfold Qabs. cbn [Qnum Qden].
  rewrite (Qmake_Qdiv (Z.abs n) d). reflexivity.
Qed.

Lemma exponent_spec (x : Q) :
  ~ x == 0 -> pow2 (exponent x) <= Qabs x /\ Qabs x < pow2 (exponent x + 1).
Proof.
  intros Hx.
  assert (Hn : (0 < Z.abs (Qnum x))%Z).
  { destruct x as [n d]. unfold Qeq in Hx. cbn in *. lia. }
  set (n := Z.abs (Qnum x)) in *. set (d := Zpos (Qden x)).
  assert (Hd : (0 < d)%Z) by (unfold d; lia).
  destruct (Z.log2_spec n Hn) as [N1 N2]. destruct (Z.log2_spec d Hd) as [D1 D2].
  pose proof (Z.log2_nonneg n) as Ln. pose proof (Z.log2_nonneg d) as Ld.
  assert (E : Qabs x == inject_Z n / inject_Z d) by apply Qabs_frac.
  assert (P : pow2 (Z.log2 n - Z.log2 d) * pow2 (Z.log2 d) == pow2 (Z.log2 n)).
  { rewrite <- pow2_add. now replace (Z.log2 n - Z.log2 d + Z.log2 d)%Z with (Z.log2 n) by lia. }
  rewrite (pow2_Z (Z.log2 n)), (pow2_Z (Z.log2 d)) in P by assumption.
  rewrite Z.pow_succ_r in N2, D2 by assumption.
  rewrite Zle_Qle in N1, D1. rewrite Zlt_Qlt in N2, D2, Hd.
  rewrite inject_Z_mult in N2, D2. change (inject_Z 2) with 2 in *. change (inject_Z 0) with 0 in Hd.
  set (N := inject_Z n) in *. set (D := inject_Z d) in *.
  set (PN := inject_Z (2 ^ Z.log2 n)) in *. set (PD := inject_Z (2 ^ Z.log2 d)) in *.
  assert (HPD : 0 < PD) by (unfold PD; change 0 with (inject_Z 0); rewrite <- Zlt_Qlt; apply Z.pow_pos_nonneg; lia).
  pose proof (pow2_pos (Z.log2 n - Z.log2 d)) as He0.
  assert (A : Qabs x * D == N) by (rewrite E; field; lra).
  assert (Up : Qabs x < pow2 (Z.log2 n - Z.log2 d + 1)).
  { rewrite pow2_succ. set (p := pow2 (Z.log2 n - Z.log2 d)) in *.
    pose proof (Qabs_nonneg x). set (a := Qabs x) in *. clearbody a p N D PN PD. nra. }
  assert (Lo : pow2 (Z.log2 n - Z.log2 d - 1) <= Qabs x).
  { assert (S : pow2 (Z.log2 n - Z.log2 d) == 2 * pow2 (Z.log2 n - Z.log2 d - 1)).
    { rewrite <- pow2_succ. now replace (Z.log2 n - Z.log2 d - 1 + 1)%Z with (Z.log2 n - Z.log2 d)%Z by lia. }
    pose proof (pow2_pos (Z.log2 n - Z.log2 d - 1)).
    set (p := pow2 (Z.log2 n - Z.log2 d)) in *. set (p' := pow2 (Z.log2 n - Z.log2 d - 1)) in *.
    pose proof (Qabs_nonneg x). set (a := Qabs x) in *. clearbody a p p' N D PN PD. nra. }
  unfold exponent. fold n. fold d.
  destruct (Qle_bool (pow2 (Z.log2 n - Z.log2 d)) (Qabs x)) eqn:T.
  - apply Qle_bool_iff in T. split; assumption.
  - split; [exact Lo|].
    replace (Z.log2 n - Z.log2 d - 1 + 1)%Z with (Z.log2 n - Z.log2 d)%Z by lia.
    apply Qnot_le_lt. intros C. apply Qle_bool_iff in C. congruence.
Qed.

Lemma exponent_unique (x : Q) (e : Z) :
  pow2 e <= Qabs x -> Qabs x < pow2 (e + 1) -> exponent x = e.
Proof.
  intros L U.
  assert (Hx : ~ x == 0).
  { intros E. rewrite E in L. pose proof (pow2_pos e). change (Qabs 0) with 0 in L. lra. }
  destruct (exponent_spec x Hx) as [L' U'].
  assert (A : (e < exponent x + 1)%Z) by (apply pow2_lt_inv; lra).
  assert (B : (exponent x < e + 1)%Z) by (apply pow2_lt_inv; lra).
  lia.
Qed.

Lemma exponent_comp (x y : Q) : x == y -> ~ x == 0 -> exponent x = exponent y.
Proof.
  intros E Hx. symmetry. apply exponent_unique; rewrite <- E; now apply exponent_spec.
Qed.

(** Rounding to the nearest integer, halves to the even one. *)

#[global] Instance roundEven_comp : Proper (Qeq ==> eq) roundEven.
Proof.
  intros y y' E. unfold roundEven. rewrite (Qfloor_comp _ _ E).
  assert (C : Qcompare (y - inject_Z (Qfloor y')) (1 # 2)
              = Qcompare (y' - inject_Z (Qfloor y')) (1 # 2)).
  { apply Qcompare_comp; [now rewrite E | reflexivity]. }
  now rewrite C.
Qed.

Lemma roundEven_cases (y : Q) :
  (roundEven y = Qfloor y /\ y - inject_Z (Qfloor y) <= 1 # 2) \/
  (roundEven y = (Qfloor y + 1)%Z /\ 1 # 2 <= y - inject_Z (Qfloor y)).
Proof.
  unfold roundEven.
  destruct (Qcompare_spec (y - inject_Z (Qfloor y)) (1 # 2)) as [E | L | G].
  - destruct (Z.even (Qfloor y)); [left | right]; split; try reflexivity; rewrite E; apply Qle_refl.
  - left. split; [reflexivity | now apply Qlt_le_weak].
  - right. split; [reflexivity | now apply Qlt_le_weak].
Qed.

Lemma roundEven_nearest (y : Q) (j : Z) :
  Qabs (inject_Z (roundEven y) - y) <= Qabs (inject_Z j - y).
Proof.
  pose proof (Qfloor_le y) as F1. pose proof (Qlt_floor y) as F2.
  rewrite inject_Z_plus in F2. change (inject_Z 1) with 1 in F2.
  assert (J : inject_Z j <= inject_Z (Qfloor y) \/ inject_Z (Qfloor y) + 1 <= inject_Z j).
  { destruct (Z_le_gt_dec j (Qfloor y)) as [L | G].
    - left. now rewrite <- Zle_Qle.
    - right. change 1 with (inject_Z 1). rewrite <- inject_Z_plus, <- Zle_Qle. lia. }
  destruct (roundEven_cases y) as [[-> R] | [-> R]].
  - qabs (inject_Z (Qfloor y) - y); qabs (inject_Z j - y); destruct J; lra.
  - rewrite inject_Z_plus. change (inject_Z 1) with 1.
    qabs (inject_Z (Qfloor y) + 1 - y); qabs (inject_Z j - y); destruct J; lra.
Qed.

Lemma roundEven_half (y : Q) : Qabs (inject_Z (roundEven y) - y) <= 1 # 2.
Proof.
  pose proof (Qfloor_le y) as F1. pose proof (Qlt_floor y) as F2.
  rewrite inject_Z_plus in F2. change (inject_Z 1) with 1 in F2.
  destruct (roundEven_cases y) as [[-> R] | [-> R]].
  - qabs (inject_Z (Qfloor y) - y); lra.
  - rewrite inject_Z_plus. change (inject_Z 1) with 1.
    qabs (inject_Z (Qfloor y) + 1 - y); lra.
Qed.

Lemma roundEven_Z (k : Z) : roundEven (inject_Z k) = k.
Proof.
  pose proof (roundEven_nearest (inject_Z k) k) as H.
  setoid_replace (inject_Z k - inject_Z k) with 0 in H by ring.
  change (Qabs 0) with 0 in H.
  assert (E : inject_Z (roundEven (inject_Z k)) == inject_Z k).
  { qabs (inject_Z (roundEven (inject_Z k)) - inject_Z k); lra. }
  now rewrite inject_Z_injective in E.
Qed.

(** Rounding to binary64. *)

Lemma round64_eq (x : Q) :
  round64 x == inject_Z (roundEven (x / pow2 (quantum x))) * pow2 (quantum x).
Proof. apply Qred_correct. Qed.

Lemma round64_multiple (x : Q) : multiple (pow2 (quantum x)) (round64 x).
Proof. eexists. apply round64_eq. Qed.

Lemma round64_zero (x : Q) : x == 0 -> round64 x == 0.
Proof.
  intros E. rewrite round64_eq.
  assert (Z0 : forall p, x / p == inject_Z 0).
  { intros p. rewrite E. change (inject_Z 0) with 0. unfold Qdiv. ring. }
  rewrite (Z0 (pow2 (quantum x))), roundEven_Z. change (inject_Z 0) with 0. ring.
Qed.

Lemma quantum_comp (x y : Q) : x == y -> ~ x == 0 -> quantum x = quantum y.
Proof. intros E Hx. unfold quantum. now rewrite (exponent_comp x y E Hx). Qed.

#[global] Instance round64_comp : Proper (Qeq ==> Qeq) round64.
Proof.
  intros x y E. destruct (Qeq_dec x 0) as [Z0 | Hx].
  - rewrite (round64_zero x Z0), (round64_zero y); [reflexivity | now rewrite <- E].
  - rewrite !round64_eq, <- (quantum_comp x y E Hx).
    generalize (quantum x) as q. intros q. now rewrite E.
Qed.

Lemma round64_canonical (x y : Q) : x == y -> round64 x = round64 y.
Proof.
  intros E. unfold round64. apply Qred_complete.
  rewrite <- !round64_eq. now apply round64_comp.
Qed.

Lemma multiple_double (x : Q) : multiple (pow2 (quantum x)) x -> double x.
Proof.
  intros [j E]. unfold double. rewrite round64_eq.
  assert (D : x / pow2 (quantum x) == inject_Z j).
  { pose proof (pow2_pos (quantum x)). rewrite E at 1. field. lra. }
  rewrite D, roundEven_Z. now symmetry.
Qed.

Lemma double_multiple (f : Q) : double f -> multiple (pow2 (quantum f)) f.
Proof.
  intros D. destruct (round64_multiple f) as [j E]. exists j.
  unfold double in D. apply Qeq_trans with (round64 f); [now symmetry | exact E].
Qed.

Lemma multiple_down (qf q : Z) (f : Q) :
  (q <= qf)%Z -> multiple (pow2 qf) f -> multiple (pow2 q) f.
Proof.
  intros L [j E]. exists (j * 2 ^ (qf - q))%Z.
  rewrite E, inject_Z_mult, <- pow2_Z by lia.
  replace qf with (qf - q + q)%Z at 1 by lia. rewrite pow2_add. ring.
Qed.

Lemma nearest_multiple (x : Q) (j : Z) :
  Qabs (round64 x - x) <= Qabs (inject_Z j * pow2 (quantum x) - x).
Proof.
  pose proof (pow2_pos (quantum x)) as U. rewrite round64_eq.
  set (u := pow2 (quantum x)) in *.
  setoid_replace (inject_Z (roundEven (x / u)) * u - x)
    with ((inject_Z (roundEven (x / u)) - x / u) * u) by (field; lra).
  setoid_replace (inject_Z j * u - x) with ((inject_Z j - x / u) * u) by (field; lra).
  rewrite !Qabs_Qmult, (Qabs_pos u) by lra.
  apply Qmult_le_compat_r; [apply roundEven_nearest | lra].
Qed.

(** The rounded value is a nearest double. *)
Lemma round64_nearest (x f : Q) : double f -> Qabs (round64 x - x) <= Qabs (f - x).
Proof.
  intros D.
  destruct (Qeq_dec x 0) as [Z0 | Hx].
  { rewrite (round64_zero x Z0), Z0. change (Qabs (0 - 0)) with 0. apply Qabs_nonneg. }
  destruct (Qeq_dec f 0) as [F0 | Hf].
  { pose proof (nearest_multiple x 0) as N. change (inject_Z 0) with 0 in N.
    setoid_replace (0 * pow2 (quantum x) - x) with (f - x) in N by (rewrite F0; ring).
    exact N. }
  destruct (Z_le_gt_dec (quantum x) (quantum f)) as [L | G].
  { destruct (multiple_down _ _ f L (double_multiple f D)) as [j E].
    rewrite E. apply nearest_multiple. }
  destruct (exponent_spec x Hx) as [X1 X2]. destruct (exponent_spec f Hf) as [F1 F2].
  unfold quantum in G.
  assert (Q1 : quantum x = (exponent x - 52)%Z) by (unfold quantum; lia).
  assert (F3 : Qabs f < pow2 (exponent x)).
  { apply Qlt_le_trans with (pow2 (exponent f + 1)); [exact F2 | apply pow2_le; lia]. }
  assert (P : pow2 (exponent x) == inject_Z (2 ^ 52) * pow2 (quantum x)).
  { rewrite Q1, <- pow2_Z by lia. rewrite <- pow2_add. now replace (52 + (exponent x - 52))%Z with (exponent x) by lia. }
  pose proof (nearest_multiple x (2 ^ 52)) as N1.
  pose proof (nearest_multiple x (- 2 ^ 52)) as N2.
  rewrite inject_Z_opp in N2.
  setoid_replace (- inject_Z (2 ^ 52) * pow2 (quantum x) - x) with (- pow2 (exponent x) - x) in N2
    by (rewrite P; ring).
  rewrite <- P in N1.
  set (p := pow2 (exponent x)) in *. clearbody p.
  set (r := Qabs (round64 x - x)) in *. clearbody r.
  qabs x; qabs f; qabs (f - x); qabs (p - x); qabs (- p - x); lra.
Qed.

(** Rounding twice is rounding once. *)
Lemma round64_double (x : Q) : double (round64 x).
Proof.
  destruct (Qeq_dec (round64 x) 0) as [R0 | Hr].
  { unfold double. now rewrite (round64_zero _ R0). }
  assert (Hx : ~ x == 0) by (intros E; apply Hr; now apply round64_zero).
  destruct (exponent_spec x Hx) as [X1 X2].
  destruct (exponent_spec _ Hr) as [R1 R2].
  set (q := quantum x).
  pose proof (pow2_pos q) as U.
  assert (B : pow2 (exponent x + 1) <= inject_Z (2 ^ 53) * pow2 q).
  { rewrite <- pow2_Z, <- pow2_add by lia. apply pow2_le. unfold q, quantum. lia. }
  pose proof (nearest_multiple x (2 ^ 53)) as N1.
  pose proof (nearest_multiple x (- 2 ^ 53)) as N2.
  fold q in N1, N2. rewrite inject_Z_opp in N2.
  assert (Rb : Qabs (round64 x) <= pow2 (q + 53)).
  { rewrite pow2_add, (pow2_Z 53) by lia.
    set (p := inject_Z (2 ^ 53) * pow2 q) in *.
    setoid_replace (- inject_Z (2 ^ 53) * pow2 q) with (- p) in N2 by (unfold p; ring).
    setoid_replace (pow2 q * inject_Z (2 ^ 53)) with p by (unfold p; ring).
    clearbody p. set (r := round64 x) in *. clearbody r.
    clear R1 R2 Hr.
    qabs x; qabs (r - x); qabs (p - x); qabs (- p - x); qabs r; lra. }
  assert (Er : (exponent (round64 x) <= q + 53)%Z) by (apply pow2_le_inv; lra).
  assert (Hq : (-1074 <= q)%Z) by (unfold q, quantum; lia).
  apply multiple_double.
  destruct (Z_le_gt_dec (exponent (round64 x)) (q + 52)) as [L | G].
  - apply (multiple_down q); [unfold quantum; lia|].
    apply round64_multiple.
  - assert (Ee : exponent (round64 x) = (q + 53)%Z) by lia.
    assert (Eq' : quantum (round64 x) = (q + 1)%Z) by (unfold quantum; rewrite Ee; lia).
    rewrite Eq'. rewrite Ee in R1.
    assert (S : pow2 (q + 53) == inject_Z (2 ^ 52) * pow2 (q + 1)).
    { rewrite <- pow2_Z, <- pow2_add by lia. now replace (52 + (q + 1))%Z with (q + 53)%Z by lia. }
    destruct (Qlt_le_dec (round64 x) 0) as [Neg | Pos].
    + exists (- 2 ^ 52)%Z. rewrite inject_Z_opp.
      rewrite (Qabs_neg (round64 x)) in R1, Rb by lra.
      set (r := round64 x) in *. clearbody r. rewrite S in *.
      set (p := inject_Z (2 ^ 52) * pow2 (q + 1)) in *.
      setoid_replace (- inject_Z (2 ^ 52) * pow2 (q + 1)) with (- p) by (unfold p; ring).
      clearbody p. lra.
    + exists (2 ^ 52)%Z.
      rewrite (Qabs_pos (round64 x)) in R1, Rb by lra.
      set (r := round64 x) in *. clearbody r. rewrite S in *. lra.
Qed.

(** The rounding error: half a quantum. *)
Lemma round64_error (x : Q) :
  Qabs (round64 x - x) <= pow2 (-53) * Qabs x + pow2 (-1075).
Proof.
  pose proof (Qabs_nonneg x) as A.
  pose proof (pow2_pos (-53)) as P53. pose proof (pow2_pos (-1075)) as P1075.
  destruct (Qeq_dec x 0) as [Z0 | Hx].
  { rewrite (round64_zero x Z0), Z0. change (Qabs (0 - 0)) with 0. change (Qabs 0) with 0. lra. }
  destruct (exponent_spec x Hx) as [X1 _].
  pose proof (pow2_pos (quantum x)) as U.
  assert (H : Qabs (round64 x - x) <= (1 # 2) * pow2 (quantum x)).
  { rewrite round64_eq.
    setoid_replace (inject_Z (roundEven (x / pow2 (quantum x))) * pow2 (quantum x) - x)
      with ((inject_Z (roundEven (x / pow2 (quantum x))) - x / pow2 (quantum x)) * pow2 (quantum x))
      by (field; lra).
    rewrite Qabs_Qmult, (Qabs_pos (pow2 (quantum x))) by lra.
    apply Qmult_le_compat_r; [apply roundEven_half | lra]. }
  apply Qle_trans with (1 := H).
  unfold quantum. destruct (Z.max_spec (exponent x - 52) (-1074)) as [[_ ->] | [_ ->]].
  - setoid_replace ((1 # 2) * pow2 (-1074)) with (pow2 (-1075)) by reflexivity.
    set (a := Qabs x) in *. clearbody a. nra.
  - assert (E : (1 # 2) * pow2 (exponent x - 52) == pow2 (-53) * pow2 (exponent x)).
    { replace (exponent x - 52)%Z with (-52 + exponent x)%Z by lia. rewrite pow2_add.
      setoid_replace (pow2 (-53)) with ((1 # 2) * pow2 (-52)) by reflexivity. ring. }
    rewrite E. set (a := Qabs x) in *. set (p := pow2 (exponent x)) in *.
    set (c := pow2 (-53)) in *. clearbody a p c. nra.
Qed.

Lemma double_0 : double 0.
Proof. vm_compute. reflexivity. Qed.

(** Rounding keeps the sign and at most doubles. *)
Lemma round64_sign (x : Q) :
  (0 <= x -> 0 <= round64 x <= 2 * x) /\ (x <= 0 -> 2 * x <= round64 x <= 0).
Proof.
  pose proof (round64_nearest x 0 double_0) as N.
  set (r := round64 x) in *. clearbody r.
  split; intros H; qabs (r - x); qabs (0 - x); lra.
Qed.

(** ** The interpolator *)

Import PreviewArea.

Lemma t_value : t == 3602879701896397 # 36028797018963968.
Proof. vm_compute. reflexivity. Qed.

(** One step: the new value lies between the old value and the target, on
    the side of the old value, and covers at most nine tenths of the way. *)
Lemma lerp_between (a b : Q) :
  double a ->
  (a <= b -> a <= lerp a b /\ lerp a b - a <= (9 # 10) * (b - a)) /\
  (b <= a -> lerp a b <= a /\ (9 # 10) * (b - a) <= lerp a b - a).
Proof.
  intros Da. unfold lerp, fadd, fmul, fsub.
  pose proof t_value as Et.
  set (d := round64 (b - a)).
  set (m := round64 (d * t)).
  pose proof (round64_sign (b - a)) as [D1 D2]. fold d in D1, D2.
  pose proof (round64_sign (d * t)) as [M1 M2]. fold m in M1, M2.
  pose proof (round64_nearest (a + m) a Da) as N.
  set (r := round64 (a + m)) in *. clearbody r m d.
  set (tt := t) in *. clearbody tt.
  split; intros H.
  - assert (0 <= d <= 2 * (b - a)) as Hd by (apply D1; lra).
    assert (0 <= d * tt) by nra.
    assert (0 <= m <= 2 * (d * tt)) as Hm by (apply M1; lra).
    assert (d * tt <= 2 * (b - a) * tt) by nra.
    qabs (r - (a + m)); qabs (a - (a + m)); split; nra.
  - assert (2 * (b - a) <= d <= 0) as Hd by (apply D2; lra).
    assert (d * tt <= 0) by nra.
    assert (2 * (d * tt) <= m <= 0) as Hm by (apply M2; lra).
    assert (2 * (b - a) * tt <= d * tt) by nra.
    qabs (r - (a + m)); qabs (a - (a + m)); split; nra.
Qed.

(** One step against the exact formula: the rounding of the three
    operations moves the result by at most [2 ^ -52 * |a - b|], a part in
    [2 ^ 53] of the target, and three halves of the smallest subnormal. *)
Lemma lerp_error (a b : Q) :
  Qabs (lerp a b - (a + 0.1 * (b - a)))
  <= pow2 (-52) * Qabs (a - b) + (pow2 (-53) * Qabs b + 3 * pow2 (-1075)).
Proof.
  unfold lerp, fadd, fmul, fsub, t.
  assert (Et : round64 0.1 == 3602879701896397 # 36028797018963968) by (vm_compute; reflexivity).
  set (d := round64 (b - a)).
  assert (Em : round64 (d * round64 0.1)
               = round64 (d * (3602879701896397 # 36028797018963968))).
  { apply round64_canonical. now rewrite Et. }
  rewrite Em. clear Em Et.
  set (m := round64 (d * (3602879701896397 # 36028797018963968))).
  pose proof (round64_sign (b - a)) as [D1 D2]. fold d in D1, D2.
  pose proof (round64_sign (d * (3602879701896397 # 36028797018963968))) as [M1 M2].
  fold m in M1, M2.
  pose proof (round64_error (b - a)) as E1. fold d in E1.
  pose proof (round64_error (d * (3602879701896397 # 36028797018963968))) as E2. fold m in E2.
  pose proof (round64_error (a + m)) as E3.
  set (r := round64 (a + m)) in *. clearbody r m d.
  pose proof (pow2_pos (-1075)) as Heta. set (eta := pow2 (-1075)) in *. clearbody eta.
  assert (U : pow2 (-53) == 1 # 9007199254740992) by reflexivity.
  assert (U2 : pow2 (-52) == 1 # 4503599627370496) by reflexivity.
  rewrite U in *. rewrite U2. clear U U2.
  apply Qabs_Qle_condition in E1, E2, E3.
  pose proof (Qabs_nonneg b) as Hb.
  pose proof (Qle_Qabs b) as Hb1. pose proof (Qle_Qabs (- b)) as Hb2. rewrite Qabs_opp in Hb2.
  destruct (Qlt_le_dec (b - a) 0) as [G | G].
  - assert (2 * (b - a) <= d <= 0) as Hd by (apply D2; lra).
    assert (2 * (d * (3602879701896397 # 36028797018963968)) <= m <= 0) as Hm
      by (apply M2; lra).
    clear D1 D2 M1 M2.
    rewrite (Qabs_neg (b - a)) in E1 by lra.
    rewrite (Qabs_neg (d * (3602879701896397 # 36028797018963968))) in E2 by lra.
    rewrite (Qabs_pos (a - b)) by lra.
    assert (Am : Qabs (a + m) <= Qabs b + (a - b)).
    { apply Qabs_Qle_condition. lra. }
    set (vb := Qabs b) in *. set (vam := Qabs (a + m)) in *. clearbody vb vam.
    apply Qabs_Qle_condition. split; lra.
  - assert (0 <= d <= 2 * (b - a)) as Hd by (apply D1; lra).
    assert (0 <= m <= 2 * (d * (3602879701896397 # 36028797018963968))) as Hm
      by (apply M1; lra).
    clear D1 D2 M1 M2.
    rewrite (Qabs_pos (b - a)) in E1 by lra.
    rewrite (Qabs_pos (d * (3602879701896397 # 36028797018963968))) in E2 by lra.
    rewrite (Qabs_neg (a - b)) by lra.
    assert (Am : Qabs (a + m) <= Qabs b + (b - a)).
    { apply Qabs_Qle_condition. lra. }
    set (vb := Qabs b) in *. set (vam := Qabs (a + m)) in *. clearbody vb vam.
    apply Qabs_Qle_condition. split; lra.
Qed.

(** C6.  One step of the interpolator moves [horizontalShift],
    [verticalShift], [scatterIntensity] and [tileSize] to
    [current + (target - current) * 0.1] as the source computes it, every
    operation rounded to binary64, which is the exact
    [current + 0.1 * (target - current)] up to that rounding; it takes
    [pattern] and [seed] from the target as they are, and leaves [opacity]
    as it was. *)
Theorem interpolate_step (current target : ProcessorSettings) :
  let next := interpolate current target in
  let step := fun a b : Q =>
    Binary64.fadd a (Binary64.fmul (Binary64.fsub b a) (Binary64.round64 0.1)) in
  let rounding := fun a b : Q =>
    Binary64.pow2 (-52) * Qabs (a - b)
    + (Binary64.pow2 (-53) * Qabs b + 3 * Binary64.pow2 (-1075)) in
  (horizontalShift next = step (horizontalShift current) (horizontalShift target) /\
   verticalShift next = step (verticalShift current) (verticalShift target) /\
   scatterIntensity next = step (scatterIntensity current) (scatterIntensity target) /\
   Types.tileSize next = step (Types.tileSize current) (Types.tileSize target)) /\
  (forall field, In field numericFields ->
     Qabs (field next - (field current + 0.1 * (field target - field current)))
     <= rounding (field current) (field target)) /\
  pattern next = pattern target /\
  seed next = seed target /\
  opacity next = opacity current.
Proof.
  intros next step rounding.
  split; [repeat split|].
  split; [|repeat split].
  intros field [<- | [<- | [<- | [<- | []]]]]; apply lerp_error.
Qed.

Lemma interpolate_field (field : ProcessorSettings -> Q) (current target : ProcessorSettings) :
  In field numericFields ->
  field (interpolate current target) = lerp (field current) (field target).
Proof.
  intros [<- | [<- | [<- | [<- | []]]]]; reflexivity.
Qed.

Lemma pow_succ (q : Q) (n : nat) : q ^ Z.of_nat (S n) == q * q ^ Z.of_nat n.
Proof.
  rewrite Nat2Z.inj_succ, <- Z.add_1_l.
  rewrite Qpower_plus' by lia. now rewrite Qpower_1_r.
Qed.

Lemma frames_succ (n : nat) (current target : ProcessorSettings) :
  frames (S n) current target = interpolate (frames n current target) target.
Proof.
  revert current. induction n as [|n IH]; intros current; [reflexivity|].
  change (frames (S (S n)) current target)
    with (frames (S n) (interpolate current target) target).
  rewrite IH. reflexivity.
Qed.

(** Every value the interpolator produces is a value of binary64. *)
Lemma lerp_double (a b : Q) : double (lerp a b).
Proof. apply round64_double. Qed.

Lemma frames_double (field : ProcessorSettings -> Q) (n : nat)
    (current target : ProcessorSettings) :
  In field numericFields -> double (field current) ->
  double (field (frames n current target)).
Proof.
  intros Hf. revert current. induction n as [|n IH]; intros current D; [exact D|].
  cbn [frames]. apply IH. rewrite (interpolate_field _ _ _ Hf). apply lerp_double.
Qed.

(** The frames move toward the target and stay on their side of it. *)
Lemma frames_between (field : ProcessorSettings -> Q) (current target : ProcessorSettings) :
  In field numericFields -> double (field current) ->
  forall n,
    let a := field (frames n current target) in
    let a' := field (frames (S n) current target) in
    let b := field target in
    (field current <= b -> a <= a' /\ a' <= b /\ (field current < b -> a' < b)) /\
    (b <= field current -> b <= a' /\ a' <= a /\ (b < field current -> b < a')).
Proof.
  intros Hf D n. cbv zeta.
  assert (S1 : forall k, field (frames (S k) current target)
                         = lerp (field (frames k current target)) (field target)).
  { intros k. rewrite frames_succ. apply interpolate_field, Hf. }
  assert (Up : field current <= field target ->
               forall k, field (frames k current target) <= field target /\
                         (field current < field target ->
                          field (frames k current target) < field target)).
  { intros H k. induction k as [|k [IH1 IH2]].
    - split; [exact H | auto].
    - rewrite S1.
      destruct (lerp_between (field (frames k current target)) (field target)
                  (frames_double field k current target Hf D)) as [B _].
      specialize (B IH1). split; [lra|]. intros L. specialize (IH2 L). lra. }
  assert (Down : field target <= field current ->
               forall k, field target <= field (frames k current target) /\
                         (field target < field current ->
                          field target < field (frames k current target))).
  { intros H k. induction k as [|k [IH1 IH2]].
    - split; [exact H | auto].
    - rewrite S1.
      destruct (lerp_between (field (frames k current target)) (field target)
                  (frames_double field k current target Hf D)) as [_ B].
      specialize (B IH1). split; [lra|]. intros L. specialize (IH2 L). lra. }
  destruct (lerp_between (field (frames n current target)) (field target)
              (frames_double field n current target Hf D)) as [B1 B2].
  split; intros H.
  - destruct (Up H n) as [U1 U2]. destruct (Up H (S n)) as [V1 V2].
    rewrite S1 in *. specialize (B1 U1). repeat split; first [lra | exact V2].
  - destruct (Down H n) as [U1 U2]. destruct (Down H (S n)) as [V1 V2].
    rewrite S1 in *. specialize (B2 U1). repeat split; first [lra | exact V2].
Qed.

(** Bernoulli's inequality, and the decay of a geometric sequence. *)
Lemma bernoulli (r : Q) (n : nat) :
  1 <= r -> 1 + inject_Z (Z.of_nat n) * (r - 1) <= r ^ Z.of_nat n.
Proof.
  intros Hr. induction n as [|n IH].
  - change (Z.of_nat 0) with 0%Z. change (r ^ 0) with 1. change (inject_Z 0) with 0. lra.
  - rewrite pow_succ, Nat2Z.inj_succ. unfold Z.succ. rewrite inject_Z_plus.
    change (inject_Z 1) with 1.
    assert (0 <= inject_Z (Z.of_nat n)).
    { change 0 with (inject_Z 0). rewrite <- Zle_Qle. lia. }
    set (k := inject_Z (Z.of_nat n)) in *. set (p := r ^ Z.of_nat n) in *.
    clearbody k p.
    assert (0 <= (r - 1) * (p - (1 + k * (r - 1)))) by (apply Qmult_le_0_compat; lra).
    assert (0 <= k * ((r - 1) * (r - 1)))
      by (apply Qmult_le_0_compat; [lra | apply Qmult_le_0_compat; lra]).
    nra.
Qed.

Lemma geometric_small (c eps d : Q) :
  0 < c -> c < 1 -> 0 < eps -> 0 <= d ->
  exists N : nat, forall n, (N <= n)%nat -> c ^ Z.of_nat n * d < eps.
Proof.
  intros Hc0 Hc1 He Hd.
  set (r := / c).
  assert (Hr : c * r == 1) by (unfold r; field; lra).
  assert (Hr1 : 1 < r).
  { assert (0 < r) by (unfold r; now apply Qinv_lt_0_compat). nra. }
  set (N := Z.to_nat (Qceiling (d / (eps * (r - 1))) + 1)).
  exists N. intros n Hn.
  assert (Hp : 0 < c ^ Z.of_nat n) by (now apply Qpower_0_lt).
  assert (E : c ^ Z.of_nat n * r ^ Z.of_nat n == 1).
  { rewrite <- Qmult_power, Hr. apply Qpower_1. }
  pose proof (bernoulli r n ltac:(lra)) as B.
  assert (Hk : d / (eps * (r - 1)) < inject_Z (Z.of_nat n)).
  { apply Qle_lt_trans with (inject_Z (Qceiling (d / (eps * (r - 1))))); [apply Qle_ceiling|].
    rewrite <- Zlt_Qlt.
    assert (0 <= Qceiling (d / (eps * (r - 1))))%Z.
    { change 0%Z with (Qceiling 0). apply Qceiling_resp_le.
      apply Qle_shift_div_l; [nra | lra]. }
    unfold N in Hn. lia. }
  assert (Hk' : d < inject_Z (Z.of_nat n) * (eps * (r - 1))).
  { setoid_replace d with (d / (eps * (r - 1)) * (eps * (r - 1))) at 1 by (field; nra).
    apply Qmult_lt_compat_r; [nra | exact Hk]. }
  set (k := inject_Z (Z.of_nat n)) in *. set (p := c ^ Z.of_nat n) in *.
  set (q := r ^ Z.of_nat n) in *. clearbody k p q.
  (* p q = 1 and q >= 1 + k (r - 1), so p k (r - 1) <= 1 and p d < eps *)
  assert (H1 : p * (1 + k * (r - 1)) <= 1) by nra.
  assert (H2 : p * d < p * (k * (eps * (r - 1)))) by (apply Qmult_lt_l; assumption).
  assert (H3 : p * (k * (r - 1)) * eps <= 1 * eps) by (apply Qmult_le_compat_r; nra).
  lra.
Qed.

(** The distance to the target never grows. *)
Lemma gap_monotone (field : ProcessorSettings -> Q) (current target : ProcessorSettings)
    (n : nat) :
  In field numericFields -> double (field current) ->
  distance field (frames (S n) current target) target
  <= distance field (frames n current target) target.
Proof.
  intros Hf D. unfold distance.
  pose proof (frames_between field current target Hf D) as B. cbv zeta in B.
  set (value := fun k => field (frames k current target)).
  fold (value n). fold (value (S n)).
  destruct (Qlt_le_dec (field target) (field current)) as [L | L].
  - destruct (B n) as [_ [B1 [B2 _]]]; [lra|]. fold (value n) in B2. fold (value (S n)) in B1, B2.
    destruct (B (Nat.pred n)) as [_ [B3 _]]; [lra|].
    assert (Hn : field target <= value n).
    { destruct n as [|n]; [unfold value; cbn [frames]; lra | exact B3]. }
    rewrite !Qabs_pos by lra. lra.
  - destruct (B n) as [[B1 [B2 _]] _]; [lra|]. fold (value n) in B1. fold (value (S n)) in B1, B2.
    destruct (B (Nat.pred n)) as [[_ [B3 _]] _]; [lra|].
    assert (Hn : value n <= field target).
    { destruct n as [|n]; [unfold value; cbn [frames]; lra | exact B3]. }
    rewrite !Qabs_neg by lra. lra.
Qed.

Lemma gap_initial (field : ProcessorSettings -> Q) (current target : ProcessorSettings)
    (n : nat) :
  In field numericFields -> double (field current) ->
  distance field (frames n current target) target <= distance field current target.
Proof.
  intros Hf D. induction n as [|n IH]; [apply Qle_refl|].
  apply Qle_trans with (2 := IH). now apply gap_monotone.
Qed.

(** The gap to the target after one more frame, and after [n] frames. *)
Lemma gap_step (field : ProcessorSettings -> Q) (current target : ProcessorSettings) :
  In field numericFields ->
  Qabs (distance field (interpolate current target) target
        - 0.9 * distance field current target)
  <= pow2 (-52) * distance field current target
     + (pow2 (-53) * Qabs (field target) + 3 * pow2 (-1075)).
Proof.
  intros Hf. unfold distance. rewrite (interpolate_field _ _ _ Hf).
  pose proof (lerp_error (field current) (field target)) as E.
  set (r := lerp (field current) (field target)) in *.
  set (a := field current) in *. set (b := field target) in *.
  rewrite (Qabs_Qminus a b) in E.
  set (bound := pow2 (-52) * Qabs (b - a) + (pow2 (-53) * Qabs b + 3 * pow2 (-1075))) in *.
  rewrite (Qabs_Qminus a b). fold bound. clearbody bound r a b.
  apply Qabs_Qle_condition in E. apply Qabs_Qle_condition.
  qabs (r - b); qabs (b - a); split; lra.
Qed.

Lemma gap_frames (field : ProcessorSettings -> Q) (current target : ProcessorSettings)
    (n : nat) :
  In field numericFields ->
  distance field (frames n current target) target
  <= (0.9 + pow2 (-52)) ^ Z.of_nat n * distance field current target
     + 11 * (pow2 (-53) * Qabs (field target) + 3 * pow2 (-1075)).
Proof.
  intros Hf.
  set (slack := pow2 (-53) * Qabs (field target) + 3 * pow2 (-1075)).
  assert (Hs : 0 <= slack).
  { unfold slack. pose proof (Qabs_nonneg (field target)).
    pose proof (pow2_pos (-53)). pose proof (pow2_pos (-1075)).
    set (v := Qabs (field target)) in *. set (p := pow2 (-53)) in *.
    set (q := pow2 (-1075)) in *. clearbody v p q. nra. }
  assert (U2 : pow2 (-52) == 1 # 4503599627370496) by reflexivity.
  set (c := 0.9 + pow2 (-52)).
  assert (Hc : c == 0.9 + (1 # 4503599627370496)) by (unfold c; now rewrite U2).
  assert (I : forall k,
            distance field (frames k current target) target - 11 * slack
            <= c ^ Z.of_nat k * (distance field current target - 11 * slack)).
  { induction k as [|k IH].
    - change (c ^ Z.of_nat 0) with 1. cbn [frames]. lra.
    - rewrite frames_succ, pow_succ.
      pose proof (gap_step field (frames k current target) target Hf) as G.
      fold slack in G. rewrite U2 in G.
      set (g' := distance field (interpolate (frames k current target) target) target) in *.
      set (g := distance field (frames k current target) target) in *.
      set (g0 := distance field current target) in *.
      set (p := c ^ Z.of_nat k) in *.
      assert (Hg : 0 <= g) by apply Qabs_nonneg.
      clearbody g' g g0 p slack.
      apply Qabs_Qle_condition in G.
      assert (M : c * (g - 11 * slack) <= c * (p * (g0 - 11 * slack))).
      { apply Qmult_le_l; [lra | exact IH]. }
      setoid_replace (c * p * (g0 - 11 * slack)) with (c * (p * (g0 - 11 * slack))) by ring.
      apply Qle_trans with (2 := M). rewrite Hc. lra. }
  specialize (I n).
  assert (Hp : 0 <= c ^ Z.of_nat n * (11 * slack)).
  { apply Qmult_le_0_compat; [|lra]. apply Qlt_le_weak, Qpower_0_lt. lra. }
  fold c.
  setoid_replace (c ^ Z.of_nat n * (distance field current target - 11 * slack))
    with (c ^ Z.of_nat n * distance field current target - c ^ Z.of_nat n * (11 * slack))
    in I by ring.
  lra.
Qed.

(** From 0 toward 20 the horizontal shift stands still from frame 329 on,
    at [20 - 2 ^ -46]: the distance is not zero and does not decrease. *)
Lemma interpolation_stalls :
  let current := mkSettings 40 0 0 0 plain 100 123 in
  let target := mkSettings 40 20 20 0 plain 100 123 in
  let stalled := frames 329 current target in
  horizontalShift stalled == 20 - (1 # 70368744177664) /\
  horizontalShift (interpolate stalled target) == horizontalShift stalled /\
  distance horizontalShift (interpolate stalled target) target
  == distance horizontalShift stalled target /\
  0 < distance horizontalShift stalled target.
Proof.
  cbv zeta.
  set (stalled := frames 329 (mkSettings 40 0 0 0 plain 100 123)
                    (mkSettings 40 20 20 0 plain 100 123)).
  assert (E : horizontalShift stalled = 1407374883553279 # 70368744177664)
    by (vm_compute; reflexivity).
  assert (E' : horizontalShift (interpolate stalled (mkSettings 40 20 20 0 plain 100 123))
               = 1407374883553279 # 70368744177664).
  { cbn [interpolate horizontalShift]. rewrite E. vm_compute. reflexivity. }
  unfold distance. rewrite E', E. cbn [horizontalShift].
  repeat split; vm_compute; reflexivity.
Qed.

(** C9, as the code has it.  With a fixed target, from a value of binary64
    and within magnitudes that cannot overflow, each of the four numeric
    fields moves toward its target frame after frame: every value is a
    value of binary64, the field stays between its previous value and the
    target, so it never overshoots, the distance never increases, and the
    field never equals the target when it started elsewhere.  The distance
    is multiplied by 0.9 a frame up to the rounding of binary64, so after
    [n] frames it is at most [(0.9 + 2 ^ -52) ^ n] times the initial one
    plus eleven times that rounding. *)
Theorem interpolation_approaches (field : ProcessorSettings -> Q)
    (current target : ProcessorSettings) :
  In field numericFields ->
  Binary64.double (field current) ->
  Qabs (field current) <= Binary64.pow2 1022 ->
  Qabs (field target) <= Binary64.pow2 1022 ->
  let value := fun n => field (frames n current target) in
  let gap := fun n => distance field (frames n current target) target in
  let rounding :=
    Binary64.pow2 (-53) * Qabs (field target) + 3 * Binary64.pow2 (-1075) in
  (forall n, Binary64.double (value n)) /\
  (field current <= field target ->
   forall n, value n <= value (S n) /\ value (S n) <= field target) /\
  (field target <= field current ->
   forall n, field target <= value (S n) /\ value (S n) <= value n) /\
  (forall n, gap (S n) <= gap n) /\
  (~ field current == field target -> forall n, ~ value n == field target) /\
  (forall n, Qabs (gap (S n) - 0.9 * gap n) <= Binary64.pow2 (-52) * gap n + rounding) /\
  (forall n, gap n <= (0.9 + Binary64.pow2 (-52)) ^ Z.of_nat n * gap 0%nat + 11 * rounding).
Proof.
  intros Hf D _ _ value gap rounding.
  pose proof (frames_between field current target Hf D) as B. cbv zeta in B.
  split; [intros n; now apply frames_double|].
  split; [|split; [|split; [|split; [|split]]]].
  - intros H n. destruct (B n) as [[B1 [B2 _]] _]; [exact H|]. split; assumption.
  - intros H n. destruct (B n) as [_ [B1 [B2 _]]]; [exact H|]. split; assumption.
  - intros n. unfold gap. now apply gap_monotone.
  - intros Hne n E.
    destruct (Qlt_le_dec (field current) (field target)) as [L | L].
    + destruct n as [|n]; [now apply Hne|].
      destruct (B n) as [[_ [_ B3]] _]; [lra|]. specialize (B3 L). unfold value in E. lra.
    + assert (L' : field target < field current).
      { destruct (Qlt_le_dec (field target) (field current)) as [G | G]; [exact G|].
        exfalso. apply Hne. lra. }
      destruct n as [|n]; [now apply Hne|].
      destruct (B n) as [_ [_ [_ B3]]]; [lra|]. specialize (B3 L'). unfold value in E. lra.
  - intros n. unfold gap. rewrite frames_succ. now apply gap_step.
  - intros n. unfold gap. cbn [frames]. now apply gap_frames.
Qed.

Lemma interpolation_approaches_witness :
  let current := mkSettings 40 0 0 0 plain 100 123 in
  let target := mkSettings 40 20 20 0 plain 100 123 in
  (horizontalShift (frames 3 current target) <= horizontalShift (frames 4 current target) /\
   horizontalShift (frames 4 current target) <= 20) /\
  ~ horizontalShift (frames 400 current target) == 20.
Proof.
  intros current target.
  assert (Hf : In horizontalShift numericFields) by (simpl; auto).
  assert (D : Binary64.double (horizontalShift current)) by (vm_compute; reflexivity).
  assert (R1 : Qabs (horizontalShift current) <= Binary64.pow2 1022)
    by (vm_compute; discriminate).
  assert (R2 : Qabs (horizontalShift target) <= Binary64.pow2 1022)
    by (vm_compute; discriminate).
  destruct (interpolation_approaches horizontalShift current target Hf D R1 R2)
    as (_ & Up & _ & _ & Never & _).
  split.
  - apply (Up ltac:(unfold Qle; simpl; lia) 3%nat).
  - apply Never. simpl. discriminate.
Defined.

(** ** Grid partition *)

(** With [tileSize = 1] the engine does not divide by the configured value:
    it lays out 2 columns on a width of 4, not 4. *)
Lemma grid_as_supplied_fails :
  let s := mkSettings 1 20 20 0 plain 100 123 in
  RenderWeave.cols s 4 <> Math_ceil (4 / Types.tileSize s) /\
  RenderWeave.rows s 6 <> Math_ceil (6 / Types.tileSize s).
Proof. split; vm_compute; discriminate. Qed.

(** C10, as the code has it.  The engine clamps the tile size itself: it
    works with [max (2, settings.tileSize)], the grid is [cols = ceil (width
    / max (2, tileSize))] by [rows = ceil (height / max (2, tileSize))]; a
    configured tile size of at least 2 is used as supplied, a smaller one
    (zero and negative included) is replaced by 2. *)
Theorem grid_partition_clamps (settings : ProcessorSettings) (width height : Z) :
  let T := Math_max 2 (Types.tileSize settings) in
  RenderWeave.tileSize settings = T /\
  2 <= T /\
  RenderWeave.cols settings width = Math_ceil (inject_Z width / T) /\
  RenderWeave.rows settings height = Math_ceil (inject_Z height / T) /\
  (2 <= Types.tileSize settings ->
   RenderWeave.cols settings width = Math_ceil (inject_Z width / Types.tileSize settings) /\
   RenderWeave.rows settings height = Math_ceil (inject_Z height / Types.tileSize settings)) /\
  (Types.tileSize settings <= 2 ->
   RenderWeave.cols settings width = Math_ceil (inject_Z width / 2) /\
   RenderWeave.rows settings height = Math_ceil (inject_Z height / 2)).
Proof.
  intros T.
  split; [reflexivity|]. split; [apply Q.le_max_l|].
  split; [reflexivity|]. split; [reflexivity|].
  unfold RenderWeave.cols, RenderWeave.rows, RenderWeave.tileSize, Math_ceil, Math_max.
  split; intros Hc.
  - split; apply Qceiling_comp; now rewrite (Q.max_r _ _ Hc).
  - split; apply Qceiling_comp; now rewrite (Q.max_l _ _ Hc).
Qed.

Lemma grid_partition_clamps_witness :
  RenderWeave.cols (mkSettings 0 20 20 0 plain 100 123) 5 = 3%Z /\
  RenderWeave.rows (mkSettings 0 20 20 0 plain 100 123) 8 = 4%Z.
Proof.
  destruct (grid_partition_clamps (mkSettings 0 20 20 0 plain 100 123) 5 8)
    as (_ & _ & _ & _ & _ & Low).
  destruct Low as [C R]; [unfold Qle; simpl; lia|].
  rewrite C, R. split; reflexivity.
Defined.

(** ** Comparisons and integers *)

#[global] Instance Qleb_proper : Proper (Qeq ==> Qeq ==> eq) Qleb.
Proof. intros a a' Ea b b' Eb. unfold Qleb. now rewrite Ea, Eb. Qed.

#[global] Instance Qltb_proper : Proper (Qeq ==> Qeq ==> eq) Qltb.
Proof. intros a a' Ea b b' Eb. unfold Qltb. now rewrite Ea, Eb. Qed.

Lemma Qleb_Z (a b : Z) : Qleb (inject_Z a) (inject_Z b) = (a <=? b)%Z.
Proof.
  apply eq_true_iff_eq. rewrite Qleb_le, Z.leb_le, Zle_Qle. tauto.
Qed.

Lemma Qltb_Z (a b : Z) : Qltb (inject_Z a) (inject_Z b) = (a <? b)%Z.
Proof.
  apply eq_true_iff_eq. rewrite Qltb_lt, Z.ltb_lt, Zlt_Qlt. tauto.
Qed.

Lemma inject_Z_sub (a b : Z) : inject_Z a - inject_Z b = inject_Z (a - b).
Proof. unfold Qminus, Z.sub. now rewrite inject_Z_plus, inject_Z_opp. Qed.

Lemma Qmin_Z (a b : Z) : Qmin (inject_Z a) (inject_Z b) == inject_Z (Z.min a b).
Proof.
  destruct (Z.min_spec a b) as [[Hlt ->] | [Hle ->]].
  - apply Q.min_l. rewrite <- Zle_Qle. lia.
  - apply Q.min_r. rewrite <- Zle_Qle. lia.
Qed.

(** ** Rasters *)

Lemma sameRaster_refl (r : Raster) : sameRaster r r.
Proof. repeat split. Qed.

Lemma inBounds_same (r r' : Raster) (px py : Z) :
  rwidth r = rwidth r' -> rheight r = rheight r' ->
  inBounds r px py = inBounds r' px py.
Proof. intros Ew Eh. unfold inBounds. now rewrite Ew, Eh. Qed.

Lemma sameRaster_sym (r r' : Raster) : sameRaster r r' -> sameRaster r' r.
Proof.
  intros (Ew & Eh & Ep). repeat split; auto.
  intros px py Hb. symmetry. apply Ep.
  now rewrite (inBounds_same r r').
Qed.

Lemma sameRaster_trans (r1 r2 r3 : Raster) :
  sameRaster r1 r2 -> sameRaster r2 r3 -> sameRaster r1 r3.
Proof.
  intros (Ew & Eh & Ep) (Ew' & Eh' & Ep'). repeat split; try congruence.
  intros px py Hb. rewrite Ep by exact Hb. apply Ep'.
  now rewrite <- (inBounds_same r1 r2).
Qed.

Lemma sameRaster_getPixel (r r' : Raster) :
  sameRaster r r' -> forall px py, getPixel r px py = getPixel r' px py.
Proof.
  intros (Ew & Eh & Ep) px py. unfold getPixel.
  rewrite <- (inBounds_same r r') by assumption.
  destruct (inBounds r px py) eqn:Hb; [now apply Ep | reflexivity].
Qed.

Lemma sameRaster_pixels (r r' : Raster) : sameRaster r r' -> pixels r = pixels r'.
Proof.
  intros S. unfold pixels. rewrite <- (proj1 S), <- (proj1 (proj2 S)).
  apply map_ext. intros p. now apply sameRaster_getPixel.
Qed.

Lemma resized_dims (c : Raster) (width height : Z) :
  rwidth (setHeight (setWidth c width) height) = width /\
  rheight (setHeight (setWidth c width) height) = height.
Proof.
  unfold setHeight, setWidth.
  destruct (rwidth c =? width)%Z eqn:Ew;
    repeat match goal with
      | |- context [(?a =? ?b)%Z] => destruct (Z.eqb_spec a b)
      end; simpl in *; try apply Z.eqb_eq in Ew; auto.
Qed.

(** After the resize and [clearRect], drawing the image at the origin leaves
    the image. *)
Lemma image_loaded (browser : Browser) (c img : Raster) :
  sameRaster
    (drawImage3 browser
       (clearRect (setHeight (setWidth c (rwidth img)) (rheight img))
                  0 0 (rwidth img) (rheight img))
       img 0 0)
    img.
Proof.
  destruct (resized_dims c (rwidth img) (rheight img)) as [Ew Eh].
  unfold sameRaster. simpl. repeat split; auto.
  intros px py Hb. rewrite !Z.sub_0_r.
  unfold inBounds in *. simpl in *. rewrite Ew, Eh in *. rewrite Hb. reflexivity.
Qed.

Lemma canvas_cleared (c c' : Raster) (width height : Z) :
  sameRaster
    (clearRect (setHeight (setWidth c width) height) 0 0 width height)
    (clearRect (setHeight (setWidth c' width) height) 0 0 width height).
Proof.
  destruct (resized_dims c width height) as [Ew Eh].
  destruct (resized_dims c' width height) as [Ew' Eh'].
  unfold sameRaster. simpl. repeat split; try congruence.
  intros px py Hb. unfold inBounds in Hb. simpl in Hb. rewrite Ew, Eh in Hb.
  simpl. rewrite Hb. reflexivity.
Qed.

(** Drawing depends on the canvas and on the source only through their
    pixels. *)
Lemma copies_same (c c' src src' : Raster) (sx sy w h dx dy : Q) (px py : Z) :
  sameRaster c c' -> sameRaster src src' ->
  copies c src sx sy w h dx dy px py = copies c' src' sx sy w h dx dy px py.
Proof.
  intros (Ew & Eh & _) (Ew' & Eh' & _). unfold copies.
  now rewrite (inBounds_same c c'), Ew', Eh'.
Qed.

Lemma isInteger_true (q : Q) (z : Z) : q == inject_Z z -> isInteger q = true.
Proof.
  intros E. unfold isInteger. apply Qeq_bool_iff.
  rewrite (Qfloor_comp _ _ E), Qfloor_Z. now symmetry.
Qed.

Lemma isInteger_floor (q : Q) : isInteger q = true -> q == inject_Z (Qfloor q).
Proof. intros H. unfold isInteger in H. apply Qeq_bool_iff in H. now symmetry. Qed.

(** A pixel drawn on with integral numbers takes its source inside [src]. *)
Lemma copies_source (c src : Raster) (sx sy w h dx dy : Q) (px py : Z) :
  aligned sx sy w h dx dy = true ->
  copies c src sx sy w h dx dy px py = true ->
  inBounds src (fst (srcPixel sx sy dx dy px py)) (snd (srcPixel sx sy dx dy px py)) = true.
Proof.
  unfold aligned, copies, touches. rewrite !andb_true_iff, !Qltb_lt.
  intros (((((Isx & Isy) & _) & _) & Idx) & Idy) (_ & (((X0 & X1) & Y0) & Y1)).
  apply isInteger_floor in Isx, Isy, Idx, Idy.
  unfold srcPixel, Math_floor. cbn [fst snd].
  set (a := Qfloor sx) in *. set (b := Qfloor sy) in *.
  set (u := Qfloor dx) in *. set (v := Qfloor dy) in *.
  assert (Ex : sx + (inject_Z px - dx) == inject_Z (a + (px - u))).
  { rewrite Isx, Idx, inject_Z_plus, <- inject_Z_sub. reflexivity. }
  assert (Ey : sy + (inject_Z py - dy) == inject_Z (b + (py - v))).
  { rewrite Isy, Idy, inject_Z_plus, <- inject_Z_sub. reflexivity. }
  rewrite (Qfloor_comp _ _ Ex), (Qfloor_comp _ _ Ey), !Qfloor_Z.
  pose proof (Q.le_max_r dx (dx - sx)) as M1. pose proof (Q.le_max_r dy (dy - sy)) as M2.
  pose proof (Q.le_min_r (dx + w) (dx - sx + inject_Z (rwidth src))) as M3.
  pose proof (Q.le_min_r (dy + h) (dy - sy + inject_Z (rheight src))) as M4.
  assert (A1 : inject_Z (u - a) < inject_Z (px + 1)).
  { rewrite <- inject_Z_sub, inject_Z_plus. change (inject_Z 1) with 1. rewrite <- Idx, <- Isx. lra. }
  assert (A2 : inject_Z px < inject_Z (u - a + rwidth src)).
  { rewrite inject_Z_plus, <- inject_Z_sub. rewrite <- Idx, <- Isx. lra. }
  assert (A3 : inject_Z (v - b) < inject_Z (py + 1)).
  { rewrite <- inject_Z_sub, inject_Z_plus. change (inject_Z 1) with 1. rewrite <- Idy, <- Isy. lra. }
  assert (A4 : inject_Z py < inject_Z (v - b + rheight src)).
  { rewrite inject_Z_plus, <- inject_Z_sub. rewrite <- Idy, <- Isy. lra. }
  rewrite <- Zlt_Qlt in A1, A2, A3, A4.
  unfold inBounds. lia.
Qed.

Lemma drawImage9_same (browser : Browser) (c c' src src' : Raster) (sx sy w h dx dy : Q) :
  sameRaster c c' -> sameRaster src src' ->
  sameRaster (drawImage9 browser c src sx sy w h dx dy)
             (drawImage9 browser c' src' sx sy w h dx dy).
Proof.
  intros Sc Ss.
  pose proof (fun px py => copies_same c c' src src' sx sy w h dx dy px py Sc Ss) as Ec.
  pose proof (sameRaster_pixels src src' Ss) as Px.
  destruct Sc as (Ew & Eh & Ep). destruct Ss as (Ew' & Eh' & Ep').
  unfold sameRaster, drawImage9. cbn [rwidth rheight rpix]. repeat split; auto.
  intros px py Hb. change (inBounds c px py = true) in Hb.
  rewrite <- (Ec px py), <- Ew', <- Eh', <- Px, <- (Ep px py Hb).
  destruct (copies c src sx sy w h dx dy px py) eqn:Hc; [|reflexivity].
  destruct (aligned sx sy w h dx dy) eqn:Al; [|reflexivity].
  rewrite (Ep' _ _ (copies_source c src sx sy w h dx dy px py Al Hc)). reflexivity.
Qed.

Lemma drawWrapped_same (browser : Browser) (settings : ProcessorSettings) (width height x y : Z)
    (c c' src src' : Raster) (dx dy : Q) :
  sameRaster c c' -> sameRaster src src' ->
  sameRaster (RenderWeave.drawWrapped browser settings width height x y c src dx dy)
             (RenderWeave.drawWrapped browser settings width height x y c' src' dx dy).
Proof.
  intros Sc Ss. unfold RenderWeave.drawWrapped.
  generalize (RenderWeave.drawnAt settings width height x y dx dy) as l.
  intros l. revert c c' Sc. induction l as [|pos l IH]; intros c c' Sc; simpl.
  - exact Sc.
  - apply IH. now apply drawImage9_same.
Qed.

Lemma weave_same (Math_sin : Q -> Q) (browser : Browser) (settings : ProcessorSettings) (width height : Z)
    (c c' src src' : Raster) :
  sameRaster c c' -> sameRaster src src' ->
  sameRaster (RenderWeave.weave Math_sin browser settings width height c src)
             (RenderWeave.weave Math_sin browser settings width height c' src').
Proof.
  intros Sc Ss. unfold RenderWeave.weave.
  generalize (RenderWeave.tiles settings width height) as l.
  intros l. revert c c' Sc. induction l as [|tl l IH]; intros c c' Sc; simpl.
  - exact Sc.
  - apply IH. unfold RenderWeave.drawTile. now apply drawWrapped_same.
Qed.

Lemma fastPath_iff (settings : ProcessorSettings) :
  RenderWeave.fastPath settings = true <->
  Qabs (horizontalShift settings) < 0.5 /\
  Qabs (verticalShift settings) < 0.5 /\
  scatterIntensity settings < 0.5.
Proof.
  unfold RenderWeave.fastPath, Math_abs.
  rewrite !andb_true_iff, !Qltb_lt. tauto.
Qed.


Lemma opacity_unused (Math_sin : Q -> Q) (browser : Browser) (s1 s2 : ProcessorSettings) :
  sameInputs s1 s2 ->
  RenderWeave.fastPath s1 = RenderWeave.fastPath s2 /\
  RenderWeave.weave Math_sin browser s1 = RenderWeave.weave Math_sin browser s2.
Proof.
  destruct s1, s2. unfold sameInputs. simpl.
  intros (-> & -> & -> & -> & -> & ->). split; reflexivity.
Qed.

(** C8.  Two calls on the same image with the same [tileSize],
    [horizontalShift], [verticalShift], [scatterIntensity], [pattern] and
    [seed] give the same output raster, pixel for pixel, whatever the two
    values of [opacity] and whatever the two canvases held before. *)
Theorem render_deterministic (Math_sin : Q -> Q) (browser : Browser) (ctx1 ctx2 img : Raster)
    (s1 s2 : ProcessorSettings) (temp1 temp2 : HTMLCanvasElement) :
  has2d temp1 = true -> has2d temp2 = true ->
  Types.tileSize s1 = Types.tileSize s2 ->
  horizontalShift s1 = horizontalShift s2 ->
  verticalShift s1 = verticalShift s2 ->
  scatterIntensity s1 = scatterIntensity s2 ->
  pattern s1 = pattern s2 ->
  seed s1 = seed s2 ->
  let out1 := fst (renderWeave Math_sin browser ctx1 img s1 temp1) in
  let out2 := fst (renderWeave Math_sin browser ctx2 img s2 temp2) in
  rwidth out1 = rwidth out2 /\ rheight out1 = rheight out2 /\
  (forall px py, getPixel out1 px py = getPixel out2 px py) /\
  pixels out1 = pixels out2.
Proof.
  intros H1 H2 Et Eh Ev Es Ep Ed out1 out2.
  destruct (opacity_unused Math_sin browser s1 s2) as [EF EW]; [repeat split; assumption|].
  assert (S : sameRaster out1 out2).
  { unfold out1, out2, renderWeave. rewrite H1, H2, EF, EW. simpl negb. cbv iota.
    destruct (RenderWeave.fastPath s2).
    - simpl fst. eapply sameRaster_trans; [apply image_loaded|].
      apply sameRaster_sym, image_loaded.
    - simpl fst. apply weave_same; [apply canvas_cleared|].
      eapply sameRaster_trans; [apply image_loaded|].
      apply sameRaster_sym, image_loaded. }
  split; [apply S|]. split; [apply S|].
  split; [now apply sameRaster_getPixel | now apply sameRaster_pixels].
Qed.

Lemma render_deterministic_witness :
  let s1 := mkSettings 2 1 1 30 twill 100 5 in
  let s2 := mkSettings 2 1 1 30 twill 40 5 in
  pixels (fst (renderWeave (fun _ => 0.5) sampleBrowser emptyCanvas img4 s1 (mkCanvas emptyCanvas true)))
  = pixels (fst (renderWeave (fun _ => 0.5) sampleBrowser img4 img4 s2 (mkCanvas img4 true))).
Proof.
  intros s1 s2.
  apply (render_deterministic (fun _ => 0.5) sampleBrowser emptyCanvas img4 img4 s1 s2
           (mkCanvas emptyCanvas true) (mkCanvas img4 true));
    reflexivity.
Defined.


(** ** Integral rectangles *)

Lemma touches_Z (x0 y0 x1 y1 : Q) (a b a1 b1 px py : Z) :
  x0 == inject_Z a -> y0 == inject_Z b -> x1 == inject_Z a1 -> y1 == inject_Z b1 ->
  touches x0 y0 x1 y1 px py = inRectZ a b (a1 - a) (b1 - b) px py.
Proof.
  intros H0 H1 H2 H3. unfold touches, inRectZ, in1.
  rewrite H0, H1, H2, H3.
  change 1 with (inject_Z 1). rewrite <- !inject_Z_plus, !Qltb_Z.
  replace (a + (a1 - a))%Z with a1 by lia. replace (b + (b1 - b))%Z with b1 by lia.
  replace (a <? px + 1)%Z with (a <=? px)%Z; [replace (b <? py + 1)%Z with (b <=? py)%Z|].
  - symmetry. apply andb_assoc.
  - apply eq_true_iff_eq. rewrite Z.leb_le, Z.ltb_lt. lia.
  - apply eq_true_iff_eq. rewrite Z.leb_le, Z.ltb_lt. lia.
Qed.

Lemma srcPixel_Z (sx sy dx dy : Q) (sxz syz a b px py : Z) :
  sx == inject_Z sxz -> sy == inject_Z syz ->
  dx == inject_Z a -> dy == inject_Z b ->
  srcPixel sx sy dx dy px py = ((sxz + (px - a))%Z, (syz + (py - b))%Z).
Proof.
  intros Hsx Hsy Hdx Hdy. unfold srcPixel, Math_floor.
  rewrite Hsx, Hsy, Hdx, Hdy, !inject_Z_sub, <- !inject_Z_plus, !Qfloor_Z.
  reflexivity.
Qed.

(** One [drawImage] of an integral rectangle that lies inside its source. *)
Lemma drawImage9_pixel (browser : Browser) (c src : Raster) (sx sy w h dx dy : Q)
    (sxz syz wz hz a b px py : Z) :
  sx == inject_Z sxz -> sy == inject_Z syz ->
  w == inject_Z wz -> h == inject_Z hz ->
  dx == inject_Z a -> dy == inject_Z b ->
  (0 <= sxz)%Z -> (sxz + wz <= rwidth src)%Z ->
  (0 <= syz)%Z -> (syz + hz <= rheight src)%Z ->
  inBounds c px py = true ->
  copies c src sx sy w h dx dy px py = inRectZ a b wz hz px py /\
  rpix (drawImage9 browser c src sx sy w h dx dy) px py
  = if inRectZ a b wz hz px py
    then sourceOver browser (rpix src (sxz + (px - a)) (syz + (py - b))) (rpix c px py)
    else rpix c px py.
Proof.
  intros Hsx Hsy Hw Hh Hdx Hdy Hsx0 Hsx1 Hsy0 Hsy1 Hb.
  assert (E : copies c src sx sy w h dx dy px py = inRectZ a b wz hz px py).
  { unfold copies. rewrite Hb. cbn [andb].
    assert (X0 : Qmax dx (dx - sx) == inject_Z a).
    { rewrite Q.max_l; [exact Hdx|]. rewrite Hsx. rewrite Zle_Qle in Hsx0.
      change (inject_Z 0) with 0 in Hsx0. lra. }
    assert (Y0 : Qmax dy (dy - sy) == inject_Z b).
    { rewrite Q.max_l; [exact Hdy|]. rewrite Hsy. rewrite Zle_Qle in Hsy0.
      change (inject_Z 0) with 0 in Hsy0. lra. }
    assert (X1 : Qmin (dx + w) (dx - sx + inject_Z (rwidth src)) == inject_Z (a + wz)).
    { rewrite Q.min_l; [now rewrite Hdx, Hw, inject_Z_plus|].
      rewrite Hsx, Hw. rewrite Zle_Qle, inject_Z_plus in Hsx1. lra. }
    assert (Y1 : Qmin (dy + h) (dy - sy + inject_Z (rheight src)) == inject_Z (b + hz)).
    { rewrite Q.min_l; [now rewrite Hdy, Hh, inject_Z_plus|].
      rewrite Hsy, Hh. rewrite Zle_Qle, inject_Z_plus in Hsy1. lra. }
    rewrite (touches_Z _ _ _ _ a b (a + wz) (b + hz) px py X0 Y0 X1 Y1).
    now replace (a + wz - a)%Z with wz by lia; replace (b + hz - b)%Z with hz by lia. }
  split; [exact E|].
  assert (Al : aligned sx sy w h dx dy = true).
  { unfold aligned.
    rewrite (isInteger_true sx sxz Hsx), (isInteger_true sy syz Hsy),
      (isInteger_true w wz Hw), (isInteger_true h hz Hh),
      (isInteger_true dx a Hdx), (isInteger_true dy b Hdy). reflexivity. }
  unfold drawImage9. cbn [rpix]. rewrite E, Al.
  now rewrite (srcPixel_Z sx sy dx dy sxz syz a b) by assumption.
Qed.

(** On one axis of a torus of length [len]: where the pixel [p] falls in a
    segment of [seg] pixels that starts at [d]. *)
Lemma mod_cases (len z : Z) :
  (0 < len)%Z -> (- len <= z < len)%Z ->
  ((0 <= z -> z mod len = z) /\ (z < 0 -> z mod len = z + len))%Z.
Proof.
  intros Hl Hz. split; intros H.
  - apply Z.mod_small. lia.
  - symmetry. apply (Z.mod_unique z len (-1)); lia.
Qed.

Lemma in1_true (a len p : Z) : in1 a len p = true <-> (a <= p < a + len)%Z.
Proof. unfold in1. rewrite andb_true_iff, Z.leb_le, Z.ltb_lt. tauto. Qed.

Lemma in1_false (a len p : Z) : in1 a len p = false <-> (p < a \/ a + len <= p)%Z.
Proof.
  unfold in1. rewrite andb_false_iff, Z.leb_gt, Z.ltb_ge. tauto.
Qed.

Lemma in1_torus (len d seg p : Z) :
  (0 < len)%Z -> (0 <= d < len)%Z -> (0 < seg <= len)%Z -> (0 <= p < len)%Z ->
  let u := ((p - d) mod len)%Z in
  (in1 d seg p = true -> u = (p - d)%Z /\ (u < seg)%Z) /\
  (in1 (d - len) seg p = true ->
   u = (p - (d - len))%Z /\ (u < seg)%Z /\ (len < d + seg)%Z) /\
  (in1 d seg p = false -> in1 (d - len) seg p = false -> (seg <= u)%Z).
Proof.
  intros Hl Hd Hs Hp u.
  destruct (mod_cases len (p - d) Hl ltac:(lia)) as [M0 M1]. fold u in M0, M1.
  rewrite !in1_true, !in1_false.
  split; [|split]; intros; lia.
Qed.

(** ** A tile of an integral grid *)

Section IntegralTile.

Variable browser : Browser.

Variable settings : ProcessorSettings.
Variables width height x y T : Z.

Hypothesis tileSize_integral : Types.tileSize settings == inject_Z T.
Hypothesis tileSize_valid : (2 <= T)%Z.
Hypothesis column_in_grid : (0 <= x)%Z /\ (x * T < width)%Z.
Hypothesis row_in_grid : (0 <= y)%Z /\ (y * T < height)%Z.

Let wz : Z := Z.min T (width - x * T).
Let hz : Z := Z.min T (height - y * T).

Lemma tileSize_int : RenderWeave.tileSize settings == inject_Z T.
Proof.
  unfold RenderWeave.tileSize, Math_max. rewrite tileSize_integral.
  apply Q.max_r. change 2 with (inject_Z 2). rewrite <- Zle_Qle. exact tileSize_valid.
Qed.

Lemma sx_int : RenderWeave.sx settings x == inject_Z (x * T).
Proof. unfold RenderWeave.sx. now rewrite tileSize_int, inject_Z_mult. Qed.

Lemma sy_int : RenderWeave.sy settings y == inject_Z (y * T).
Proof. unfold RenderWeave.sy. now rewrite tileSize_int, inject_Z_mult. Qed.

Lemma w_int : RenderWeave.w settings width x == inject_Z wz.
Proof.
  unfold RenderWeave.w, Math_min. rewrite sx_int, tileSize_int, inject_Z_sub.
  apply Qmin_Z.
Qed.

Lemma h_int : RenderWeave.h settings height y == inject_Z hz.
Proof.
  unfold RenderWeave.h, Math_min. rewrite sy_int, tileSize_int, inject_Z_sub.
  apply Qmin_Z.
Qed.

Lemma tile_extent :
  (0 < wz <= width)%Z /\ (0 < hz <= height)%Z /\
  (x * T + wz <= width)%Z /\ (y * T + hz <= height)%Z.
Proof. unfold wz, hz. lia. Qed.

Lemma visible_Z (pos : Q * Q) (a b : Z) :
  fst pos == inject_Z a -> snd pos == inject_Z b ->
  RenderWeave.visible settings width height x y pos
  = ((0 <? a + wz) && (a <? width) && (0 <? b + hz) && (b <? height))%Z.
Proof.
  intros Ha Hb. unfold RenderWeave.visible.
  rewrite Ha, Hb, w_int, h_int, <- !inject_Z_plus.
  change 0 with (inject_Z 0). now rewrite !Qltb_Z.
Qed.

Lemma fits_Z (dx dy : Q) (dxz dyz : Z) :
  dx == inject_Z dxz -> dy == inject_Z dyz ->
  RenderWeave.fits settings width height x y dx dy
  = ((dxz + wz <=? width) && (dyz + hz <=? height))%Z.
Proof.
  intros Ha Hb. unfold RenderWeave.fits.
  rewrite Ha, Hb, w_int, h_int, <- !inject_Z_plus. now rewrite !Qleb_Z.
Qed.

Section Drawing.

Variables ctx tempCanvas : Raster.
Variables dx dy : Q.
Variables dxz dyz px py : Z.

Hypothesis dx_integral : dx == inject_Z dxz.
Hypothesis dy_integral : dy == inject_Z dyz.
Hypothesis dx_range : (0 <= dxz < width)%Z.
Hypothesis dy_range : (0 <= dyz < height)%Z.
Hypothesis ctx_width : rwidth ctx = width.
Hypothesis ctx_height : rheight ctx = height.
Hypothesis temp_width : rwidth tempCanvas = width.
Hypothesis temp_height : rheight tempCanvas = height.
Hypothesis pixel_in_bounds : inBounds ctx px py = true.

Lemma candidate_copies (c : Raster) (a b : Z) (cx cy : Q) :
  cx == inject_Z a -> cy == inject_Z b -> inBounds c px py = true ->
  copies c tempCanvas (RenderWeave.sx settings x) (RenderWeave.sy settings y)
    (RenderWeave.w settings width x) (RenderWeave.h settings height y) cx cy px py
  = inRectZ a b wz hz px py.
Proof.
  intros Ha Hb Hc. pose proof tile_extent as E.
  apply (drawImage9_pixel browser c tempCanvas _ _ _ _ cx cy (x * T) (y * T) wz hz a b);
    auto using sx_int, sy_int, w_int, h_int; lia.
Qed.

Lemma candidate_pixel (c : Raster) (a b : Z) (cx cy : Q) :
  cx == inject_Z a -> cy == inject_Z b -> inBounds c px py = true ->
  rpix (drawImage9 browser c tempCanvas (RenderWeave.sx settings x)
          (RenderWeave.sy settings y) (RenderWeave.w settings width x)
          (RenderWeave.h settings height y) cx cy) px py
  = if inRectZ a b wz hz px py
    then sourceOver browser (rpix tempCanvas (x * T + (px - a)) (y * T + (py - b)))
           (rpix c px py)
    else rpix c px py.
Proof.
  intros Ha Hb Hc. pose proof tile_extent as E.
  apply (drawImage9_pixel browser c tempCanvas _ _ _ _ cx cy (x * T) (y * T) wz hz a b);
    auto using sx_int, sy_int, w_int, h_int; lia.
Qed.

Lemma candidate_x : dx - inject_Z width == inject_Z (dxz - width).
Proof. now rewrite dx_integral, inject_Z_sub. Qed.

Lemma candidate_y : dy - inject_Z height == inject_Z (dyz - height).
Proof. now rewrite dy_integral, inject_Z_sub. Qed.

Lemma pixel_range : (0 <= px < width)%Z /\ (0 <= py < height)%Z.
Proof.
  unfold inBounds in pixel_in_bounds. rewrite ctx_width, ctx_height in pixel_in_bounds.
  lia.
Qed.

(** The pixel the tile leaves at [(px, py)]: the tile covers the torus
    rectangle of size [wz] by [hz] that starts at [(dxz, dyz)]. *)
Lemma drawWrapped_pixel :
  let u := ((px - dxz) mod width)%Z in
  let v := ((py - dyz) mod height)%Z in
  existsb
    (fun pos => copies ctx tempCanvas (RenderWeave.sx settings x)
                  (RenderWeave.sy settings y) (RenderWeave.w settings width x)
                  (RenderWeave.h settings height y) (fst pos) (snd pos) px py)
    (RenderWeave.drawnAt settings width height x y dx dy)
  = ((u <? wz) && (v <? hz))%Z /\
  rpix (RenderWeave.drawWrapped browser settings width height x y ctx tempCanvas dx dy) px py
  = if ((u <? wz) && (v <? hz))%Z
    then sourceOver browser (rpix tempCanvas (x * T + u) (y * T + v)) (rpix ctx px py)
    else rpix ctx px py.
Proof.
  intros u v.
  pose proof tile_extent as (Ew & Eh & _ & _).
  pose proof pixel_range as (Rx & Ry).
  destruct (in1_torus width dxz wz px) as (X0 & X1 & X2); try lia.
  destruct (in1_torus height dyz hz py) as (Y0 & Y1 & Y2); try lia.
  fold u in X0, X1, X2. fold v in Y0, Y1, Y2.
  pose proof candidate_x as Cx. pose proof candidate_y as Cy.
  unfold RenderWeave.drawWrapped, RenderWeave.drawnAt, RenderWeave.positions.
  rewrite (fits_Z dx dy dxz dyz dx_integral dy_integral).
  cbn [filter].
  rewrite (visible_Z (dx, dy) dxz dyz dx_integral dy_integral).
  rewrite (visible_Z (dx - inject_Z width, dy) (dxz - width) dyz Cx dy_integral).
  rewrite (visible_Z (dx, dy - inject_Z height) dxz (dyz - height) dx_integral Cy).
  rewrite (visible_Z (dx - inject_Z width, dy - inject_Z height)
             (dxz - width) (dyz - height) Cx Cy).
  replace (0 <? dxz + wz)%Z with true by (symmetry; apply Z.ltb_lt; lia).
  replace (dxz <? width)%Z with true by (symmetry; apply Z.ltb_lt; lia).
  replace (0 <? dyz + hz)%Z with true by (symmetry; apply Z.ltb_lt; lia).
  replace (dyz <? height)%Z with true by (symmetry; apply Z.ltb_lt; lia).
  replace (dxz - width <? width)%Z with true by (symmetry; apply Z.ltb_lt; lia).
  replace (dyz - height <? height)%Z with true by (symmetry; apply Z.ltb_lt; lia).
  cbn [andb].
  destruct (Z.leb_spec (dxz + wz) width) as [Fx | Fx];
    destruct (Z.leb_spec (dyz + hz) height) as [Fy | Fy];
    destruct (Z.ltb_spec 0 (dxz - width + wz)) as [Vx | Vx]; try lia;
    destruct (Z.ltb_spec 0 (dyz - height + hz)) as [Vy | Vy]; try lia;
    cbn [andb fold_left existsb fst snd];
    repeat first
      [ rewrite (candidate_pixel _ (dxz - width) (dyz - height))
          by (assumption || exact pixel_in_bounds)
      | rewrite (candidate_pixel _ dxz (dyz - height))
          by (assumption || exact pixel_in_bounds)
      | rewrite (candidate_pixel _ (dxz - width) dyz)
          by (assumption || exact pixel_in_bounds)
      | rewrite (candidate_pixel _ dxz dyz)
          by (assumption || exact pixel_in_bounds)
      | rewrite (candidate_copies _ (dxz - width) (dyz - height))
          by (assumption || exact pixel_in_bounds)
      | rewrite (candidate_copies _ dxz (dyz - height))
          by (assumption || exact pixel_in_bounds)
      | rewrite (candidate_copies _ (dxz - width) dyz)
          by (assumption || exact pixel_in_bounds)
      | rewrite (candidate_copies _ dxz dyz)
          by (assumption || exact pixel_in_bounds) ];
    unfold inRectZ;
    destruct (in1 dxz wz px) eqn:A0; destruct (in1 (dxz - width) wz px) eqn:A1;
    destruct (in1 dyz hz py) eqn:B0; destruct (in1 (dyz - height) hz py) eqn:B1;
    repeat match goal with
      | H : true = true -> _ |- _ => specialize (H eq_refl)
      | H : false = false -> _ |- _ => specialize (H eq_refl)
      | H : true = false -> _ |- _ => clear H
      | H : false = true -> _ |- _ => clear H
      end;
    try lia;
    cbn [andb orb];
    repeat match goal with
      | |- context [(?a <? ?b)%Z] => destruct (Z.ltb_spec a b); try lia
      end;
    cbn [andb]; split; try reflexivity; repeat (f_equal; try lia).
Qed.

End Drawing.

End IntegralTile.

(** ** The grid *)

Lemma Qceiling_gt (q : Q) (k : Z) : (k < Qceiling q)%Z <-> inject_Z k < q.
Proof.
  split; intros H.
  - apply Qnot_le_lt. intros L. apply Qceiling_resp_le in L.
    rewrite Qceiling_Z in L. lia.
  - rewrite Zlt_Qlt. apply Qlt_le_trans with q; [exact H | apply Qle_ceiling].
Qed.

Lemma grid_bound (size T k : Z) (t : Q) :
  t == inject_Z T -> (0 < T)%Z ->
  (k < Math_ceil (inject_Z size / t))%Z <-> (k * T < size)%Z.
Proof.
  intros Ht HT. unfold Math_ceil. rewrite Qceiling_gt, Ht.
  assert (HT' : 0 < inject_Z T) by (change 0 with (inject_Z 0); now rewrite <- Zlt_Qlt).
  rewrite Zlt_Qlt, inject_Z_mult. split; intros H.
  - setoid_replace (inject_Z size) with (inject_Z size / inject_Z T * inject_Z T)
      by (field; lra).
    now apply Qmult_lt_compat_r.
  - now apply Qlt_shift_div_l.
Qed.

Lemma in_range (n k : Z) : In k (range n) <-> (0 <= k < n)%Z.
Proof.
  unfold range. rewrite in_map_iff. split.
  - intros (i & <- & Hi). apply in_seq in Hi. lia.
  - intros Hk. exists (Z.to_nat k). split; [lia|]. apply in_seq. lia.
Qed.

Lemma NoDup_range (n : Z) : NoDup (range n).
Proof.
  unfold range. apply Injective_map_NoDup; [|apply seq_NoDup].
  intros a b. apply Nat2Z.inj.
Qed.

Lemma in_grid (xs ys : list Z) (p : Z * Z) :
  In p (flat_map (fun y => map (fun x => (x, y)) xs) ys)
  <-> In (fst p) xs /\ In (snd p) ys.
Proof.
  rewrite in_flat_map. destruct p as [a b]. simpl. split.
  - intros (y & Hy & Hp). apply in_map_iff in Hp. destruct Hp as (x & E & Hx).
    inversion E; subst. auto.
  - intros [Ha Hb]. exists b. split; [exact Hb|]. apply in_map_iff. now exists a.
Qed.

Lemma NoDup_grid (xs ys : list Z) :
  NoDup xs -> NoDup ys -> NoDup (flat_map (fun y => map (fun x => (x, y)) xs) ys).
Proof.
  intros Hx Hy. induction Hy as [|y ys Hn Hy IH]; simpl; [constructor|].
  apply NoDup_app.
  - apply Injective_map_NoDup; [|exact Hx]. intros a b E. now inversion E.
  - exact IH.
  - intros [a b] Ha Hb. apply in_map_iff in Ha. destruct Ha as (x & E & _).
    inversion E; subst. apply in_grid in Hb. simpl in Hb. tauto.
Qed.

Lemma in_coords (width height : Z) (p : Z * Z) :
  In p (coords width height)
  <-> (0 <= fst p < width)%Z /\ (0 <= snd p < height)%Z.
Proof. unfold coords. now rewrite in_grid, !in_range. Qed.

Lemma NoDup_coords (width height : Z) : NoDup (coords width height).
Proof. apply NoDup_grid; apply NoDup_range. Qed.

Lemma in_tiles (settings : ProcessorSettings) (width height T : Z) (t : Z * Z) :
  Types.tileSize settings == inject_Z T -> (2 <= T)%Z ->
  In t (RenderWeave.tiles settings width height)
  <-> ((0 <= fst t)%Z /\ (fst t * T < width)%Z) /\
      ((0 <= snd t)%Z /\ (snd t * T < height)%Z).
Proof.
  intros HT HT2. unfold RenderWeave.tiles. rewrite in_grid, !in_range.
  unfold RenderWeave.cols, RenderWeave.rows.
  pose proof (tileSize_int settings T HT HT2) as E.
  rewrite (grid_bound width T (fst t) _ E), (grid_bound height T (snd t) _ E) by lia.
  tauto.
Qed.

(** A tile of the grid is not empty. *)
Lemma tile_nonempty (settings : ProcessorSettings) (width height x y : Z) :
  In (x, y) (RenderWeave.tiles settings width height) ->
  0 < RenderWeave.w settings width x /\ 0 < RenderWeave.h settings height y /\
  (0 < width)%Z /\ (0 < height)%Z.
Proof.
  unfold RenderWeave.tiles. rewrite in_grid, !in_range. cbn [fst snd].
  unfold RenderWeave.cols, RenderWeave.rows, Math_ceil. rewrite !Qceiling_gt.
  pose proof (tileSize_ge_2 settings) as HT.
  set (T := RenderWeave.tileSize settings) in *.
  intros [[Hx Cx] [Hy Cy]].
  assert (Sx : inject_Z x * T < inject_Z width).
  { setoid_replace (inject_Z width) with (inject_Z width / T * T) by (field; lra).
    apply Qmult_lt_compat_r; [lra | exact Cx]. }
  assert (Sy : inject_Z y * T < inject_Z height).
  { setoid_replace (inject_Z height) with (inject_Z height / T * T) by (field; lra).
    apply Qmult_lt_compat_r; [lra | exact Cy]. }
  assert (Px : 0 <= inject_Z x * T).
  { apply Qmult_le_0_compat; [|lra]. change 0 with (inject_Z 0). now rewrite <- Zle_Qle. }
  assert (Py : 0 <= inject_Z y * T).
  { apply Qmult_le_0_compat; [|lra]. change 0 with (inject_Z 0). now rewrite <- Zle_Qle. }
  unfold RenderWeave.w, RenderWeave.h, RenderWeave.sx, RenderWeave.sy, Math_min.
  fold T. repeat split.
  - destruct (Q.min_spec T (inject_Z width - inject_Z x * T)) as [[_ ->] | [_ ->]]; lra.
  - destruct (Q.min_spec T (inject_Z height - inject_Z y * T)) as [[_ ->] | [_ ->]]; lra.
  - rewrite Zlt_Qlt. change (inject_Z 0) with 0. lra.
  - rewrite Zlt_Qlt. change (inject_Z 0) with 0. lra.
Qed.

(** ** The seam-aware composite *)

Lemma fits_iff (settings : ProcessorSettings) (width height x y : Z) (dx dy : Q) :
  RenderWeave.fits settings width height x y dx dy = true <->
  dx + RenderWeave.w settings width x <= inject_Z width /\
  dy + RenderWeave.h settings height y <= inject_Z height.
Proof.
  unfold RenderWeave.fits. now rewrite andb_true_iff, !Qleb_le.
Qed.

(** A candidate is drawn exactly when its rectangle and the raster have a
    point in common. *)
Lemma visible_iff (settings : ProcessorSettings) (width height x y : Z) (pos : Q * Q) :
  0 < RenderWeave.w settings width x -> 0 < RenderWeave.h settings height y ->
  (0 < width)%Z -> (0 < height)%Z ->
  RenderWeave.visible settings width height x y pos = true <->
  exists u v : Q,
    (fst pos <= u /\ u < fst pos + RenderWeave.w settings width x) /\
    (0 <= u /\ u < inject_Z width) /\
    (snd pos <= v /\ v < snd pos + RenderWeave.h settings height y) /\
    (0 <= v /\ v < inject_Z height).
Proof.
  intros Hw Hh HW HH.
  assert (HW' : 0 < inject_Z width) by (change 0 with (inject_Z 0); now rewrite <- Zlt_Qlt).
  assert (HH' : 0 < inject_Z height) by (change 0 with (inject_Z 0); now rewrite <- Zlt_Qlt).
  unfold RenderWeave.visible. rewrite !andb_true_iff, !Qltb_lt.
  set (w := RenderWeave.w settings width x) in *.
  set (h := RenderWeave.h settings height y) in *.
  destruct pos as [a b]. simpl. split.
  - intros (((A1 & A2) & B1) & B2).
    exists (Qmax a 0), (Qmax b 0).
    destruct (Q.max_spec a 0) as [[? ->] | [? ->]];
      destruct (Q.max_spec b 0) as [[? ->] | [? ->]]; repeat split; lra.
  - intros (u & v & (? & ?) & (? & ?) & (? & ?) & (? & ?)). repeat split; lra.
Qed.

Lemma torus_offset (len d i : Z) :
  (0 < len)%Z -> (0 <= i < len)%Z -> (((d + i) mod len - d) mod len = i)%Z.
Proof.
  intros Hl Hi. rewrite Zminus_mod_idemp_l.
  replace (d + i - d)%Z with i by lia. apply Z.mod_small. lia.
Qed.

Lemma drawWrapped_dims (browser : Browser) (settings : ProcessorSettings) (width height x y : Z)
    (ctx tempCanvas : Raster) (dx dy : Q) :
  rwidth (RenderWeave.drawWrapped browser settings width height x y ctx tempCanvas dx dy)
  = rwidth ctx /\
  rheight (RenderWeave.drawWrapped browser settings width height x y ctx tempCanvas dx dy)
  = rheight ctx.
Proof.
  unfold RenderWeave.drawWrapped.
  generalize (RenderWeave.drawnAt settings width height x y dx dy) as l.
  intros l. revert ctx. induction l as [|p l IH]; intros c; simpl; [auto|].
  destruct (IH (drawImage9 browser c tempCanvas (RenderWeave.sx settings x)
                  (RenderWeave.sy settings y) (RenderWeave.w settings width x)
                  (RenderWeave.h settings height y) (fst p) (snd p))) as [E1 E2].
  split; [exact E1 | exact E2].
Qed.

(** With integral coordinates a fragment is not always what the canvas
    shows afterwards: on a 4 by 4 image whose pixel [(2, 2)] is transparent,
    with tiles of 2 and both shifts 1, the tiles [(0, 0)] and [(1, 1)] are
    both drawn at [(1, 1)].  The tile [(1, 1)] is drawn last and fits, but
    where its transparent pixel lands the canvas keeps the pixel of the
    tile [(0, 0)]. *)
Lemma composite_keeps_earlier_tile :
  let s := mkSettings 2 1 1 0 plain 100 0 in
  let sin := fun _ : Q => 0.5 in
  let out := fst (renderWeave sin sampleBrowser emptyCanvas img4hole s
                    (mkCanvas emptyCanvas true)) in
  (RenderWeave.finalDestX sin s 4 1 1 == 1 /\ RenderWeave.finalDestY sin s 4 1 1 == 1) /\
  RenderWeave.fits s 4 4 1 1 1 1 = true /\
  last (RenderWeave.tiles s 4 4) (0, 0)%Z = (1, 1)%Z /\
  getPixel img4hole 2 2 = blank /\
  getPixel out 1 1 = getPixel img4hole 0 0 /\
  getPixel out 1 1 <> getPixel img4hole 2 2.
Proof.
  cbv zeta. split; [split; reflexivity|].
  split; [reflexivity|]. split; [reflexivity|]. split; [reflexivity|].
  split; [vm_compute; reflexivity | vm_compute; discriminate].
Qed.

(** C4, as the code has it.  A tile whose rectangle at [(dx, dy)] fits in
    the raster is drawn once, from its rectangle of the read buffer to that
    rectangle.  Otherwise the candidates are [(dx, dy)], [(dx - width, dy)],
    [(dx, dy - height)] and [(dx - width, dy - height)], and those drawn are
    exactly the ones whose rectangle has a point in common with the raster.
    On an integral grid, with the origin inside the raster, the fragments
    composite the tile onto the torus: the pixel [(i, j)] of the tile is
    composited, source-over, onto the pixel
    [((dx + i) mod width, (dy + j) mod height)], and nothing else changes.
    Where the tile is opaque or the canvas still transparent the canvas
    then shows the pixel of the tile; where the tile is transparent and the
    canvas is not, the canvas keeps what it had. *)
Theorem seam_aware_composite (browser : Browser) (settings : ProcessorSettings)
    (width height x y : Z) (ctx tempCanvas : Raster) (dx dy : Q) :
  let sx := RenderWeave.sx settings x in
  let sy := RenderWeave.sy settings y in
  let w := RenderWeave.w settings width x in
  let h := RenderWeave.h settings height y in
  let W := inject_Z width in
  let H := inject_Z height in
  let out := RenderWeave.drawWrapped browser settings width height x y ctx tempCanvas dx dy in
  (dx + w <= W /\ dy + h <= H ->
   RenderWeave.drawnAt settings width height x y dx dy = [ (dx, dy) ] /\
   out = drawImage9 browser ctx tempCanvas sx sy w h dx dy) /\
  (~ (dx + w <= W /\ dy + h <= H) ->
   RenderWeave.drawnAt settings width height x y dx dy
   = filter (RenderWeave.visible settings width height x y)
       [ (dx, dy); (dx - W, dy); (dx, dy - H); (dx - W, dy - H) ]) /\
  (In (x, y) (RenderWeave.tiles settings width height) ->
   forall pos,
     RenderWeave.visible settings width height x y pos = true <->
     exists u v : Q,
       (fst pos <= u /\ u < fst pos + w) /\ (0 <= u /\ u < W) /\
       (snd pos <= v /\ v < snd pos + h) /\ (0 <= v /\ v < H)) /\
  (forall T dxz dyz : Z,
     Types.tileSize settings == inject_Z T -> (2 <= T)%Z ->
     (0 <= x)%Z /\ (x * T < width)%Z -> (0 <= y)%Z /\ (y * T < height)%Z ->
     dx == inject_Z dxz -> dy == inject_Z dyz ->
     (0 <= dxz < width)%Z -> (0 <= dyz < height)%Z ->
     rwidth ctx = width -> rheight ctx = height ->
     rwidth tempCanvas = width -> rheight tempCanvas = height ->
     let wz := Z.min T (width - x * T) in
     let hz := Z.min T (height - y * T) in
     (forall i j, (0 <= i < wz)%Z -> (0 <= j < hz)%Z ->
        let px := ((dxz + i) mod width)%Z in
        let py := ((dyz + j) mod height)%Z in
        let tile := getPixel tempCanvas (x * T + i) (y * T + j) in
        getPixel out px py = sourceOver browser tile (getPixel ctx px py) /\
        (alpha tile = 255%Z \/ alpha (getPixel ctx px py) = 0%Z ->
         getPixel out px py = tile) /\
        (alpha tile = 0%Z -> alpha (getPixel ctx px py) <> 0%Z ->
         getPixel out px py = getPixel ctx px py)) /\
     (forall px py,
        ~ ((px - dxz) mod width < wz /\ (py - dyz) mod height < hz)%Z ->
        getPixel out px py = getPixel ctx px py)).
Proof.
  intros sx sy w h W H out.
  split; [|split; [|split]].
  - intros F. apply (fits_iff settings width height x y) in F.
    unfold out, RenderWeave.drawWrapped, RenderWeave.drawnAt. rewrite F.
    split; reflexivity.
  - intros F. unfold RenderWeave.drawnAt.
    destruct (RenderWeave.fits settings width height x y dx dy) eqn:E.
    + apply fits_iff in E. contradiction.
    + reflexivity.
  - intros Hin pos.
    destruct (tile_nonempty settings width height x y Hin) as (Hw & Hh & HW & HH).
    now apply visible_iff.
  - intros T dxz dyz HT HT2 Hx Hy Hdx Hdy Rx Ry Cw Ch Tw Th wz hz.
    destruct (drawWrapped_dims browser settings width height x y ctx tempCanvas dx dy)
      as [Ow Oh]. fold out in Ow, Oh.
    assert (Ext : (0 < wz <= width)%Z /\ (0 < hz <= height)%Z) by (unfold wz, hz; lia).
    assert (K : forall px py, inBounds ctx px py = true ->
                rpix out px py
                = if (((px - dxz) mod width <? wz) && ((py - dyz) mod height <? hz))%Z
                  then sourceOver browser
                         (rpix tempCanvas (x * T + (px - dxz) mod width)
                                          (y * T + (py - dyz) mod height))
                         (rpix ctx px py)
                  else rpix ctx px py).
    { intros px py Hb.
      apply (drawWrapped_pixel browser settings width height x y T HT HT2 Hx Hy
               ctx tempCanvas dx dy dxz dyz px py); assumption. }
    assert (B : forall px py, inBounds out px py = inBounds ctx px py).
    { intros px py. apply inBounds_same; congruence. }
    split.
    + intros i j Hi Hj px py tile.
      assert (Hpx : (0 <= px < width)%Z) by (apply Z.mod_pos_bound; lia).
      assert (Hpy : (0 <= py < height)%Z) by (apply Z.mod_pos_bound; lia).
      assert (Hb : inBounds ctx px py = true).
      { unfold inBounds. rewrite Cw, Ch. lia. }
      assert (Ht : inBounds tempCanvas (x * T + i) (y * T + j) = true).
      { unfold inBounds. rewrite Tw, Th. unfold wz, hz in *. lia. }
      assert (E : getPixel out px py = sourceOver browser tile (getPixel ctx px py)).
      { unfold tile, getPixel. rewrite B, Hb, Ht, (K _ _ Hb).
        unfold px, py. rewrite !torus_offset by lia.
        replace (i <? wz)%Z with true by (symmetry; apply Z.ltb_lt; lia).
        replace (j <? hz)%Z with true by (symmetry; apply Z.ltb_lt; lia).
        reflexivity. }
      split; [exact E|]. rewrite E. unfold sourceOver. split.
      * intros [A | A]; rewrite A.
        -- destruct (alpha (getPixel ctx px py) =? 0)%Z; reflexivity.
        -- reflexivity.
      * intros A N. rewrite A. apply Z.eqb_neq in N. rewrite N. reflexivity.
    + intros px py N. unfold getPixel. rewrite B.
      destruct (inBounds ctx px py) eqn:Hb; [|reflexivity].
      rewrite (K _ _ Hb).
      destruct ((px - dxz) mod width <? wz)%Z eqn:U;
        destruct ((py - dyz) mod height <? hz)%Z eqn:V; cbn [andb]; try reflexivity.
      exfalso. apply N. now rewrite <- !Z.ltb_lt.
Qed.

(** ** One axis of the torus *)

Lemma div_iff (T k q : Z) :
  (0 < T)%Z -> (k = q / T <-> k * T <= q < k * T + T)%Z.
Proof.
  intros HT. split.
  - intros ->. pose proof (Z.mul_div_le q T HT). pose proof (Z.mul_succ_div_gt q T HT).
    lia.
  - intros H. apply (Z.div_unique q T k (q - k * T)); lia.
Qed.

(** The segments of one row of tiles, all shifted by [s], tile the circle:
    the pixel [p] lies in the segment of the tile [k] exactly when [k] is
    the tile of [(p - s) mod len]. *)
Lemma axis_tiling (len T k s p : Z) :
  (0 < len)%Z -> (0 < T)%Z -> (0 <= k)%Z -> (k * T < len)%Z -> (0 <= p < len)%Z ->
  let d := ((k * T + s) mod len)%Z in
  let u := ((p - d) mod len)%Z in
  let q := ((p - s) mod len)%Z in
  ((u < Z.min T (len - k * T))%Z <-> k = (q / T)%Z) /\
  ((u < Z.min T (len - k * T))%Z -> (k * T + u)%Z = q).
Proof.
  intros Hl HT Hk Hkl Hp d u q.
  assert (Hq : (0 <= q < len)%Z) by (apply Z.mod_pos_bound; lia).
  assert (Eu : u = ((q - k * T) mod len)%Z).
  { unfold u, d, q. rewrite Zminus_mod_idemp_r, Zminus_mod_idemp_l. f_equal. lia. }
  destruct (mod_cases len (q - k * T) Hl ltac:(lia)) as [M0 M1].
  rewrite <- Eu in M0, M1. rewrite (div_iff T k q HT).
  destruct (Z_lt_le_dec (q - k * T) 0) as [N | N].
  - specialize (M1 N). split; [split|]; lia.
  - specialize (M0 N). split; [split|]; lia.
Qed.

(** ** The plain weave without scatter *)

#[global] Instance inject_Z_proper : Proper (eq ==> Qeq) inject_Z.
Proof. intros a b ->. reflexivity. Qed.

Lemma Qmod_Z (v m : Z) : (0 < m)%Z -> Qmod (inject_Z v) (inject_Z m) == inject_Z (v mod m).
Proof.
  intros Hm. unfold Qmod. rewrite <- Zdiv_Qdiv, <- inject_Z_mult, inject_Z_sub.
  now rewrite Z.mod_eq by lia.
Qed.

Lemma js_wrap_Z (q : Q) (v m : Z) :
  (0 < m)%Z -> q == inject_Z v ->
  js_rem (js_rem q (inject_Z m) + inject_Z m) (inject_Z m) == inject_Z (v mod m).
Proof.
  intros Hm Hq. rewrite js_wrap_Qmod.
  - unfold Qmod. rewrite Hq. now apply Qmod_Z.
  - change 0 with (inject_Z 0). now rewrite <- Zlt_Qlt.
Qed.

Section PlainWeave.

Variable Math_sin : Q -> Q.
Variable browser : Browser.
Variable settings : ProcessorSettings.
Variables width height T hs vs : Z.

Hypothesis pattern_plain : pattern settings = plain.
Hypothesis no_scatter : scatterIntensity settings == 0.
Hypothesis tileSize_integral : Types.tileSize settings == inject_Z T.
Hypothesis tileSize_valid : (2 <= T)%Z.
Hypothesis horizontal_integral : horizontalShift settings == inject_Z hs.
Hypothesis vertical_integral : verticalShift settings == inject_Z vs.
Hypothesis width_pos : (0 < width)%Z.
Hypothesis height_pos : (0 < height)%Z.

Lemma no_jump (x y : Z) :
  RenderWeave.finalDestX Math_sin settings width x y = RenderWeave.destX settings width x y /\
  RenderWeave.finalDestY Math_sin settings height x y = RenderWeave.destY settings height x y.
Proof.
  unfold RenderWeave.finalDestX, RenderWeave.finalDestY.
  assert (E : Qltb (RenderWeave.hash Math_sin settings x y)
                   (RenderWeave.threshold settings) = false).
  { apply Qltb_ge. unfold RenderWeave.threshold. rewrite no_scatter.
    setoid_replace (0 / 100) with 0 by reflexivity.
    apply pseudoRandom_range. }
  rewrite E. split; reflexivity.
Qed.

Lemma plain_factors (x y : Z) :
  xFactor (RenderWeave.factors settings x y) = inject_Z (paritySign y) /\
  yFactor (RenderWeave.factors settings x y) = inject_Z (paritySign x).
Proof.
  unfold RenderWeave.factors. rewrite pattern_plain. unfold paritySign. simpl.
  split.
  - destruct (Z.rem y 2 =? 0)%Z; reflexivity.
  - destruct (Z.rem x 2 =? 0)%Z; reflexivity.
Qed.

Lemma plain_destX (x y : Z) :
  RenderWeave.destX settings width x y
  == inject_Z ((x * T + hs * paritySign y) mod width).
Proof.
  unfold RenderWeave.destX. apply js_wrap_Z; [exact width_pos|].
  unfold RenderWeave.shiftX. rewrite (proj1 (plain_factors x y)).
  rewrite (sx_int settings x T tileSize_integral tileSize_valid), horizontal_integral.
  now rewrite <- inject_Z_mult, <- inject_Z_plus.
Qed.

Lemma plain_destY (x y : Z) :
  RenderWeave.destY settings height x y
  == inject_Z ((y * T + vs * paritySign x) mod height).
Proof.
  unfold RenderWeave.destY. apply js_wrap_Z; [exact height_pos|].
  unfold RenderWeave.shiftY. rewrite (proj2 (plain_factors x y)).
  rewrite (sy_int settings y T tileSize_integral tileSize_valid), vertical_integral.
  now rewrite <- inject_Z_mult, <- inject_Z_plus.
Qed.

Section Pixel.

Variables tempCanvas : Raster.
Variables px py : Z.

Hypothesis temp_width : rwidth tempCanvas = width.
Hypothesis temp_height : rheight tempCanvas = height.
Hypothesis pixel_range : (0 <= px < width)%Z /\ (0 <= py < height)%Z.

(** What one turn of the loop does to the pixel [(px, py)]. *)
Lemma drawTile_pixel (ctx : Raster) (x y : Z) :
  rwidth ctx = width -> rheight ctx = height ->
  (0 <= x)%Z /\ (x * T < width)%Z -> (0 <= y)%Z /\ (y * T < height)%Z ->
  let qx := ((px - hs * paritySign y) mod width)%Z in
  let qy := ((py - vs * paritySign x) mod height)%Z in
  (RenderWeave.tileWrites Math_sin settings width height x y ctx tempCanvas px py = true
   <-> x = (qx / T)%Z /\ y = (qy / T)%Z) /\
  rpix (RenderWeave.drawTile Math_sin browser settings width height x y ctx tempCanvas) px py
  = if RenderWeave.tileWrites Math_sin settings width height x y ctx tempCanvas px py
    then sourceOver browser (rpix tempCanvas qx qy) (rpix ctx px py)
    else rpix ctx px py.
Proof.
  intros Cw Ch Hx Hy qx qy.
  unfold RenderWeave.tileWrites, RenderWeave.drawTile.
  destruct (no_jump x y) as [-> ->].
  set (dxz := ((x * T + hs * paritySign y) mod width)%Z).
  set (dyz := ((y * T + vs * paritySign x) mod height)%Z).
  assert (Rx : (0 <= dxz < width)%Z) by (apply Z.mod_pos_bound; lia).
  assert (Ry : (0 <= dyz < height)%Z) by (apply Z.mod_pos_bound; lia).
  assert (Hb : inBounds ctx px py = true) by (unfold inBounds; rewrite Cw, Ch; lia).
  destruct (drawWrapped_pixel browser settings width height x y T tileSize_integral
              tileSize_valid Hx Hy ctx tempCanvas _ _ dxz dyz px py
              (plain_destX x y) (plain_destY x y) Rx Ry Cw Ch temp_width temp_height Hb)
    as [Ecov Epix].
  cbv zeta in Ecov, Epix. rewrite Ecov, Epix.
  destruct (axis_tiling width T x (hs * paritySign y) px) as [Ax Sx]; try lia.
  destruct (axis_tiling height T y (vs * paritySign x) py) as [Ay Sy]; try lia.
  fold dxz in Ax, Sx. fold dyz in Ay, Sy. fold qx in Ax, Sx. fold qy in Ay, Sy.
  split.
  - rewrite andb_true_iff, !Z.ltb_lt. tauto.
  - destruct ((px - dxz) mod width <? Z.min T (width - x * T))%Z eqn:U;
      destruct ((py - dyz) mod height <? Z.min T (height - y * T))%Z eqn:V;
      cbn [andb]; try reflexivity.
    apply Z.ltb_lt in U, V. now rewrite (Sx U), (Sy V).
Qed.

Let step (c : Raster) (t : Z * Z) : Raster :=
  RenderWeave.drawTile Math_sin browser settings width height (fst t) (snd t) c tempCanvas.

Let inGrid (t : Z * Z) : Prop :=
  ((0 <= fst t)%Z /\ (fst t * T < width)%Z) /\
  ((0 <= snd t)%Z /\ (snd t * T < height)%Z).

Let writes (t : Z * Z) : Prop :=
  forall c, rwidth c = width -> rheight c = height ->
  RenderWeave.tileWrites Math_sin settings width height (fst t) (snd t) c tempCanvas px py
  = true.

Lemma step_dims (c : Raster) (t : Z * Z) :
  rwidth c = width -> rheight c = height ->
  rwidth (step c t) = width /\ rheight (step c t) = height.
Proof.
  intros Cw Ch. unfold step, RenderWeave.drawTile.
  destruct (drawWrapped_dims browser settings width height (fst t) (snd t) c tempCanvas
              (RenderWeave.finalDestX Math_sin settings width (fst t) (snd t))
              (RenderWeave.finalDestY Math_sin settings height (fst t) (snd t)))
    as [E1 E2].
  split; congruence.
Qed.

(** Tiles that do not write the pixel leave it as it was. *)
Lemma weave_untouched (l : list (Z * Z)) (c : Raster) :
  rwidth c = width -> rheight c = height ->
  (forall t, In t l -> inGrid t /\ ~ writes t) ->
  rpix (fold_left step l c) px py = rpix c px py.
Proof.
  revert c. induction l as [|t l IH]; intros c Cw Ch Hl; [reflexivity|].
  cbn [fold_left]. destruct (step_dims c t Cw Ch) as [Sw Sh].
  rewrite IH by (auto; intros t' Ht'; apply Hl; now right).
  destruct (Hl t (or_introl eq_refl)) as [[Gx Gy] Nw].
  unfold step at 1.
  destruct (drawTile_pixel c (fst t) (snd t) Cw Ch Gx Gy) as [Iff ->].
  destruct (RenderWeave.tileWrites _ _ _ _ _ _ c tempCanvas px py) eqn:E; [|reflexivity].
  exfalso. apply Nw. intros c' Cw' Ch'.
  apply (drawTile_pixel c' (fst t) (snd t) Cw' Ch' Gx Gy).
  now apply Iff.
Qed.

(** When a single tile of the list draws on the pixel, the pixel ends with
    the composite of what that tile drew over what the pixel was. *)
Lemma weave_single_writer (l : list (Z * Z)) (c : Raster) (t0 : Z * Z) :
  NoDup l ->
  rwidth c = width -> rheight c = height ->
  (forall t, In t l -> inGrid t) ->
  In t0 l -> writes t0 ->
  (forall t, In t l -> writes t -> t = t0) ->
  rpix (fold_left step l c) px py
  = sourceOver browser
      (rpix tempCanvas ((px - hs * paritySign (snd t0)) mod width)
                       ((py - vs * paritySign (fst t0)) mod height))
      (rpix c px py).
Proof.
  revert c. induction l as [|t l IH]; intros c Nd Cw Ch Hg Hin Hw Hu; [destruct Hin|].
  cbn [fold_left]. destruct (step_dims c t Cw Ch) as [Sw Sh].
  apply NoDup_cons_iff in Nd. destruct Nd as [Nt Nl].
  destruct Hin as [-> | Hin].
  - rewrite weave_untouched; auto.
    + destruct (Hg t0 (or_introl eq_refl)) as [Gx Gy].
      destruct (drawTile_pixel c (fst t0) (snd t0) Cw Ch Gx Gy) as [_ E].
      unfold step. rewrite E, (Hw c Cw Ch). reflexivity.
    + intros t' Ht'. split; [apply Hg; now right|].
      intros W'. apply Nt. rewrite <- (Hu t' (or_intror Ht') W'). exact Ht'.
  - rewrite IH; auto.
    + f_equal. unfold step.
      destruct (Hg t (or_introl eq_refl)) as [Gx Gy].
      destruct (drawTile_pixel c (fst t) (snd t) Cw Ch Gx Gy) as [Iff ->].
      destruct (RenderWeave.tileWrites _ _ _ _ _ _ c tempCanvas px py) eqn:E; [|reflexivity].
      exfalso. apply Nt.
      assert (W' : writes t).
      { intros c' Cw' Ch'. apply (drawTile_pixel c' (fst t) (snd t) Cw' Ch' Gx Gy).
        now apply Iff. }
      rewrite (Hu t (or_introl eq_refl) W'). exact Hin.
    + intros t' Ht'. apply Hg. now right.
    + intros t' Ht'. apply Hu. now right.
Qed.

End Pixel.

End PlainWeave.

(** ** One shifted axis *)

Lemma mod_shift_inj (len a b c : Z) :
  (0 < len)%Z -> (0 <= a < len)%Z -> (0 <= b < len)%Z ->
  ((a - c) mod len = (b - c) mod len)%Z -> a = b.
Proof.
  intros Hl Ha Hb E.
  assert (E' : (((a - c) mod len + c) mod len = ((b - c) mod len + c) mod len)%Z)
    by now rewrite E.
  rewrite !Zplus_mod_idemp_l in E'.
  replace (a - c + c)%Z with a in E' by lia.
  replace (b - c + c)%Z with b in E' by lia.
  rewrite !Z.mod_small in E' by lia. exact E'.
Qed.

Lemma shift_zero (len p k : Z) :
  (0 <= p < len)%Z -> ((p - 0 * k) mod len)%Z = p.
Proof. intros Hp. rewrite Z.mul_0_l, Z.sub_0_r. apply Z.mod_small. lia. Qed.

Section OneAxis.

Variables T hs vs width height : Z.

Hypothesis tile_pos : (0 < T)%Z.
Hypothesis width_pos : (0 < width)%Z.
Hypothesis height_pos : (0 < height)%Z.
Hypothesis one_axis : hs = 0%Z \/ vs = 0%Z.

Let source := plainSource T hs vs width height.

Lemma source_in_coords (p : Z * Z) : In (source p) (coords width height).
Proof.
  apply in_coords. unfold source, plainSource. simpl.
  split; apply Z.mod_pos_bound; assumption.
Qed.

Lemma source_injective (p p' : Z * Z) :
  In p (coords width height) -> In p' (coords width height) ->
  source p = source p' -> p = p'.
Proof.
  rewrite !in_coords. destruct p as [a b], p' as [a' b']. simpl.
  intros [Ha Hb] [Ha' Hb'] E. unfold source, plainSource in E. simpl in E.
  inversion E as [[E1 E2]]. clear E.
  destruct one_axis as [-> | ->].
  - rewrite !shift_zero in E1 by assumption. subst a'.
    apply mod_shift_inj in E2; try assumption. now subst.
  - rewrite !shift_zero in E2 by assumption. subst b'.
    apply mod_shift_inj in E1; try assumption. now subst.
Qed.

Lemma source_permutes :
  Permutation (map source (coords width height)) (coords width height).
Proof.
  apply NoDup_Permutation_bis.
  - apply Injective_map_NoDup_in; [|apply NoDup_coords].
    intros p p'. apply source_injective.
  - now rewrite length_map.
  - intros q Hq. apply in_map_iff in Hq. destruct Hq as (p & <- & _).
    apply source_in_coords.
Qed.

(** The one tile whose torus rectangle holds the pixel. *)
Lemma writer_unique (px py x y : Z) :
  (0 <= px < width)%Z -> (0 <= py < height)%Z ->
  (x = ((px - hs * paritySign y) mod width / T)%Z /\
   y = ((py - vs * paritySign x) mod height / T)%Z)
  <-> (x, y) = ((fst (source (px, py)) / T)%Z, (snd (source (px, py)) / T)%Z).
Proof.
  intros Hx Hy. unfold source, plainSource. simpl.
  destruct one_axis as [-> | ->].
  - rewrite !shift_zero by assumption. split.
    + intros [-> ->]. reflexivity.
    + intros E. inversion E. subst. split; reflexivity.
  - rewrite !shift_zero by assumption. split.
    + intros [-> ->]. reflexivity.
    + intros E. inversion E. subst. split; reflexivity.
Qed.

Lemma writer_in_grid (p : Z * Z) :
  let q := source p in
  ((0 <= fst q / T)%Z /\ (fst q / T * T < width)%Z) /\
  ((0 <= snd q / T)%Z /\ (snd q / T * T < height)%Z).
Proof.
  intros q.
  assert (Hq : In q (coords width height)) by apply source_in_coords.
  apply in_coords in Hq. destruct Hq as [Qx Qy].
  pose proof (Z.mul_div_le (fst q) T tile_pos).
  pose proof (Z.mul_div_le (snd q) T tile_pos).
  repeat split; try (apply Z.div_pos; lia); lia.
Qed.

End OneAxis.

Lemma channelSum_permutation (channel : Pixel -> Z) (l l' : list Pixel) :
  Permutation l l' ->
  fold_right Z.add 0%Z (map channel l) = fold_right Z.add 0%Z (map channel l').
Proof.
  induction 1 as [| a l l' _ IH | a b l | l1 l2 l3 _ IH1 _ IH2]; simpl; lia.
Qed.

Lemma fastPath_integral (settings : ProcessorSettings) (hs vs : Z) :
  scatterIntensity settings == 0 ->
  horizontalShift settings == inject_Z hs ->
  verticalShift settings == inject_Z vs ->
  RenderWeave.fastPath settings = true <-> hs = 0%Z /\ vs = 0%Z.
Proof.
  intros Hs Hh Hv. rewrite fastPath_iff, Hs, Hh, Hv.
  assert (A : forall k : Z, Qabs (inject_Z k) < 0.5 <-> k = 0%Z).
  { intros k. rewrite Qabs_Qlt_condition. split.
    - intros [L U].
      assert (inject_Z (-1) < inject_Z k)
        by (apply Qlt_trans with (- 0.5); [reflexivity | exact L]).
      assert (inject_Z k < inject_Z 1)
        by (apply Qlt_trans with 0.5; [exact U | reflexivity]).
      rewrite <- Zlt_Qlt in *. lia.
    - intros ->. split; reflexivity. }
  rewrite !A. split; [tauto|]. intros [? ?]. repeat split; auto.
Qed.

Lemma source_consistent (T hs vs width height px py : Z) :
  hs = 0%Z \/ vs = 0%Z -> (0 <= px < width)%Z -> (0 <= py < height)%Z ->
  let q := plainSource T hs vs width height (px, py) in
  ((px - hs * paritySign (snd q / T)) mod width)%Z = fst q /\
  ((py - vs * paritySign (fst q / T)) mod height)%Z = snd q.
Proof.
  intros [-> | ->] Hx Hy; unfold plainSource; cbn [fst snd];
    rewrite !shift_zero by assumption; split; reflexivity.
Qed.

Lemma weave_dims (Math_sin : Q -> Q) (browser : Browser) (settings : ProcessorSettings)
    (width height : Z) (ctx tempCanvas : Raster) :
  rwidth (RenderWeave.weave Math_sin browser settings width height ctx tempCanvas) = rwidth ctx /\
  rheight (RenderWeave.weave Math_sin browser settings width height ctx tempCanvas) = rheight ctx.
Proof.
  unfold RenderWeave.weave.
  generalize (RenderWeave.tiles settings width height) as l.
  intros l. revert ctx. induction l as [|t l IH]; intros c; simpl; [auto|].
  destruct (IH (RenderWeave.drawTile Math_sin browser settings width height (fst t) (snd t)
                  c tempCanvas)) as [E1 E2].
  rewrite E1, E2. unfold RenderWeave.drawTile. apply drawWrapped_dims.
Qed.




Lemma seam_aware_composite_witness :
  let s := mkSettings 2 1 1 0 plain 100 0 in
  let out := RenderWeave.drawWrapped sampleBrowser s 4 4 1 1 (mkRaster 4 4 (fun _ _ => blank)) img4 3 3 in
  getPixel out 3 3 = getPixel img4 2 2 /\ getPixel out 0 3 = getPixel img4 3 2 /\
  getPixel out 3 0 = getPixel img4 2 3 /\ getPixel out 0 0 = getPixel img4 3 3.
Proof.
  intros s out.
  destruct (seam_aware_composite sampleBrowser s 4 4 1 1 (mkRaster 4 4 (fun _ _ => blank)) img4 3 3)
    as (_ & _ & _ & R).
  destruct (R 2%Z 3%Z 3%Z) as [Rec _]; try reflexivity; try (simpl; lia).
  split; [|split; [|split]].
  - apply (Rec 0%Z 0%Z); simpl; lia.
  - apply (Rec 1%Z 0%Z); simpl; lia.
  - apply (Rec 0%Z 1%Z); simpl; lia.
  - apply (Rec 1%Z 1%Z); simpl; lia.
Defined.

(** * More of the engine *)

(** ** The grid and its tiles *)

Lemma Qfloor_unique (q : Q) (z : Z) :
  inject_Z z <= q -> q < inject_Z z + 1 -> Qfloor q = z.
Proof.
  intros L U.
  pose proof (Qfloor_le q) as FL. pose proof (Qlt_floor q) as FU.
  rewrite inject_Z_plus in FU. change (inject_Z 1) with 1 in FU.
  assert (A : inject_Z (Qfloor q) < inject_Z (z + 1)).
  { rewrite inject_Z_plus. change (inject_Z 1) with 1. lra. }
  assert (B : inject_Z z < inject_Z (Qfloor q + 1)).
  { rewrite inject_Z_plus. change (inject_Z 1) with 1. lra. }
  rewrite <- Zlt_Qlt in A, B. lia.
Qed.

Lemma in_tiles_iff (settings : ProcessorSettings) (width height x y : Z) :
  In (x, y) (RenderWeave.tiles settings width height) <->
  ((0 <= x)%Z /\ inject_Z x * RenderWeave.tileSize settings < inject_Z width) /\
  ((0 <= y)%Z /\ inject_Z y * RenderWeave.tileSize settings < inject_Z height).
Proof.
  unfold RenderWeave.tiles. rewrite in_grid, !in_range. cbn [fst snd].
  unfold RenderWeave.cols, RenderWeave.rows, Math_ceil. rewrite !Qceiling_gt.
  pose proof (tileSize_ge_2 settings) as HT.
  set (T := RenderWeave.tileSize settings) in *.
  assert (D : forall a b : Q, a < b / T <-> a * T < b).
  { intros a b. split; intros H.
    - setoid_replace b with (b / T * T) by (field; lra).
      apply Qmult_lt_compat_r; [lra | exact H].
    - apply Qlt_shift_div_l; [lra | exact H]. }
  rewrite !D. tauto.
Qed.

(** The extent of a tile along one axis: its offset [i * T] and its
    length [min (T, size - i * T)]. *)
Lemma axis_extent (T size : Q) (i : Z) :
  2 <= T -> (0 <= i)%Z -> inject_Z i * T < size ->
  0 <= inject_Z i * T /\
  0 < Qmin T (size - inject_Z i * T) /\
  Qmin T (size - inject_Z i * T) <= T /\
  inject_Z i * T + Qmin T (size - inject_Z i * T) <= size /\
  (Qmin T (size - inject_Z i * T) == T \/
   inject_Z i * T + Qmin T (size - inject_Z i * T) == size).
Proof.
  intros HT Hi C.
  assert (P : 0 <= inject_Z i * T).
  { apply Qmult_le_0_compat; [|lra]. change 0 with (inject_Z 0). now rewrite <- Zle_Qle. }
  set (s := inject_Z i * T) in *. clearbody s.
  destruct (Q.min_spec T (size - s)) as [[L E] | [L E]]; rewrite E.
  - repeat split; first [lra | left; reflexivity].
  - repeat split; first [lra | right; lra].
Qed.

(** X1.  The source rectangle of every tile of the grid lies inside the
    image: its corner is not negative, its width and height are positive
    and at most the tile size, it ends at or before the right and the lower
    edge, and it is smaller than the tile size only where it ends exactly
    on that edge. *)
Theorem tile_source_rectangle (settings : ProcessorSettings) (width height x y : Z) :
  In (x, y) (RenderWeave.tiles settings width height) ->
  let T := RenderWeave.tileSize settings in
  let sx := RenderWeave.sx settings x in
  let sy := RenderWeave.sy settings y in
  let w := RenderWeave.w settings width x in
  let h := RenderWeave.h settings height y in
  (0 <= sx /\ 0 < w /\ w <= T /\ sx + w <= inject_Z width /\
   (w == T \/ sx + w == inject_Z width)) /\
  (0 <= sy /\ 0 < h /\ h <= T /\ sy + h <= inject_Z height /\
   (h == T \/ sy + h == inject_Z height)).
Proof.
  intros Hin. cbv zeta.
  apply in_tiles_iff in Hin. destruct Hin as [[Hx Cx] [Hy Cy]].
  pose proof (tileSize_ge_2 settings) as HT.
  unfold RenderWeave.w, RenderWeave.h, RenderWeave.sx, RenderWeave.sy, Math_min.
  split.
  - exact (axis_extent _ (inject_Z width) x HT Hx Cx).
  - exact (axis_extent _ (inject_Z height) y HT Hy Cy).
Qed.

Lemma Qdiv_bounds (a b c T : Q) :
  0 < T -> (a <= b / T <-> a * T <= b) /\ (b / T < c <-> b < c * T).
Proof.
  intros HT. split; split; intros H.
  - setoid_replace b with (b / T * T) by (field; lra).
    apply Qmult_le_compat_r; [exact H | lra].
  - apply Qle_shift_div_l; [lra | exact H].
  - setoid_replace b with (b / T * T) by (field; lra).
    apply Qmult_lt_compat_r; [lra | exact H].
  - apply Qlt_shift_div_r; [lra | exact H].
Qed.

(** X2.  The source rectangles partition the image: every pixel of the
    image lies in the rectangle of the tile
    [(floor (px / tileSize), floor (py / tileSize))], that tile is one the
    loop visits, and no other tile of the loop contains the pixel. *)
Theorem source_tiles_partition (settings : ProcessorSettings)
    (width height px py : Z) :
  (0 <= px < width)%Z -> (0 <= py < height)%Z ->
  let T := RenderWeave.tileSize settings in
  let inTile := fun tile : Z * Z =>
    (RenderWeave.sx settings (fst tile) <= inject_Z px /\
     inject_Z px < RenderWeave.sx settings (fst tile)
                   + RenderWeave.w settings width (fst tile)) /\
    (RenderWeave.sy settings (snd tile) <= inject_Z py /\
     inject_Z py < RenderWeave.sy settings (snd tile)
                   + RenderWeave.h settings height (snd tile)) in
  let home := (Qfloor (inject_Z px / T), Qfloor (inject_Z py / T)) in
  In home (RenderWeave.tiles settings width height) /\
  inTile home /\
  (forall tile, In tile (RenderWeave.tiles settings width height) ->
     inTile tile -> tile = home).
Proof.
  intros Hx Hy. cbv zeta.
  pose proof (tileSize_ge_2 settings) as HT.
  unfold RenderWeave.w, RenderWeave.h, RenderWeave.sx, RenderWeave.sy, Math_min.
  set (T := RenderWeave.tileSize settings) in *.
  assert (HT0 : 0 < T) by lra.
  assert (Px : 0 <= inject_Z px < inject_Z width).
  { change 0 with (inject_Z 0). rewrite <- Zle_Qle, <- Zlt_Qlt. lia. }
  assert (Py : 0 <= inject_Z py < inject_Z height).
  { change 0 with (inject_Z 0). rewrite <- Zle_Qle, <- Zlt_Qlt. lia. }
  assert (Home : forall (p : Z) (size : Q), 0 <= inject_Z p < size ->
            let k := Qfloor (inject_Z p / T) in
            (0 <= k)%Z /\ inject_Z k * T <= inject_Z p /\
            inject_Z p < inject_Z k * T + T /\ inject_Z k * T < size).
  { intros p size Hp k.
    pose proof (Qfloor_le (inject_Z p / T)) as FL.
    pose proof (Qlt_floor (inject_Z p / T)) as FU.
    rewrite inject_Z_plus in FU. change (inject_Z 1) with 1 in FU. fold k in FL, FU.
    apply (Qdiv_bounds (inject_Z k) (inject_Z p) (inject_Z k + 1) T HT0) in FL.
    apply (Qdiv_bounds (inject_Z k) (inject_Z p) (inject_Z k + 1) T HT0) in FU.
    assert (K0 : (0 <= k)%Z).
    { change 0%Z with (Qfloor 0). apply Qfloor_resp_le.
      apply Qle_shift_div_l; lra. }
    repeat split; try assumption; lra. }
  destruct (Home px (inject_Z width) Px) as (Kx & Lx & Ux & Wx).
  destruct (Home py (inject_Z height) Py) as (Ky & Ly & Uy & Wy).
  cbv zeta in Kx, Lx, Ux, Wx, Ky, Ly, Uy, Wy.
  split; [|split].
  - apply in_tiles_iff. fold T. auto.
  - cbn [fst snd].
    set (sx := inject_Z (Qfloor (inject_Z px / T)) * T) in *.
    set (sy := inject_Z (Qfloor (inject_Z py / T)) * T) in *.
    split; split; try assumption.
    + destruct (Q.min_spec T (inject_Z width - sx)) as [[_ E] | [_ E]]; rewrite E; lra.
    + destruct (Q.min_spec T (inject_Z height - sy)) as [[_ E] | [_ E]]; rewrite E; lra.
  - intros [x y] Hin [[Ax Bx] [Ay By]]. cbn [fst snd] in *.
    assert (Mx : Qmin T (inject_Z width - inject_Z x * T) <= T) by apply Q.le_min_l.
    assert (My : Qmin T (inject_Z height - inject_Z y * T) <= T) by apply Q.le_min_l.
    f_equal; symmetry; apply Qfloor_unique.
    + apply (Qdiv_bounds (inject_Z x) (inject_Z px) (inject_Z x + 1) T HT0). exact Ax.
    + apply (Qdiv_bounds (inject_Z x) (inject_Z px) (inject_Z x + 1) T HT0). lra.
    + apply (Qdiv_bounds (inject_Z y) (inject_Z py) (inject_Z y + 1) T HT0). exact Ay.
    + apply (Qdiv_bounds (inject_Z y) (inject_Z py) (inject_Z y + 1) T HT0). lra.
Qed.

Lemma source_tiles_partition_witness :
  let s := mkSettings 2.5 0 0 0 plain 100 0 in
  In (Qfloor (6 / RenderWeave.tileSize s), Qfloor (1 / RenderWeave.tileSize s))
     (RenderWeave.tiles s 7 3).
Proof.
  intros s.
  apply (source_tiles_partition s 7 3 6 1); lia.
Defined.

Lemma tile_source_rectangle_witness :
  let s := mkSettings 2.5 0 0 0 plain 100 0 in
  RenderWeave.sx s 2 + RenderWeave.w s 7 2 <= 7 /\ 0 < RenderWeave.w s 7 2.
Proof.
  intros s.
  destruct (tile_source_rectangle s 7 3 2 1) as [(_ & P & _ & Q & _) _].
  - vm_compute. tauto.
  - split; [exact Q | exact P].
Defined.

(** ** The fragments of one tile *)

(** A call at an integral position draws inside its destination rectangle. *)
Lemma copies_inside (c src : Raster) (sx sy w h dx dy : Q) (a b px py : Z) :
  dx == inject_Z a -> dy == inject_Z b ->
  copies c src sx sy w h dx dy px py = true ->
  (dx <= inject_Z px /\ inject_Z px < dx + w) /\
  (dy <= inject_Z py /\ inject_Z py < dy + h).
Proof.
  intros Hx Hy. unfold copies, touches. rewrite !andb_true_iff, !Qltb_lt.
  intros (_ & (((X0 & X1) & Y0) & Y1)).
  pose proof (Q.le_max_l dx (dx - sx)) as M1. pose proof (Q.le_max_l dy (dy - sy)) as M2.
  pose proof (Q.le_min_l (dx + w) (dx - sx + inject_Z (rwidth src))) as M3.
  pose proof (Q.le_min_l (dy + h) (dy - sy + inject_Z (rheight src))) as M4.
  assert (A1 : inject_Z a < inject_Z (px + 1)).
  { rewrite inject_Z_plus. change (inject_Z 1) with 1. rewrite <- Hx. lra. }
  assert (A2 : inject_Z b < inject_Z (py + 1)).
  { rewrite inject_Z_plus. change (inject_Z 1) with 1. rewrite <- Hy. lra. }
  rewrite <- Zlt_Qlt in A1, A2.
  assert (B1 : inject_Z a <= inject_Z px) by (rewrite <- Zle_Qle; lia).
  assert (B2 : inject_Z b <= inject_Z py) by (rewrite <- Zle_Qle; lia).
  rewrite <- Hx in B1. rewrite <- Hy in B2.
  repeat split; lra.
Qed.

(** X4.  At an integral position [drawWrapped] never draws a pixel twice:
    of the positions at which it draws a tile of the grid (the single
    position when the tile fits, the visible ones among the four
    otherwise), at most one draws on a given pixel of the canvas. *)
Theorem fragments_disjoint (settings : ProcessorSettings) (width height x y : Z)
    (ctx tempCanvas : Raster) (dx dy : Q) (dxz dyz px py : Z) (pos1 pos2 : Q * Q) :
  In (x, y) (RenderWeave.tiles settings width height) ->
  dx == inject_Z dxz -> dy == inject_Z dyz ->
  let drawn := RenderWeave.drawnAt settings width height x y dx dy in
  let writes := fun pos : Q * Q =>
    copies ctx tempCanvas (RenderWeave.sx settings x) (RenderWeave.sy settings y)
      (RenderWeave.w settings width x) (RenderWeave.h settings height y)
      (fst pos) (snd pos) px py in
  In pos1 drawn -> In pos2 drawn ->
  writes pos1 = true -> writes pos2 = true ->
  pos1 = pos2.
Proof.
  intros Hin Hdx Hdy drawn writes H1 H2 W1 W2.
  pose proof (tileSize_ge_2 settings) as HT2.
  pose proof Hin as Hin'. apply in_tiles_iff in Hin'. destruct Hin' as [[Hx Cx] [Hy Cy]].
  assert (Sx : 0 <= RenderWeave.sx settings x)
    by exact (proj1 (axis_extent _ (inject_Z width) x HT2 Hx Cx)).
  assert (Sy : 0 <= RenderWeave.sy settings y)
    by exact (proj1 (axis_extent _ (inject_Z height) y HT2 Hy Cy)).
  assert (Bx : RenderWeave.sx settings x + RenderWeave.w settings width x <= inject_Z width)
    by exact (proj1 (proj2 (proj2 (proj2 (axis_extent _ (inject_Z width) x HT2 Hx Cx))))).
  assert (By : RenderWeave.sy settings y + RenderWeave.h settings height y <= inject_Z height)
    by exact (proj1 (proj2 (proj2 (proj2 (axis_extent _ (inject_Z height) y HT2 Hy Cy))))).
  clear HT2 Hx Cx Hy Cy.
  assert (P : forall pos, In pos drawn ->
            In pos (RenderWeave.positions width height dx dy)).
  { intros pos Hp. unfold drawn, RenderWeave.drawnAt in Hp.
    destruct (RenderWeave.fits settings width height x y dx dy).
    - destruct Hp as [<- | []]. left. reflexivity.
    - apply filter_In in Hp. apply Hp. }
  assert (I : forall pos, In pos (RenderWeave.positions width height dx dy) ->
            exists a b : Z, fst pos == inject_Z a /\ snd pos == inject_Z b).
  { intros pos [<- | [<- | [<- | [<- | []]]]]; cbn [fst snd].
    - exists dxz, dyz. split; assumption.
    - exists (dxz - width)%Z, dyz. rewrite <- inject_Z_sub, Hdx. split; [reflexivity | assumption].
    - exists dxz, (dyz - height)%Z. rewrite <- inject_Z_sub, Hdy. split; [assumption | reflexivity].
    - exists (dxz - width)%Z, (dyz - height)%Z. rewrite <- !inject_Z_sub, Hdx, Hdy.
      split; reflexivity. }
  apply P in H1. apply P in H2.
  destruct (I pos1 H1) as (a1 & b1 & A1 & B1). destruct (I pos2 H2) as (a2 & b2 & A2 & B2).
  apply (copies_inside _ _ _ _ _ _ _ _ a1 b1 px py A1 B1) in W1.
  apply (copies_inside _ _ _ _ _ _ _ _ a2 b2 px py A2 B2) in W2.
  clear I A1 B1 A2 B2 a1 b1 a2 b2.
  set (w := RenderWeave.w settings width x) in *.
  set (h := RenderWeave.h settings height y) in *.
  set (sx := RenderWeave.sx settings x) in *.
  set (sy := RenderWeave.sy settings y) in *.
  clearbody w h sx sy.
  unfold RenderWeave.positions in H1, H2.
  destruct H1 as [<- | [<- | [<- | [<- | []]]]];
    destruct H2 as [<- | [<- | [<- | [<- | []]]]];
    cbn [fst snd] in W1, W2; try reflexivity; exfalso; lra.
Qed.

Lemma fragments_disjoint_witness :
  let s := mkSettings 2 1 1 0 plain 100 0 in
  (3 - inject_Z 4, 3) = (3 - inject_Z 4, 3).
Proof.
  intros s.
  apply (fragments_disjoint s 4 4 1 1 (mkRaster 4 4 (fun _ _ => blank)) img4 3 3 3 3 0 3).
  - vm_compute. tauto.
  - reflexivity.
  - reflexivity.
  - vm_compute. tauto.
  - vm_compute. tauto.
  - reflexivity.
  - reflexivity.
Defined.

(** ** The size of the loop *)

Lemma length_grid (xs ys : list Z) :
  length (flat_map (fun y => map (fun x => (x, y)) xs) ys)
  = (length ys * length xs)%nat.
Proof.
  induction ys as [|y ys IH]; simpl; [reflexivity|].
  now rewrite length_app, length_map, IH.
Qed.

Lemma length_range (n : Z) : length (range n) = Z.to_nat n.
Proof. unfold range. now rewrite length_map, length_seq. Qed.

(** X3.  The loop takes [rows * cols] turns.  Whatever tile size is
    configured there are at most [ceil (width / 2)] columns and
    [ceil (height / 2)] rows; an image without width or height gives no
    turn at all, and every other image has the tile [(0, 0)]. *)
Theorem tile_count (settings : ProcessorSettings) (width height : Z) :
  length (RenderWeave.tiles settings width height)
  = (Z.to_nat (RenderWeave.rows settings height)
     * Z.to_nat (RenderWeave.cols settings width))%nat /\
  ((0 <= width)%Z ->
   (RenderWeave.cols settings width <= Math_ceil (inject_Z width / 2))%Z) /\
  ((0 <= height)%Z ->
   (RenderWeave.rows settings height <= Math_ceil (inject_Z height / 2))%Z) /\
  ((width <= 0)%Z \/ (height <= 0)%Z ->
   RenderWeave.tiles settings width height = []) /\
  ((0 < width)%Z -> (0 < height)%Z ->
   In (0%Z, 0%Z) (RenderWeave.tiles settings width height)).
Proof.
  pose proof (tileSize_ge_2 settings) as HT.
  assert (Bound : forall size : Z, (0 <= size)%Z ->
            (Math_ceil (inject_Z size / RenderWeave.tileSize settings)
             <= Math_ceil (inject_Z size / 2))%Z).
  { intros size Hs. unfold Math_ceil. apply Qceiling_resp_le.
    assert (S0 : 0 <= inject_Z size) by (change 0 with (inject_Z 0); now rewrite <- Zle_Qle).
    set (T := RenderWeave.tileSize settings) in *.
    apply Qle_shift_div_l; [lra|].
    assert (R1 : 2 / T <= 1) by (apply Qle_shift_div_r; lra).
    assert (R0 : 0 <= 2 / T) by (apply Qle_shift_div_l; lra).
    setoid_replace (inject_Z size / T * 2) with (inject_Z size * (2 / T)) by (field; lra).
    apply Qle_trans with (inject_Z size * 1); [|lra].
    apply Qmult_le_compat_nonneg; split; lra. }
  assert (Empty : forall size : Z, (size <= 0)%Z ->
            (Math_ceil (inject_Z size / RenderWeave.tileSize settings) <= 0)%Z).
  { intros size Hs. unfold Math_ceil. change 0%Z with (Qceiling 0).
    apply Qceiling_resp_le.
    assert (S0 : inject_Z size <= 0) by (change 0 with (inject_Z 0); now rewrite <- Zle_Qle).
    apply Qle_shift_div_r; lra. }
  split; [|split; [|split; [|split]]].
  - unfold RenderWeave.tiles. now rewrite length_grid, !length_range.
  - apply Bound.
  - apply Bound.
  - intros Hz. apply length_zero_iff_nil.
    unfold RenderWeave.tiles. rewrite length_grid, !length_range.
    unfold RenderWeave.rows, RenderWeave.cols.
    destruct Hz as [Hz | Hz]; apply Empty in Hz; lia.
  - intros Hw Hh. apply in_tiles_iff.
    assert (0 < inject_Z width) by (change 0 with (inject_Z 0); now rewrite <- Zlt_Qlt).
    assert (0 < inject_Z height) by (change 0 with (inject_Z 0); now rewrite <- Zlt_Qlt).
    repeat split; try lia; change (inject_Z 0) with 0; lra.
Qed.

(** ** The two canvases after a call *)

(** X6.  After a call both canvases have the size of the image, whatever
    their size was, and the temporary canvas yields a context exactly when
    it did before; when it does, the temporary canvas holds the image,
    pixel for pixel. *)
Theorem buffers_after_render (Math_sin : Q -> Q) (browser : Browser) (ctx img : Raster)
    (settings : ProcessorSettings) (tempCanvas : HTMLCanvasElement) :
  let out := fst (renderWeave Math_sin browser ctx img settings tempCanvas) in
  let temp := snd (renderWeave Math_sin browser ctx img settings tempCanvas) in
  (rwidth out = rwidth img /\ rheight out = rheight img) /\
  (rwidth (bitmap temp) = rwidth img /\ rheight (bitmap temp) = rheight img) /\
  has2d temp = has2d tempCanvas /\
  (has2d tempCanvas = true ->
   (forall px py, getPixel (bitmap temp) px py = getPixel img px py) /\
   pixels (bitmap temp) = pixels img).
Proof.
  cbv zeta. unfold renderWeave.
  destruct (resized_dims ctx (rwidth img) (rheight img)) as [Cw Ch].
  destruct (resized_dims (bitmap tempCanvas) (rwidth img) (rheight img)) as [Tw Th].
  pose proof (image_loaded browser (bitmap tempCanvas) img) as L.
  destruct (has2d tempCanvas) eqn:H2; cbn [negb].
  - destruct (RenderWeave.fastPath settings); cbn [fst snd bitmap has2d].
    + repeat split; try (simpl; assumption); try (intros _; split);
        try (now apply sameRaster_getPixel); try (now apply sameRaster_pixels).
    + destruct (weave_dims Math_sin browser settings (rwidth img) (rheight img)
                  (clearRect (setHeight (setWidth ctx (rwidth img)) (rheight img))
                     0 0 (rwidth img) (rheight img))
                  (drawImage3 browser
                     (clearRect
                        (setHeight (setWidth (bitmap tempCanvas) (rwidth img)) (rheight img))
                        0 0 (rwidth img) (rheight img)) img 0 0)) as [E1 E2].
      rewrite E1, E2.
      repeat split; try (simpl; assumption); try (intros _; split);
        try (now apply sameRaster_getPixel); try (now apply sameRaster_pixels).
  - cbn [fst snd bitmap has2d]. repeat split; try assumption; discriminate.
Qed.

(** X7.  When the temporary canvas yields no 2d context the engine returns
    after the resizing: a canvas that already had the size of the image is
    left as it was, and any other canvas is left blank, since setting a
    dimension resets the bitmap. *)
Theorem render_without_context (Math_sin : Q -> Q) (browser : Browser) (ctx img : Raster)
    (settings : ProcessorSettings) (tempCanvas : HTMLCanvasElement) :
  has2d tempCanvas = false ->
  let out := fst (renderWeave Math_sin browser ctx img settings tempCanvas) in
  (rwidth ctx = rwidth img -> rheight ctx = rheight img -> out = ctx) /\
  (rwidth ctx <> rwidth img \/ rheight ctx <> rheight img ->
   forall px py, getPixel out px py = blank).
Proof.
  intros H2. cbv zeta. unfold renderWeave. rewrite H2. cbn [negb fst].
  unfold setHeight, setWidth. split.
  - intros Ew Eh. rewrite Ew, Z.eqb_refl, Eh, Z.eqb_refl. reflexivity.
  - intros D px py. unfold getPixel.
    destruct (rwidth ctx =? rwidth img)%Z eqn:Ew.
    + destruct (rheight ctx =? rheight img)%Z eqn:Eh.
      * apply Z.eqb_eq in Ew, Eh. tauto.
      * cbn [rpix]. now destruct (inBounds _ px py).
    + cbn [rheight rwidth].
      destruct (rheight ctx =? rheight img)%Z eqn:Eh; cbn [rpix];
        now destruct (inBounds _ px py).
Qed.

Lemma render_without_context_witness :
  getPixel (fst (renderWeave (fun _ => 0.5) sampleBrowser emptyCanvas img4
                   (mkSettings 2 1 1 0 plain 100 0) (mkCanvas emptyCanvas false))) 1 1
  = blank.
Proof.
  refine (proj2 (render_without_context (fun _ => 0.5) sampleBrowser emptyCanvas img4
                   (mkSettings 2 1 1 0 plain 100 0) (mkCanvas emptyCanvas false)
                   eq_refl) _ 1%Z 1%Z).
  left. discriminate.
Defined.

(** ** The scatter threshold *)

(** X8.  Raising the scatter intensity, with every other field the same,
    never takes a jump back: a tile that jumps at the lower intensity jumps
    at the higher one, in the same direction and to the same place. *)
Theorem scatter_monotone (Math_sin : Q -> Q) (s s' : ProcessorSettings)
    (width height x y : Z) :
  Types.tileSize s' = Types.tileSize s ->
  horizontalShift s' = horizontalShift s ->
  verticalShift s' = verticalShift s ->
  pattern s' = pattern s ->
  seed s' = seed s ->
  scatterIntensity s <= scatterIntensity s' ->
  RenderWeave.hash Math_sin s x y < RenderWeave.threshold s ->
  RenderWeave.hash Math_sin s' x y < RenderWeave.threshold s' /\
  RenderWeave.finalDestX Math_sin s' width x y = RenderWeave.finalDestX Math_sin s width x y /\
  RenderWeave.finalDestY Math_sin s' height x y = RenderWeave.finalDestY Math_sin s height x y.
Proof.
  destruct s as [t1 h1 v1 c1 p1 o1 d1], s' as [t2 h2 v2 c2 p2 o2 d2]. simpl.
  intros -> -> -> -> -> Hc Hj.
  unfold RenderWeave.threshold in *. simpl in *.
  assert (Hj' : RenderWeave.hash Math_sin (mkSettings t1 h1 v1 c2 p1 o2 d1) x y < c2 / 100).
  { change (RenderWeave.hash Math_sin (mkSettings t1 h1 v1 c2 p1 o2 d1) x y)
      with (RenderWeave.hash Math_sin (mkSettings t1 h1 v1 c1 p1 o1 d1) x y).
    apply Qlt_le_trans with (c1 / 100); [exact Hj|].
    unfold Qdiv. apply Qmult_le_compat_r; [exact Hc | discriminate]. }
  split; [exact Hj'|].
  unfold RenderWeave.finalDestX, RenderWeave.finalDestY, RenderWeave.threshold.
  cbn [scatterIntensity].
  apply Qltb_lt in Hj, Hj'. rewrite Hj, Hj'. split; reflexivity.
Qed.

Lemma scatter_monotone_witness :
  let sin := fun _ : Q => 0.5 in
  let s := mkSettings 50 50 0 30 plain 100 7 in
  let s' := mkSettings 50 50 0 80 plain 100 7 in
  RenderWeave.finalDestX sin s' 100 1 1 = RenderWeave.finalDestX sin s 100 1 1.
Proof.
  intros sin s s'.
  apply (scatter_monotone sin s s' 100 100 1 1);
    first [reflexivity | unfold Qle; simpl; lia].
Defined.

(** X9.  The ends of the scatter slider: at an intensity of 0 or less no
    tile jumps, at 100 or more every tile jumps by one tile size, to the
    right or downward. *)
Theorem scatter_saturates (Math_sin : Q -> Q) (settings : ProcessorSettings)
    (width height x y : Z) :
  let dX := RenderWeave.destX settings width x y in
  let dY := RenderWeave.destY settings height x y in
  let fX := RenderWeave.finalDestX Math_sin settings width x y in
  let fY := RenderWeave.finalDestY Math_sin settings height x y in
  let T := RenderWeave.tileSize settings in
  (scatterIntensity settings <= 0 -> fX = dX /\ fY = dY) /\
  (100 <= scatterIntensity settings ->
   (fX = js_rem (dX + T) (inject_Z width) /\ fY = dY) \/
   (fX = dX /\ fY = js_rem (dY + T) (inject_Z height))).
Proof.
  cbv zeta.
  pose proof (pseudoRandom_range Math_sin (inject_Z x) (inject_Z y) (seed settings)) as R.
  fold (RenderWeave.hash Math_sin settings x y) in R.
  unfold RenderWeave.finalDestX, RenderWeave.finalDestY, RenderWeave.threshold.
  split; intros Hs.
  - assert (E : Qltb (RenderWeave.hash Math_sin settings x y)
                     (scatterIntensity settings / 100) = false).
    { apply Qltb_ge. apply Qle_trans with 0; [|apply R].
      apply Qle_shift_div_r; lra. }
    rewrite E. split; reflexivity.
  - assert (E : Qltb (RenderWeave.hash Math_sin settings x y)
                     (scatterIntensity settings / 100) = true).
    { apply Qltb_lt. apply Qlt_le_trans with 1; [apply R|].
      apply Qle_shift_div_l; lra. }
    rewrite E. destruct (RenderWeave.swapDirection Math_sin settings x y);
      [left | right]; split; reflexivity.
Qed.

(** ** Integral settings: the weave only moves pixels *)

Lemma js_rem_Z_nonneg (q : Q) (a m : Z) :
  (0 <= a)%Z -> (0 < m)%Z -> q == inject_Z a ->
  js_rem q (inject_Z m) == inject_Z (a mod m).
Proof.
  intros Ha Hm Hq. rewrite Hq. unfold js_rem.
  assert (P : 0 <= inject_Z a / inject_Z m).
  { apply Qle_shift_div_l.
    - change 0 with (inject_Z 0). now rewrite <- Zlt_Qlt.
    - rewrite Qmult_0_l. change 0 with (inject_Z 0). now rewrite <- Zle_Qle. }
  rewrite (Qtrunc_nonneg _ P), <- Zdiv_Qdiv, <- inject_Z_mult, inject_Z_sub.
  now rewrite Z.mod_eq by lia.
Qed.

Lemma factors_integral (settings : ProcessorSettings) (x y : Z) :
  pattern settings <> twill ->
  exists fx fy : Z,
    xFactor (RenderWeave.factors settings x y) == inject_Z fx /\
    yFactor (RenderWeave.factors settings x y) == inject_Z fy.
Proof.
  intros Hp. unfold RenderWeave.factors, getShiftFactors.
  destruct (pattern settings); [| contradiction | |]; cbn [xFactor yFactor].
  - exists (if (Z.rem y 2 =? 0)%Z then 1 else -1)%Z,
           (if (Z.rem x 2 =? 0)%Z then 1 else -1)%Z.
    split; [destruct (Z.rem y 2 =? 0)%Z | destruct (Z.rem x 2 =? 0)%Z]; reflexivity.
  - exists (Z.rem (y * 3) 5 - 2)%Z, (Z.rem (x * 3) 5 - 2)%Z.
    rewrite <- !inject_Z_sub. split; reflexivity.
  - exists (if (Z.rem (y / 2) 2 =? 0)%Z then 1 else -1)%Z,
           (if (Z.rem (x / 2) 2 =? 0)%Z then 1 else -1)%Z.
    split; [destruct (Z.rem (y / 2) 2 =? 0)%Z | destruct (Z.rem (x / 2) 2 =? 0)%Z];
      reflexivity.
Qed.

Section IntegralWeave.

Variable Math_sin : Q -> Q.
Variable browser : Browser.
Variable settings : ProcessorSettings.
Variables width height T hs vs : Z.

Hypothesis integral_factors : pattern settings <> twill.
Hypothesis tileSize_integral : Types.tileSize settings == inject_Z T.
Hypothesis tileSize_valid : (2 <= T)%Z.
Hypothesis horizontal_integral : horizontalShift settings == inject_Z hs.
Hypothesis vertical_integral : verticalShift settings == inject_Z vs.
Hypothesis width_pos : (0 < width)%Z.
Hypothesis height_pos : (0 < height)%Z.

Lemma finalDest_integral (x y : Z) :
  exists a b : Z,
    (RenderWeave.finalDestX Math_sin settings width x y == inject_Z a /\
     (0 <= a < width)%Z) /\
    (RenderWeave.finalDestY Math_sin settings height x y == inject_Z b /\
     (0 <= b < height)%Z).
Proof.
  destruct (factors_integral settings x y integral_factors) as (fx & fy & Fx & Fy).
  pose proof (tileSize_int settings T tileSize_integral tileSize_valid) as ET.
  assert (Dx : RenderWeave.destX settings width x y
               == inject_Z ((x * T + hs * fx) mod width)).
  { unfold RenderWeave.destX. apply js_wrap_Z; [exact width_pos|].
    unfold RenderWeave.shiftX.
    rewrite (sx_int settings x T tileSize_integral tileSize_valid),
      horizontal_integral, Fx.
    now rewrite <- inject_Z_mult, <- inject_Z_plus. }
  assert (Dy : RenderWeave.destY settings height x y
               == inject_Z ((y * T + vs * fy) mod height)).
  { unfold RenderWeave.destY. apply js_wrap_Z; [exact height_pos|].
    unfold RenderWeave.shiftY.
    rewrite (sy_int settings y T tileSize_integral tileSize_valid),
      vertical_integral, Fy.
    now rewrite <- inject_Z_mult, <- inject_Z_plus. }
  set (dxz := ((x * T + hs * fx) mod width)%Z) in *.
  set (dyz := ((y * T + vs * fy) mod height)%Z) in *.
  assert (Rx : (0 <= dxz < width)%Z) by (apply Z.mod_pos_bound; lia).
  assert (Ry : (0 <= dyz < height)%Z) by (apply Z.mod_pos_bound; lia).
  assert (Jx : js_rem (RenderWeave.destX settings width x y + RenderWeave.tileSize settings)
                 (inject_Z width) == inject_Z ((dxz + T) mod width)).
  { apply js_rem_Z_nonneg; try lia. now rewrite Dx, ET, <- inject_Z_plus. }
  assert (Jy : js_rem (RenderWeave.destY settings height x y + RenderWeave.tileSize settings)
                 (inject_Z height) == inject_Z ((dyz + T) mod height)).
  { apply js_rem_Z_nonneg; try lia. now rewrite Dy, ET, <- inject_Z_plus. }
  assert (Sx : (0 <= (dxz + T) mod width < width)%Z) by (apply Z.mod_pos_bound; lia).
  assert (Sy : (0 <= (dyz + T) mod height < height)%Z) by (apply Z.mod_pos_bound; lia).
  unfold RenderWeave.finalDestX, RenderWeave.finalDestY.
  destruct (Qltb _ _); [destruct (RenderWeave.swapDirection _ _ _ _)|].
  - exists ((dxz + T) mod width)%Z, dyz. auto.
  - exists dxz, ((dyz + T) mod height)%Z. auto.
  - exists dxz, dyz. auto.
Qed.

Variable tempCanvas : Raster.
Hypothesis temp_width : rwidth tempCanvas = width.
Hypothesis temp_height : rheight tempCanvas = height.
Hypothesis temp_alpha : forall qx qy, inBounds tempCanvas qx qy = true ->
  alpha (rpix tempCanvas qx qy) = 0%Z \/ alpha (rpix tempCanvas qx qy) = 255%Z.

(** A canvas that holds nothing but blank pixels and pixels of the read
    buffer. *)
Let moved (c : Raster) : Prop :=
  rwidth c = width /\ rheight c = height /\
  forall px py, inBounds c px py = true ->
    rpix c px py = blank \/
    exists qx qy, inBounds tempCanvas qx qy = true /\
                  rpix c px py = rpix tempCanvas qx qy.

Lemma drawTile_moved (c : Raster) (t : Z * Z) :
  In t (RenderWeave.tiles settings width height) ->
  moved c ->
  moved (RenderWeave.drawTile Math_sin browser settings width height (fst t) (snd t) c tempCanvas).
Proof.
  intros Hin (Cw & Ch & Cp).
  apply (in_tiles settings width height T t tileSize_integral tileSize_valid) in Hin.
  destruct Hin as [Gx Gy].
  destruct (finalDest_integral (fst t) (snd t)) as (a & b & (Ea & Ra) & (Eb & Rb)).
  unfold RenderWeave.drawTile.
  destruct (drawWrapped_dims browser settings width height (fst t) (snd t) c tempCanvas
              (RenderWeave.finalDestX Math_sin settings width (fst t) (snd t))
              (RenderWeave.finalDestY Math_sin settings height (fst t) (snd t)))
    as [Dw Dh].
  split; [congruence|]. split; [congruence|].
  intros px py Hb.
  assert (Hb' : inBounds c px py = true).
  { unfold inBounds in *. rewrite Dw, Dh in Hb. exact Hb. }
  destruct (drawWrapped_pixel browser settings width height (fst t) (snd t) T
              tileSize_integral tileSize_valid Gx Gy c tempCanvas _ _ a b px py
              Ea Eb Ra Rb Cw Ch temp_width temp_height Hb') as [_ E].
  cbv zeta in E. rewrite E.
  destruct ((px - a) mod width <? Z.min T (width - fst t * T))%Z eqn:U;
    destruct ((py - b) mod height <? Z.min T (height - snd t * T))%Z eqn:V;
    cbn [andb]; try (now apply Cp).
  set (qx := (fst t * T + (px - a) mod width)%Z).
  set (qy := (snd t * T + (py - b) mod height)%Z).
  assert (Hq : inBounds tempCanvas qx qy = true).
  { apply Z.ltb_lt in U, V.
    pose proof (Z.mod_pos_bound (px - a) width width_pos).
    pose proof (Z.mod_pos_bound (py - b) height height_pos).
    unfold inBounds, qx, qy. rewrite temp_width, temp_height. lia. }
  unfold sourceOver.
  destruct (alpha (rpix c px py) =? 0)%Z; [right; exists qx, qy; now split|].
  destruct (temp_alpha qx qy Hq) as [A | A]; rewrite A; cbn [Z.eqb Pos.eqb].
  - now apply Cp.
  - right. exists qx, qy. now split.
Qed.

Lemma weave_moved (c : Raster) :
  moved c -> moved (RenderWeave.weave Math_sin browser settings width height c tempCanvas).
Proof.
  unfold RenderWeave.weave.
  assert (G : forall l, incl l (RenderWeave.tiles settings width height) ->
            forall c0, moved c0 ->
            moved (fold_left
                     (fun c1 t => RenderWeave.drawTile Math_sin browser settings width height
                                    (fst t) (snd t) c1 tempCanvas) l c0)).
  { induction l as [|t l IH]; intros Hl c0 M; [exact M|].
    cbn [fold_left]. apply IH.
    - intros t' Ht'. apply Hl. now right.
    - apply drawTile_moved; [apply Hl; now left | exact M]. }
  apply G. apply incl_refl.
Qed.

End IntegralWeave.

Lemma buffers_dims (Math_sin : Q -> Q) (browser : Browser) (ctx img : Raster)
    (settings : ProcessorSettings) (tempCanvas : HTMLCanvasElement) :
  rwidth (fst (renderWeave Math_sin browser ctx img settings tempCanvas)) = rwidth img /\
  rheight (fst (renderWeave Math_sin browser ctx img settings tempCanvas)) = rheight img.
Proof.
  unfold renderWeave.
  destruct (resized_dims ctx (rwidth img) (rheight img)) as [Cw Ch].
  destruct (has2d tempCanvas); cbn [negb]; [|cbn [fst]; auto].
  destruct (RenderWeave.fastPath settings); cbn [fst].
  - simpl. auto.
  - destruct (weave_dims Math_sin browser settings (rwidth img) (rheight img)
                (clearRect (setHeight (setWidth ctx (rwidth img)) (rheight img))
                   0 0 (rwidth img) (rheight img))
                (drawImage3 browser
                   (clearRect
                      (setHeight (setWidth (bitmap tempCanvas) (rwidth img)) (rheight img))
                      0 0 (rwidth img) (rheight img)) img 0 0)) as [E1 E2].
    rewrite E1, E2. simpl. auto.
Qed.



(** ** More on the shift factors *)

Lemma rem_small (n m : Z) :
  (0 <= n)%Z -> (0 < m)%Z ->
  0 <= inject_Z (Z.rem n m) /\ inject_Z (Z.rem n m) <= inject_Z (m - 1).
Proof.
  intros Hn Hm. pose proof (Z.rem_bound_pos n m Hn Hm) as B.
  change 0 with (inject_Z 0). rewrite <- !Zle_Qle. lia.
Qed.

Lemma factor_range (p : WeavePattern) (x y : Z) :
  (0 <= x)%Z -> (0 <= y)%Z ->
  (- (2.25) <= xFactor (getShiftFactors x y p) /\ xFactor (getShiftFactors x y p) <= 2.25) /\
  (- (2.25) <= yFactor (getShiftFactors x y p) /\ yFactor (getShiftFactors x y p) <= 2.25).
Proof.
  intros Hx Hy. destruct p; cbn [getShiftFactors xFactor yFactor].
  - destruct (Z.rem y 2 =? 0)%Z, (Z.rem x 2 =? 0)%Z; repeat split; discriminate.
  - destruct (rem_small y 4 Hy eq_refl) as [A B].
    destruct (rem_small x 4 Hx eq_refl) as [C D].
    change (inject_Z (4 - 1)) with 3 in B, D.
    set (a := inject_Z (Z.rem y 4)) in *. set (c := inject_Z (Z.rem x 4)) in *.
    clearbody a c. repeat split; lra.
  - assert (Hy3 : (0 <= y * 3)%Z) by lia. assert (Hx3 : (0 <= x * 3)%Z) by lia.
    destruct (rem_small (y * 3) 5 Hy3 eq_refl) as [A B].
    destruct (rem_small (x * 3) 5 Hx3 eq_refl) as [C D].
    change (inject_Z (5 - 1)) with 4 in B, D.
    set (a := inject_Z (Z.rem (y * 3) 5)) in *. set (c := inject_Z (Z.rem (x * 3) 5)) in *.
    clearbody a c. repeat split; lra.
  - destruct (Z.rem (y / 2) 2 =? 0)%Z, (Z.rem (x / 2) 2 =? 0)%Z; repeat split; discriminate.
Qed.

Lemma Qabs_bound (q b : Q) : - b <= q -> q <= b -> Qabs q <= b.
Proof. intros L U. apply Qabs_Qle_condition. split; assumption. Qed.

(** X11.  No tile is displaced by more than 2.25 times the configured
    shift on either axis; with the plain and the basket pattern the
    displacement is exactly the configured shift in absolute value. *)
Theorem displacement_bound (settings : ProcessorSettings) (x y : Z) :
  (0 <= x)%Z -> (0 <= y)%Z ->
  Qabs (RenderWeave.shiftX settings x y) <= 2.25 * Qabs (horizontalShift settings) /\
  Qabs (RenderWeave.shiftY settings x y) <= 2.25 * Qabs (verticalShift settings) /\
  (pattern settings = plain \/ pattern settings = basket ->
   Qabs (RenderWeave.shiftX settings x y) == Qabs (horizontalShift settings) /\
   Qabs (RenderWeave.shiftY settings x y) == Qabs (verticalShift settings)).
Proof.
  intros Hx Hy.
  destruct (factor_range (pattern settings) x y Hx Hy) as [[A B] [C D]].
  unfold RenderWeave.shiftX, RenderWeave.shiftY, RenderWeave.factors.
  rewrite !Qabs_Qmult.
  split; [|split].
  - rewrite (Qmult_comm 2.25). apply Qmult_le_compat_nonneg.
    + split; [apply Qabs_nonneg | apply Qle_refl].
    + split; [apply Qabs_nonneg | now apply Qabs_bound].
  - rewrite (Qmult_comm 2.25). apply Qmult_le_compat_nonneg.
    + split; [apply Qabs_nonneg | apply Qle_refl].
    + split; [apply Qabs_nonneg | now apply Qabs_bound].
  - intros [-> | ->]; cbn [getShiftFactors xFactor yFactor].
    + destruct (Z.rem y 2 =? 0)%Z, (Z.rem x 2 =? 0)%Z; split;
        (setoid_replace (Qabs 1) with 1 by reflexivity)
        || (setoid_replace (Qabs (-1)) with 1 by reflexivity); ring.
    + destruct (Z.rem (y / 2) 2 =? 0)%Z, (Z.rem (x / 2) 2 =? 0)%Z; split;
        (setoid_replace (Qabs 1) with 1 by reflexivity)
        || (setoid_replace (Qabs (-1)) with 1 by reflexivity); ring.
Qed.

Lemma displacement_bound_witness :
  Qabs (RenderWeave.shiftX (mkSettings 50 (-40) 30 0 twill 100 0) 2 3) <= 2.25 * Qabs (-40).
Proof.
  apply (displacement_bound (mkSettings 50 (-40) 30 0 twill 100 0) 2 3); lia.
Defined.

(** X12.  The only tiles a pattern leaves unshifted along an axis are those
    of the satin pattern whose index on the other axis is 4 modulo 5: the
    horizontal factor is 0 exactly for satin rows [y mod 5 = 4], the
    vertical factor exactly for satin columns [x mod 5 = 4]. *)
Theorem unshifted_tiles (p : WeavePattern) (x y : Z) :
  (0 <= x)%Z -> (0 <= y)%Z ->
  (xFactor (getShiftFactors x y p) == 0 <-> p = satin /\ (y mod 5 = 4)%Z) /\
  (yFactor (getShiftFactors x y p) == 0 <-> p = satin /\ (x mod 5 = 4)%Z).
Proof.
  intros Hx Hy.
  assert (Sat : forall n : Z, (0 <= n)%Z ->
            inject_Z (Z.rem (n * 3) 5) - 2 == 0 <-> (n mod 5 = 4)%Z).
  { intros n Hn. rewrite Z.rem_mod_nonneg by lia.
    setoid_replace (inject_Z ((n * 3) mod 5) - 2)
      with (inject_Z ((n * 3) mod 5 - 2)) by (now rewrite <- inject_Z_sub).
    change 0 with (inject_Z 0). rewrite inject_Z_injective.
    pose proof (Z.mod_pos_bound n 5 eq_refl). pose proof (Z.mod_pos_bound (n * 3) 5 eq_refl).
    pose proof (Z.div_mod n 5 ltac:(lia)). pose proof (Z.div_mod (n * 3) 5 ltac:(lia)).
    lia. }
  assert (Twill : forall n : Z, ~ (inject_Z (Z.rem n 4) - 1.5) * 1.5 == 0).
  { intros n E. apply Qmult_integral in E. destruct E as [E | E]; [|discriminate].
    assert (E2 : inject_Z (2 * Z.rem n 4) == inject_Z 3).
    { rewrite inject_Z_mult. change (inject_Z 2) with 2. change (inject_Z 3) with 3.
      lra. }
    rewrite inject_Z_injective in E2.
    set (r := Z.rem n 4) in *. clearbody r. lia. }
  destruct p; cbn [getShiftFactors xFactor yFactor].
  - split; split; try (intros [? _]; discriminate);
      [destruct (Z.rem y 2 =? 0)%Z | destruct (Z.rem x 2 =? 0)%Z]; discriminate.
  - split; split; try (intros [? _]; discriminate); intros E; now apply Twill in E.
  - rewrite !Sat by assumption. split; split; try tauto; intros E; split; auto.
  - split; split; try (intros [? _]; discriminate);
      [destruct (Z.rem (y / 2) 2 =? 0)%Z | destruct (Z.rem (x / 2) 2 =? 0)%Z]; discriminate.
Qed.

Lemma unshifted_tiles_witness :
  xFactor (getShiftFactors 0 9 satin) == 0 <-> satin = satin /\ (9 mod 5 = 4)%Z.
Proof.
  apply (unshifted_tiles satin 0 9); lia.
Defined.

Lemma rem_add_period (n k m : Z) :
  (0 <= n)%Z -> (0 <= k)%Z -> (0 < m)%Z -> Z.rem (n + k * m) m = Z.rem n m.
Proof.
  intros Hn Hk Hm. rewrite !Z.rem_mod_nonneg by nia. apply Z.mod_add. lia.
Qed.

(** X13.  The factors of a pattern repeat after [patternPeriod] tiles along
    both axes (2 for plain, 4 for twill, 5 for satin, 4 for basket).  The
    plain pattern turns the sign of a factor from each tile to the next;
    the basket pattern gives the four tiles of a 2 by 2 block the same
    factors and turns the sign from each block to the next. *)
Theorem pattern_repeats (p : WeavePattern) (x y i j : Z) :
  (0 <= x)%Z -> (0 <= y)%Z -> (0 <= i)%Z -> (0 <= j)%Z ->
  getShiftFactors (x + i * patternPeriod p) (y + j * patternPeriod p) p
  = getShiftFactors x y p /\
  (p = plain ->
   xFactor (getShiftFactors x (y + 1) p) == - xFactor (getShiftFactors x y p) /\
   yFactor (getShiftFactors (x + 1) y p) == - yFactor (getShiftFactors x y p)) /\
  (p = basket ->
   getShiftFactors x y p = getShiftFactors (2 * (x / 2)) (2 * (y / 2)) p /\
   xFactor (getShiftFactors x (y + 2) p) == - xFactor (getShiftFactors x y p) /\
   yFactor (getShiftFactors (x + 2) y p) == - yFactor (getShiftFactors x y p)).
Proof.
  intros Hx Hy Hi Hj.
  assert (Flip : forall n : Z, (0 <= n)%Z ->
            (if (Z.rem (n + 1) 2 =? 0)%Z then 1 else -1)
            == - (if (Z.rem n 2 =? 0)%Z then 1 else -1)).
  { intros n Hn. rewrite !Z.rem_mod_nonneg by lia.
    destruct (Z.eqb_spec ((n + 1) mod 2) 0) as [A | A];
      destruct (Z.eqb_spec (n mod 2) 0) as [B | B]; try reflexivity; exfalso;
      pose proof (Z.div_mod n 2 ltac:(lia)); pose proof (Z.div_mod (n + 1) 2 ltac:(lia));
      pose proof (Z.mod_pos_bound n 2 eq_refl);
      pose proof (Z.mod_pos_bound (n + 1) 2 eq_refl); lia. }
  split; [|split].
  - destruct p; cbn [getShiftFactors patternPeriod].
    + now rewrite !rem_add_period by lia.
    + now rewrite !rem_add_period by lia.
    + replace ((y + j * 5) * 3)%Z with (y * 3 + (j * 3) * 5)%Z by lia.
      replace ((x + i * 5) * 3)%Z with (x * 3 + (i * 3) * 5)%Z by lia.
      now rewrite !rem_add_period by lia.
    + replace (y + j * 4)%Z with (y + (j * 2) * 2)%Z by lia.
      replace (x + i * 4)%Z with (x + (i * 2) * 2)%Z by lia.
      rewrite !Z.div_add by lia.
      rewrite !rem_add_period by (try apply Z.div_pos; lia). reflexivity.
  - intros ->. cbn [getShiftFactors xFactor yFactor]. split; now apply Flip.
  - intros ->. cbn [getShiftFactors xFactor yFactor].
    assert (Dx : (2 * (x / 2) / 2 = x / 2)%Z)
      by (rewrite Z.mul_comm; apply Z.div_mul; lia).
    assert (Dy : (2 * (y / 2) / 2 = y / 2)%Z)
      by (rewrite Z.mul_comm; apply Z.div_mul; lia).
    rewrite Dx, Dy. split; [reflexivity|].
    replace (y + 2)%Z with (y + 1 * 2)%Z by lia.
    replace (x + 2)%Z with (x + 1 * 2)%Z by lia.
    rewrite !Z.div_add by lia.
    split; apply Flip; apply Z.div_pos; lia.
Qed.

Lemma pattern_repeats_witness :
  getShiftFactors (3 + 2 * patternPeriod satin) (1 + 4 * patternPeriod satin) satin
  = getShiftFactors 3 1 satin.
Proof.
  apply (pattern_repeats satin 3 1 2 4); lia.
Defined.

(** * The render loop *)

Lemma pow_le_1 (n : nat) : 0 < 0.9 ^ Z.of_nat n /\ 0.9 ^ Z.of_nat n <= 1.
Proof.
  split; [apply Qpower_0_lt; reflexivity|].
  induction n as [|n IH]; [discriminate|].
  rewrite pow_succ.
  assert (P : 0 < 0.9 ^ Z.of_nat n) by (apply Qpower_0_lt; reflexivity).
  set (p := 0.9 ^ Z.of_nat n) in *. clearbody p. lra.
Qed.

(** The frames against the closed form of the exact recurrence. *)
Lemma frames_closed_form (field : ProcessorSettings -> Q)
    (current target : ProcessorSettings) (n : nat) :
  In field numericFields -> double (field current) ->
  Qabs (field (frames n current target)
        - (field target + 0.9 ^ Z.of_nat n * (field current - field target)))
  <= 10 * (pow2 (-52) * Qabs (field current - field target)
           + (pow2 (-53) * Qabs (field target) + 3 * pow2 (-1075))).
Proof.
  intros Hf D.
  set (rho := pow2 (-52) * Qabs (field current - field target)
              + (pow2 (-53) * Qabs (field target) + 3 * pow2 (-1075))).
  assert (Hrho : 0 <= rho).
  { unfold rho. pose proof (Qabs_nonneg (field target)).
    pose proof (Qabs_nonneg (field current - field target)).
    pose proof (pow2_pos (-53)). pose proof (pow2_pos (-52)). pose proof (pow2_pos (-1075)).
    set (v := Qabs (field target)) in *. set (g := Qabs (field current - field target)) in *.
    set (p := pow2 (-53)) in *. set (p' := pow2 (-52)) in *.
    set (q := pow2 (-1075)) in *. clearbody v g p p' q. nra. }
  induction n as [|n IH].
  - change (0.9 ^ Z.of_nat 0) with 1. cbn [frames].
    setoid_replace (field current - (field target + 1 * (field current - field target)))
      with 0 by ring.
    change (Qabs 0) with 0. lra.
  - rewrite pow_succ, frames_succ, (interpolate_field _ _ _ Hf).
    pose proof (lerp_error (field (frames n current target)) (field target)) as E.
    pose proof (gap_initial field current target n Hf D) as G. unfold distance in G.
    pose proof (pow2_pos (-52)) as P52.
    set (r := lerp (field (frames n current target)) (field target)) in *.
    set (a := field (frames n current target)) in *.
    set (b := field target) in *. set (a0 := field current) in *.
    set (p := 0.9 ^ Z.of_nat n) in *.
    assert (E' : Qabs (r - (a + 0.1 * (b - a))) <= rho).
    { apply Qle_trans with (1 := E). unfold rho.
      set (s := pow2 (-53) * Qabs b + 3 * pow2 (-1075)).
      set (g := Qabs (a - b)) in *. set (g0 := Qabs (a0 - b)) in *.
      set (c := pow2 (-52)) in *. clearbody s g g0 c. nra. }
    clearbody rho r a b a0 p. clear E G.
    apply Qabs_Qle_condition in IH, E'. apply Qabs_Qle_condition. split; lra.
Qed.

(** X14.  The entrance animation.  After an image was loaded the two
    shifts and the scatter start at 0 and grow toward the target: [n]
    frames later each is the target's value times [1 - 0.9 ^ n] up to the
    rounding of binary64, a part in [2 ^ 48] of the target, and it lies
    between 0 and the target's value, whatever settings [onload] captured.
    The tile size starts at the captured one, a value of binary64, and its
    distance to the target's is the initial one times [0.9 ^ n], up to ten
    times the rounding of a step.  The opacity shown is the captured one
    for ever, and the pattern and the seed are the target's from the first
    frame on. *)
Theorem entrance_animation (captured target : ProcessorSettings) (n : nat) :
  let shown := frames n (PreviewLoop.onload captured) target in
  let grown := 1 - 0.9 ^ Z.of_nat n in
  (forall field, In field [horizontalShift; verticalShift; scatterIntensity] ->
     Qabs (field shown - field target * grown)
     <= Binary64.pow2 (-48) * Qabs (field target) + Binary64.pow2 (-1070) /\
     (0 <= field target -> 0 <= field shown /\ field shown <= field target) /\
     (field target <= 0 -> field target <= field shown /\ field shown <= 0)) /\
  (0 <= grown /\ grown < 1) /\
  (Binary64.double (Types.tileSize captured) ->
   Qabs (Types.tileSize shown
         - (Types.tileSize target
            + 0.9 ^ Z.of_nat n * (Types.tileSize captured - Types.tileSize target)))
   <= 10 * (Binary64.pow2 (-52) * Qabs (Types.tileSize captured - Types.tileSize target)
            + (Binary64.pow2 (-53) * Qabs (Types.tileSize target)
               + 3 * Binary64.pow2 (-1075)))) /\
  opacity shown = opacity captured /\
  (n <> O -> pattern shown = pattern target /\ seed shown = seed target).
Proof.
  cbv zeta.
  destruct (pow_le_1 n) as [P0 P1].
  assert (D : forall m c, pattern (frames (S m) c target) = pattern target /\
                          seed (frames (S m) c target) = seed target).
  { induction m as [|m IH]; intros c; [split; reflexivity|].
    change (frames (S (S m)) c target) with (frames (S m) (interpolate c target) target).
    apply IH. }
  assert (O : forall m c, opacity (frames m c target) = opacity c).
  { induction m as [|m IH]; intros c; [reflexivity|].
    cbn [frames]. now rewrite IH. }
  split; [|split; [lra | split; [|split; [now rewrite O|]]]].
  - intros field Hin.
    assert (Hf : In field numericFields).
    { destruct Hin as [<- | [<- | [<- | []]]]; simpl; auto. }
    assert (Z0 : field (PreviewLoop.onload captured) = 0).
    { destruct Hin as [<- | [<- | [<- | []]]]; reflexivity. }
    assert (D0 : double (field (PreviewLoop.onload captured))) by (rewrite Z0; exact double_0).
    pose proof (frames_closed_form field (PreviewLoop.onload captured) target n Hf D0) as C.
    rewrite Z0 in C.
    assert (Bt : forall k,
              (0 <= field target ->
               0 <= field (frames k (PreviewLoop.onload captured) target) /\
               field (frames k (PreviewLoop.onload captured) target) <= field target) /\
              (field target <= 0 ->
               field target <= field (frames k (PreviewLoop.onload captured) target) /\
               field (frames k (PreviewLoop.onload captured) target) <= 0)).
    { induction k as [|k [IH1 IH2]].
      - cbn [frames]. rewrite Z0. split; intros; split; lra.
      - pose proof (frames_between field (PreviewLoop.onload captured) target Hf D0 k) as B.
        cbv zeta in B. rewrite Z0 in B. destruct B as [B1 B2].
        split; intros H.
        + destruct (B1 H) as (U1 & U2 & _). destruct (IH1 H). split; lra.
        + destruct (B2 H) as (U1 & U2 & _). destruct (IH2 H). split; lra. }
    split; [|exact (Bt n)].
    assert (U1 : pow2 (-52) == 1 # 4503599627370496) by reflexivity.
    assert (U2 : pow2 (-53) == 1 # 9007199254740992) by reflexivity.
    assert (U3 : pow2 (-48) == 1 # 281474976710656) by reflexivity.
    assert (U4 : pow2 (-1070) == 32 * pow2 (-1075)) by reflexivity.
    rewrite U1, U2 in C. rewrite U3, U4.
    pose proof (pow2_pos (-1075)) as Pe. set (eta := pow2 (-1075)) in *.
    setoid_replace (0 - field target) with (- field target) in C by ring.
    rewrite Qabs_opp in C.
    pose proof (Qabs_nonneg (field target)) as Hb.
    set (vb := Qabs (field target)) in *.
    set (a := field (frames n (PreviewLoop.onload captured) target)) in *.
    set (b := field target) in *. set (p := 0.9 ^ Z.of_nat n) in *.
    clearbody eta vb a b p.
    apply Qabs_Qle_condition in C. apply Qabs_Qle_condition. split; lra.
  - intros Dt.
    apply (frames_closed_form Types.tileSize (PreviewLoop.onload captured) target n);
      [simpl; auto | exact Dt].
  - intros Hn. destruct n as [|m]; [contradiction|]. apply D.
Qed.

(** ** The fast path during the animation *)

Lemma lerp_small (a b : Q) :
  double a -> Qabs a < 0.5 -> Qabs b < 0.5 -> Qabs (lerp a b) < 0.5.
Proof.
  intros D. rewrite !Qabs_Qlt_condition. intros [A1 A2] [B1 B2].
  destruct (lerp_between a b D) as [Up Down].
  destruct (Qlt_le_dec b a) as [L | L].
  - destruct Down as [D1 D2]; [lra|]. split; lra.
  - destruct Up as [D1 D2]; [lra|]. split; lra.
Qed.

Lemma lerp_below (a b : Q) :
  double a -> a < 0.5 -> b < 0.5 -> lerp a b < 0.5.
Proof.
  intros D A B. destruct (lerp_between a b D) as [Up Down].
  destruct (Qlt_le_dec b a) as [L | L].
  - destruct Down as [D1 D2]; lra.
  - destruct Up as [D1 D2]; lra.
Qed.

Lemma fastPath_frames (current target : ProcessorSettings) (n : nat) :
  (forall field, In field numericFields -> double (field current)) ->
  RenderWeave.fastPath current = true ->
  RenderWeave.fastPath target = true ->
  RenderWeave.fastPath (frames n current target) = true.
Proof.
  intros Hd Hc Ht. revert current Hd Hc.
  induction n as [|n IH]; intros current Hd Hc; [exact Hc|].
  cbn [frames]. apply IH.
  - intros field Hf. rewrite (interpolate_field _ _ _ Hf). apply lerp_double.
  - apply fastPath_iff in Hc, Ht. apply fastPath_iff.
    destruct Hc as (C1 & C2 & C3), Ht as (T1 & T2 & T3).
    cbn [interpolate horizontalShift verticalShift scatterIntensity].
    split; [|split].
    + apply lerp_small; [apply Hd; simpl; auto | assumption | assumption].
    + apply lerp_small; [apply Hd; simpl; auto | assumption | assumption].
    + apply lerp_below; [apply Hd; simpl; auto | assumption | assumption].
Qed.

(** After enough frames a field is as near to its target as the rounding
    allows and a given margin. *)
Lemma frames_near (field : ProcessorSettings -> Q) (current target : ProcessorSettings)
    (eps : Q) :
  In field numericFields -> 0 < eps ->
  exists N : nat, forall n, (N <= n)%nat ->
    distance field (frames n current target) target
    < eps + 11 * (pow2 (-53) * Qabs (field target) + 3 * pow2 (-1075)).
Proof.
  intros Hf He.
  assert (C0 : 0 < 0.9 + pow2 (-52)) by reflexivity.
  assert (C1 : 0.9 + pow2 (-52) < 1) by reflexivity.
  destruct (geometric_small (0.9 + pow2 (-52)) eps (distance field current target)
              C0 C1 He (Qabs_nonneg _)) as [N HN].
  exists N. intros n Hn. specialize (HN n Hn).
  pose proof (gap_frames field current target n Hf) as G. lra.
Qed.

(** X15.  Toward a target well outside the fast path, a shift of at least
    0.51 in absolute value or a scatter of at least 0.51, as every position
    of the sliders but 0 is, the animation leaves the fast path for good:
    from some frame on every frame is drawn by the tile loop, wherever the
    animation started. *)
Theorem weave_appears (current target : ProcessorSettings) :
  0.51 <= Qabs (horizontalShift target) \/ 0.51 <= Qabs (verticalShift target) \/
  0.51 <= scatterIntensity target ->
  exists N : nat, forall n, (N <= n)%nat ->
    RenderWeave.fastPath (frames n current target) = false.
Proof.
  assert (Far : forall field, In field numericFields -> 0.51 <= Qabs (field target) ->
            exists N : nat, forall n, (N <= n)%nat ->
              0.5 <= Qabs (field (frames n current target))).
  { intros field Hf H.
    destruct (frames_near field current target (1 # 1000) Hf ltac:(reflexivity)) as [N HN].
    exists N. intros n Hn. specialize (HN n Hn). unfold distance in HN.
    assert (U2 : pow2 (-53) == 1 # 9007199254740992) by reflexivity.
    assert (U3 : pow2 (-1075) <= 1 # 1000000) by (vm_compute; discriminate).
    rewrite U2 in HN. set (eta := pow2 (-1075)) in *.
    pose proof (Qabs_triangle (field target - field (frames n current target))
                  (field (frames n current target))) as Tr.
    setoid_replace (field target - field (frames n current target)
                    + field (frames n current target)) with (field target) in Tr by ring.
    rewrite (Qabs_Qminus (field target)) in Tr.
    set (g := Qabs (field (frames n current target) - field target)) in *.
    set (vb := Qabs (field target)) in *.
    set (va := Qabs (field (frames n current target))) in *.
    clearbody eta g vb va. lra. }
  unfold RenderWeave.fastPath, Math_abs.
  intros [H | [H | H]].
  - destruct (Far horizontalShift ltac:(simpl; auto) H) as [N HN].
    exists N. intros n Hn. specialize (HN n Hn).
    apply Qltb_ge in HN. rewrite HN. reflexivity.
  - destruct (Far verticalShift ltac:(simpl; auto) H) as [N HN].
    exists N. intros n Hn. specialize (HN n Hn).
    apply Qltb_ge in HN. rewrite HN. now rewrite andb_false_r.
  - destruct (frames_near scatterIntensity current target (1 # 1000)
                ltac:(simpl; auto) ltac:(reflexivity)) as [N HN].
    exists N. intros n Hn. specialize (HN n Hn). unfold distance in HN.
    assert (U2 : pow2 (-53) == 1 # 9007199254740992) by reflexivity.
    assert (U3 : pow2 (-1075) <= 1 # 1000000) by (vm_compute; discriminate).
    rewrite U2 in HN. set (eta := pow2 (-1075)) in *.
    assert (Hb : Qabs (scatterIntensity target) == scatterIntensity target)
      by (apply Qabs_pos; lra).
    rewrite Hb in HN.
    assert (G : 0.5 <= scatterIntensity (frames n current target)).
    { set (a := scatterIntensity (frames n current target)) in *.
      set (b := scatterIntensity target) in *. clearbody eta a b.
      qabs (a - b); lra. }
    apply Qltb_ge in G. rewrite G. now rewrite andb_false_r.
Qed.

Lemma weave_appears_witness :
  exists N : nat, forall n, (N <= n)%nat ->
    RenderWeave.fastPath
      (frames n (PreviewLoop.onload App.DEFAULT_SETTINGS) App.DEFAULT_SETTINGS) = false.
Proof.
  apply (weave_appears (PreviewLoop.onload App.DEFAULT_SETTINGS) App.DEFAULT_SETTINGS).
  left. vm_compute. discriminate.
Defined.

(** ** Frames of the loop *)

Lemma renderWeave_same (Math_sin : Q -> Q) (browser : Browser) (c1 c2 img : Raster)
    (settings : ProcessorSettings) (t1 t2 : HTMLCanvasElement) :
  has2d t1 = true -> has2d t2 = true ->
  sameRaster (fst (renderWeave Math_sin browser c1 img settings t1))
             (fst (renderWeave Math_sin browser c2 img settings t2)).
Proof.
  intros H1 H2. unfold renderWeave. rewrite H1, H2. simpl negb. cbv iota.
  destruct (RenderWeave.fastPath settings).
  - simpl fst. eapply sameRaster_trans; [apply image_loaded|].
    apply sameRaster_sym, image_loaded.
  - simpl fst. apply weave_same; [apply canvas_cleared|].
    eapply sameRaster_trans; [apply image_loaded|].
    apply sameRaster_sym, image_loaded.
Qed.

Lemma renderWeave_has2d (Math_sin : Q -> Q) (browser : Browser) (c img : Raster)
    (settings : ProcessorSettings) (temp : HTMLCanvasElement) :
  has2d (snd (renderWeave Math_sin browser c img settings temp)) = has2d temp.
Proof.
  unfold renderWeave. destruct (has2d temp); simpl; [|reflexivity].
  destruct (RenderWeave.fastPath settings); reflexivity.
Qed.

Lemma renderFrames_succ (Math_sin : Q -> Q) (browser : Browser) (img : option Raster)
    (target : ProcessorSettings) (n : nat) (st : PreviewLoop.LoopState) :
  PreviewLoop.renderFrames Math_sin browser img target (S n) st
  = PreviewLoop.render Math_sin browser img target (PreviewLoop.renderFrames Math_sin browser img target n st).
Proof.
  revert st. induction n as [|n IH]; intros st; [reflexivity|].
  change (PreviewLoop.renderFrames Math_sin browser img target (S (S n)) st)
    with (PreviewLoop.renderFrames Math_sin browser img target (S n)
            (PreviewLoop.render Math_sin browser img target st)).
  rewrite IH. reflexivity.
Qed.

Lemma renderFrames_current (Math_sin : Q -> Q) (browser : Browser) (image : Raster)
    (target : ProcessorSettings) (n : nat) (st : PreviewLoop.LoopState) :
  PreviewLoop.current (PreviewLoop.renderFrames Math_sin browser (Some image) target n st)
  = frames n (PreviewLoop.current st) target.
Proof.
  revert st. induction n as [|n IH]; intros st; [reflexivity|].
  cbn [PreviewLoop.renderFrames frames]. rewrite IH. reflexivity.
Qed.

Lemma renderFrames_has2d (Math_sin : Q -> Q) (browser : Browser) (image : Raster)
    (target : ProcessorSettings) (n : nat) (st : PreviewLoop.LoopState) :
  has2d (PreviewLoop.tempCanvas (PreviewLoop.renderFrames Math_sin browser (Some image) target n st))
  = has2d (PreviewLoop.tempCanvas st).
Proof.
  revert st. induction n as [|n IH]; intros st; [reflexivity|].
  cbn [PreviewLoop.renderFrames]. rewrite IH.
  cbn [PreviewLoop.render PreviewLoop.tempCanvas]. apply renderWeave_has2d.
Qed.

(** X16.  The loop keeps nothing in its canvases: after one frame or more
    the visible canvas has the size of the image and equals, pixel for
    pixel, a single call of the engine on any other pair of canvases with
    the settings interpolated so far, which are [frames] of the settings
    the loop started from. *)
Theorem frame_shows_current_settings (Math_sin : Q -> Q) (browser : Browser) (image ctx0 : Raster)
    (temp0 : HTMLCanvasElement) (target : ProcessorSettings) (n : nat)
    (st : PreviewLoop.LoopState) :
  has2d (PreviewLoop.tempCanvas st) = true ->
  has2d temp0 = true ->
  let st' := PreviewLoop.renderFrames Math_sin browser (Some image) target (S n) st in
  let fresh := fst (renderWeave Math_sin browser ctx0 image (PreviewLoop.current st') temp0) in
  PreviewLoop.current st' = frames (S n) (PreviewLoop.current st) target /\
  has2d (PreviewLoop.tempCanvas st') = true /\
  rwidth (PreviewLoop.canvas st') = rwidth image /\
  rheight (PreviewLoop.canvas st') = rheight image /\
  (forall px py, getPixel (PreviewLoop.canvas st') px py = getPixel fresh px py) /\
  pixels (PreviewLoop.canvas st') = pixels fresh.
Proof.
  intros H H0 st' fresh.
  assert (S : sameRaster (PreviewLoop.canvas st') fresh).
  { unfold fresh, st'. rewrite renderFrames_succ.
    cbn [PreviewLoop.render PreviewLoop.canvas PreviewLoop.current].
    apply renderWeave_same; [|exact H0].
    now rewrite renderFrames_has2d. }
  split; [apply renderFrames_current|].
  split; [unfold st'; now rewrite renderFrames_has2d|].
  assert (D : rwidth (PreviewLoop.canvas st') = rwidth image /\
              rheight (PreviewLoop.canvas st') = rheight image).
  { unfold st'. rewrite renderFrames_succ.
    cbn [PreviewLoop.render PreviewLoop.canvas].
    apply buffers_dims. }
  split; [apply D|]. split; [apply D|].
  split; [now apply sameRaster_getPixel | now apply sameRaster_pixels].
Qed.

Lemma frame_shows_current_settings_witness :
  let st := PreviewLoop.mkLoop (PreviewLoop.onload (mkSettings 2 1 1 30 twill 100 5))
              emptyCanvas (mkCanvas emptyCanvas true) in
  let st' := PreviewLoop.renderFrames (fun _ => 0.5) sampleBrowser (Some img4)
               (mkSettings 2 1 1 30 twill 100 5) 3 st in
  pixels (PreviewLoop.canvas st')
  = pixels (fst (renderWeave (fun _ => 0.5) sampleBrowser img4 img4 (PreviewLoop.current st')
                   (mkCanvas img4 true))).
Proof.
  intros st st'.
  apply (frame_shows_current_settings (fun _ => 0.5) sampleBrowser img4 img4 (mkCanvas img4 true)
           (mkSettings 2 1 1 30 twill 100 5) 2 st); reflexivity.
Defined.



(** * The control panel and the application *)

Lemma Qmax_Z (a b : Z) : Qmax (inject_Z a) (inject_Z b) == inject_Z (Z.max a b).
Proof.
  destruct (Z.max_spec a b) as [[Hlt ->] | [Hle ->]].
  - apply Q.max_r. rewrite <- Zle_Qle. lia.
  - apply Q.max_l. rewrite <- Zle_Qle. lia.
Qed.

Lemma floor_min_div (a b d : Z) :
  Math_floor (Math_min (inject_Z a) (inject_Z b) / inject_Z d) = (Z.min a b / d)%Z.
Proof.
  unfold Math_floor, Math_min. rewrite Zdiv_Qdiv.
  apply Qfloor_comp. now rewrite Qmin_Z.
Qed.

Lemma floor_div (a d : Z) : Math_floor (inject_Z a / inject_Z d) = (a / d)%Z.
Proof. unfold Math_floor. now rewrite Zdiv_Qdiv. Qed.

Lemma ceil_count (size T d : Z) (t : Q) :
  t == inject_Z T -> (0 < T)%Z -> (d * T <= size)%Z -> (d <= Math_ceil (inject_Z size / t))%Z.
Proof.
  intros Ht HT H.
  assert (G : (d - 1 < Math_ceil (inject_Z size / t))%Z) by (apply (grid_bound size T); [assumption|assumption|nia]).
  lia.
Qed.

Lemma ceil_exact (size T d : Z) (t : Q) :
  t == inject_Z T -> (0 < T)%Z -> size = (d * T)%Z -> Math_ceil (inject_Z size / t) = d.
Proof.
  intros Ht HT H.
  assert (G : (d - 1 < Math_ceil (inject_Z size / t))%Z) by (apply (grid_bound size T); [assumption|assumption|nia]).
  assert (G' : ~ (d < Math_ceil (inject_Z size / t))%Z).
  { intros C. apply (grid_bound size T) in C; [lia|assumption|assumption]. }
  lia.
Qed.

(** X18.  A grid preset [division] sets the tile size to
    [max (2, floor (shorter / division))] for the shorter side of the
    image, a size the engine uses as it is.  When the shorter side is at
    least twice [division] the grid has at least [division] columns and
    rows, and exactly [division] tiles along the shorter side when
    [division] divides it; on a smaller image the preset gives tiles of
    2. *)
Theorem grid_preset (d : ControlPanel.ImageDimensions) (division : Z)
    (prev : ProcessorSettings) :
  (0 < division)%Z ->
  let s := ControlPanel.handleGridPreset (Some d) division prev in
  let shorter := Z.min (ControlPanel.imageWidth d) (ControlPanel.imageHeight d) in
  let size := Z.max 2 (shorter / division) in
  let cols := RenderWeave.cols s (ControlPanel.imageWidth d) in
  let rows := RenderWeave.rows s (ControlPanel.imageHeight d) in
  Types.tileSize s == inject_Z size /\
  RenderWeave.tileSize s == Types.tileSize s /\
  ((2 * division <= shorter)%Z -> (division <= cols)%Z /\ (division <= rows)%Z) /\
  ((2 * division <= shorter)%Z -> (division | shorter)%Z -> Z.min cols rows = division) /\
  ((shorter < 2 * division)%Z -> Types.tileSize s == 2).
Proof.
  intros Hd s shorter size cols rows.
  assert (Es : Types.tileSize s == inject_Z size).
  { unfold s, ControlPanel.handleGridPreset, ControlPanel.handleChange_tileSize.
    cbn [Types.tileSize]. rewrite floor_min_div. unfold Math_max.
    change 2 with (inject_Z 2). apply Qmax_Z. }
  assert (S2 : (2 <= size)%Z) by (unfold size; lia).
  assert (Ee : RenderWeave.tileSize s == Types.tileSize s).
  { apply tileSize_as_supplied. rewrite Es. change 2 with (inject_Z 2).
    now rewrite <- Zle_Qle. }
  assert (Et : RenderWeave.tileSize s == inject_Z size) by (now rewrite Ee).
  assert (Q2 : (2 * division <= shorter)%Z -> size = (shorter / division)%Z /\
               (division * size <= shorter)%Z).
  { intros H.
    assert ((2 <= shorter / division)%Z) by (apply Z.div_le_lower_bound; lia).
    split; [unfold size; lia|].
    replace size with (shorter / division)%Z by (unfold size; lia).
    apply Z.mul_div_le. lia. }
  split; [exact Es|]. split; [exact Ee|]. split; [|split].
  - intros H. destruct (Q2 H) as [_ B].
    split; apply (ceil_count _ size); try assumption; unfold shorter in *; lia.
  - intros H [k Hk]. destruct (Q2 H) as [E B].
    assert (Ek : size = k).
    { rewrite E, Hk. apply Z.div_mul. lia. }
    assert (C : (division <= cols)%Z /\ (division <= rows)%Z).
    { split; apply (ceil_count _ size); try assumption; unfold shorter in *; lia. }
    destruct (Z.min_spec (ControlPanel.imageWidth d) (ControlPanel.imageHeight d))
      as [[L M] | [L M]].
    + assert (cols = division).
      { apply (ceil_exact _ size); try assumption; unfold shorter in *; lia. }
      lia.
    + assert (rows = division).
      { apply (ceil_exact _ size); try assumption; unfold shorter in *; lia. }
      lia.
  - intros H. rewrite Es.
    assert (E : (shorter / division < 2)%Z) by (apply Z.div_lt_upper_bound; lia).
    unfold size. rewrite Z.max_l by lia. reflexivity.
Qed.

Lemma grid_preset_witness :
  let s := ControlPanel.handleGridPreset (Some (ControlPanel.mkDimensions 100 60)) 8
             (mkSettings 40 20 20 0 plain 100 123) in
  Types.tileSize s == 7 /\
  (8 <= RenderWeave.cols s 100)%Z /\ (8 <= RenderWeave.rows s 60)%Z.
Proof.
  intros s.
  pose proof (grid_preset (ControlPanel.mkDimensions 100 60) 8
                (mkSettings 40 20 20 0 plain 100 123) ltac:(lia)) as G.
  cbv zeta in G. destruct G as (G1 & _ & G3 & _).
  split; [exact G1|]. apply G3. cbn. lia.
Defined.

(** X19.  For a tile size of at least 2 the grid shown beside "Grid
    Division" ([Math.round]) never exceeds the grid the engine draws
    ([Math.ceil]) and falls short of it by at most one column and one
    row. *)
Theorem grid_label_close (d : ControlPanel.ImageDimensions) (settings : ProcessorSettings) :
  2 <= Types.tileSize settings ->
  let label := ControlPanel.gridLabel d settings in
  let cols := RenderWeave.cols settings (ControlPanel.imageWidth d) in
  let rows := RenderWeave.rows settings (ControlPanel.imageHeight d) in
  ((fst label <= cols)%Z /\ (cols <= fst label + 1)%Z) /\
  ((snd label <= rows)%Z /\ (rows <= snd label + 1)%Z).
Proof.
  intros H label cols rows.
  assert (R : forall q : Q, (ControlPanel.Math_round q <= Qceiling q)%Z /\
                            (Qceiling q <= ControlPanel.Math_round q + 1)%Z).
  { intros q. unfold ControlPanel.Math_round.
    pose proof (Qfloor_le (q + 0.5)) as F1. pose proof (Qlt_floor (q + 0.5)) as F2.
    pose proof (Qle_ceiling q) as C1. pose proof (Qceiling_lt q) as C2.
    rewrite inject_Z_plus in F2. rewrite <- inject_Z_sub in C2.
    change (inject_Z 1) with 1 in *.
    split.
    - assert (L : inject_Z (Qfloor (q + 0.5)) < inject_Z (Qceiling q) + 1) by lra.
      change 1 with (inject_Z 1) in L. rewrite <- inject_Z_plus, <- Zlt_Qlt in L. lia.
    - assert (L : inject_Z (Qceiling q) < inject_Z (Qfloor (q + 0.5)) + 2) by lra.
      change 2 with (inject_Z 2) in L. rewrite <- inject_Z_plus, <- Zlt_Qlt in L. lia. }
  pose proof (tileSize_as_supplied settings H) as E.
  assert (Ec : cols = Qceiling (inject_Z (ControlPanel.imageWidth d) / Types.tileSize settings)).
  { unfold cols, RenderWeave.cols, Math_ceil. apply Qceiling_comp. now rewrite E. }
  assert (Er : rows = Qceiling (inject_Z (ControlPanel.imageHeight d) / Types.tileSize settings)).
  { unfold rows, RenderWeave.rows, Math_ceil. apply Qceiling_comp. now rewrite E. }
  rewrite Ec, Er. unfold label, ControlPanel.gridLabel. cbn [fst snd].
  split; apply R.
Qed.

Lemma grid_label_close_witness :
  let d := ControlPanel.mkDimensions 100 60 in
  let s := mkSettings 7 20 20 0 plain 100 123 in
  (fst (ControlPanel.gridLabel d s) <= RenderWeave.cols s 100)%Z /\
  (RenderWeave.cols s 100 <= fst (ControlPanel.gridLabel d s) + 1)%Z.
Proof.
  intros d s.
  apply (grid_label_close d s). unfold Qle. simpl. lia.
Defined.

(** X20.  The settings installed for a new image: a tile size of
    [floor (shorter / 10)] and shifts of [floor (width / 20)] and
    [floor (height / 20)].  The tile size reaches the engine's minimum of
    2 exactly when the shorter side is at least 20; the engine then draws
    at least 10 columns and 10 rows.  The suggested settings take the fast
    path exactly when both sides are below 20. *)
Theorem suggested_settings (width height : Z) :
  let s := App.handleImageSelect width height in
  let shorter := Z.min width height in
  (Types.tileSize s == inject_Z (shorter / 10) /\
   horizontalShift s == inject_Z (width / 20) /\
   verticalShift s == inject_Z (height / 20)) /\
  (2 <= Types.tileSize s <-> (20 <= shorter)%Z) /\
  RenderWeave.tileSize s == inject_Z (Z.max 2 (shorter / 10)) /\
  (RenderWeave.fastPath s = true <-> (0 <= width < 20)%Z /\ (0 <= height < 20)%Z) /\
  ((20 <= shorter)%Z ->
   (10 <= RenderWeave.cols s width)%Z /\ (10 <= RenderWeave.rows s height)%Z).
Proof.
  intros s shorter.
  assert (E10 : inject_Z 10 = 10) by reflexivity.
  assert (E20 : inject_Z 20 = 20) by reflexivity.
  assert (Et : Types.tileSize s = inject_Z (shorter / 10)).
  { unfold s, App.handleImageSelect. cbn [Types.tileSize].
    rewrite <- E10 at 1. now rewrite floor_min_div. }
  assert (Eh : horizontalShift s = inject_Z (width / 20)).
  { unfold s, App.handleImageSelect. cbn [horizontalShift].
    rewrite <- E20 at 1. now rewrite floor_div. }
  assert (Ev : verticalShift s = inject_Z (height / 20)).
  { unfold s, App.handleImageSelect. cbn [verticalShift].
    rewrite <- E20 at 1. now rewrite floor_div. }
  assert (Ee : RenderWeave.tileSize s == inject_Z (Z.max 2 (shorter / 10))).
  { unfold RenderWeave.tileSize, Math_max. rewrite Et.
    change 2 with (inject_Z 2). apply Qmax_Z. }
  split; [rewrite Et, Eh, Ev; repeat split; reflexivity|].
  split.
  { rewrite Et. change 2 with (inject_Z 2). rewrite <- Zle_Qle.
    split; intros H.
    - destruct (Z_lt_le_dec shorter 20) as [L|L]; [|exact L].
      assert (shorter / 10 < 2)%Z by (apply Z.div_lt_upper_bound; lia). lia.
    - apply Z.div_le_lower_bound; lia. }
  split; [exact Ee|].
  split.
  { rewrite fastPath_iff, Eh, Ev.
    assert (A : forall n : Z, Qabs (inject_Z n) < 0.5 <-> n = 0%Z).
    { intros n. rewrite Qabs_Qlt_condition. split.
      - intros [A1 A2].
        assert (B1 : inject_Z (-1) < inject_Z n) by (change (inject_Z (-1)) with (-1); lra).
        assert (B2 : inject_Z n < inject_Z 1) by (change (inject_Z 1) with 1; lra).
        rewrite <- Zlt_Qlt in B1, B2. lia.
      - intros ->. split; reflexivity. }
    rewrite !A.
    assert (Z20 : forall n : Z, (n / 20 = 0)%Z <-> (0 <= n < 20)%Z).
    { intros n. split; intros H.
      - pose proof (Z.div_mod n 20 ltac:(lia)). pose proof (Z.mod_pos_bound n 20 ltac:(lia)).
        lia.
      - now apply Z.div_small. }
    rewrite !Z20. unfold s, App.handleImageSelect. cbn [scatterIntensity App.DEFAULT_SETTINGS].
    split; [intros (H1 & H2 & _); auto | intros [H1 H2]; split; [exact H1 | split; [exact H2 | reflexivity]]]. }
  intros H.
  assert (D : (2 <= shorter / 10)%Z) by (apply Z.div_le_lower_bound; lia).
  assert (B : (10 * (shorter / 10) <= shorter)%Z) by (apply Z.mul_div_le; lia).
  rewrite Z.max_r in Ee by lia.
  split; apply (ceil_count _ (shorter / 10)); try assumption; unfold shorter in *; lia.
Qed.
